(** * Wiggle: room directory, session client and peer-connection orchestrator

    A shallow embedding of these parts of the Wiggle code base:

    - [Directory]    : [signaling-server/server.js], class [SignalingServer];
    - [Session]      : the signaling client, class [SignalingClient];
    - [Orchestrator] : [src/lib/webrtc/WebRTCManager.ts], class [WebRTCManager],
                       with the part of [AudioManager] it drives;
    - [LocalAudio]   : [AudioManager.toggleMute] and [AudioManager.isMuted];
    - [Room]         : the handlers of the room page that connect the client,
                       the manager and the roster shown to the user.

    Mutable JavaScript objects are modelled by explicit state passing.  Where
    an object is reachable through more than one reference (the [Map] returned
    by [getAllConnections], the connection records stored in it) the model
    keeps an object store indexed by addresses.

    The modules of definitions come first; the modules [DirectoryProofs],
    [SessionProofs], [OrchestratorProofs] and [RoomProofs] that follow hold
    the lemmas and the theorems about them. *)

From stdpp Require Import gmap strings list fin_maps.
From Stdlib Require Import ZArith Lia.

Local Open Scope string_scope.
Local Open Scope list_scope.
Local Set Warnings "-register-all".

(** ** JSON payloads

    The directory relays negotiation payloads without looking inside them. *)

Inductive json :=
  | JNull
  | JBool (b : bool)
  | JNum (z : Z)
  | JStr (s : string)
  | JArr (l : list json)
  | JObj (l : list (string * json)).

(** [WebSocket.readyState]. *)
Inductive ready_state := CONNECTING | OPEN | CLOSING | CLOSED.

Definition is_open (r : option ready_state) : bool :=
  match r with Some OPEN => true | _ => false end.

(** JavaScript truthiness of a value that is a string, [null] or [undefined]:
    only a non-empty string is truthy. *)
Definition truthy (v : option string) : bool :=
  match v with
  | Some s => negb (String.eqb s "")
  | None => false
  end.

(** [v || dflt] on such a value. *)
Definition or_default (v : option string) (dflt : string) : string :=
  match v with
  | Some s => if String.eqb s "" then dflt else s
  | None => dflt
  end.

(** ** An insertion-ordered [Set] of strings (a room's members).

    [Set.prototype.add] appends a new element and leaves the set alone when
    the element is already there; [delete] removes it; iteration follows
    insertion order. *)

Definition set_has (x : string) (s : list string) : bool :=
  bool_decide (x ∈ s).

Definition set_add (x : string) (s : list string) : list string :=
  if set_has x s then s else s ++ [x].

Definition set_delete (x : string) (s : list string) : list string :=
  filter (λ y, y ≠ x) s.

(* ===================================================================== *)
(** * The room directory ([signaling-server/server.js])                    *)
(* ===================================================================== *)

Module Directory.

(** A parsed client message.  [JSON.parse] may return [null], on which any
    property read throws; every other value is read through its fields, an
    absent field being [undefined] ([None]).  The fields the handlers read
    are modelled at the types of the wire protocol. *)
Record message := Message {
  m_type : option string;
  m_roomId : option string;
  m_nickname : option string;
  m_to : option string;
  m_signal : option json
}.

Inductive parsed :=
  | PNull
  | PObject (m : message).

(** What arrives on a socket: text that [JSON.parse] rejects, or text that
    parses to a value. *)
Inductive frame :=
  | Unparseable
  | Parses (v : parsed).

Definition JSON_parse (d : frame) : option parsed :=
  match d with
  | Unparseable => None
  | Parses v => Some v
  end.

(** Server-to-client messages. *)
Inductive server_msg :=
  | Connected (participantId : string)
  | RoomJoined (roomId participantId : string)
  | RoomLeft (roomId : string)
  | ParticipantJoined (participantId nickname : string)
  | ParticipantLeft (participantId : string)
  | ExistingParticipants (participants : list (string * string))
  | Signal (from : string) (signal : option json)
  | ErrorMsg (message : string).

(** Console output, by level. *)
Inductive log_level := LogInfo | LogWarn | LogError.

Inductive log_entry :=
  | LNewConnection (pid : string)
  | LConnectionClosed (pid : string)
  | LMessageFrom (pid : string) (ty : option string)
  | LUnknownType (ty : option string)
  | LParseError
  | LJoined (pid rid nick : string)
  | LRoomDeleted (rid : string)
  | LLeft (pid rid : string)
  | LTargetNotFound (to : option string)
  | LForwarded (from to : string).

Definition level_of (e : log_entry) : log_level :=
  match e with
  | LUnknownType _ | LTargetNotFound _ => LogWarn
  | LParseError => LogError
  | _ => LogInfo
  end.

(** [participants] values: [{ ws, roomId, nickname }].  The socket object is
    referred to by the id of the connection it belongs to. *)
Record participant := Participant {
  ws : string;
  roomId : option string;
  nickname : string
}.

Record server := Server {
  rooms : gmap string (list string);
  participants : gmap string participant;
  sockets : gmap string ready_state;
  sent : list (string * server_msg);
  console : list log_entry
}.

Definition new_server : server :=
  {| rooms := ∅; participants := ∅; sockets := ∅; sent := []; console := [] |}.

Definition set_rooms (r : gmap string (list string)) (s : server) : server :=
  {| rooms := r; participants := participants s; sockets := sockets s;
     sent := sent s; console := console s |}.

Definition set_participants (p : gmap string participant) (s : server) : server :=
  {| rooms := rooms s; participants := p; sockets := sockets s;
     sent := sent s; console := console s |}.

Definition set_sockets (k : gmap string ready_state) (s : server) : server :=
  {| rooms := rooms s; participants := participants s; sockets := k;
     sent := sent s; console := console s |}.

Definition ws_send (w : string) (m : server_msg) (s : server) : server :=
  {| rooms := rooms s; participants := participants s; sockets := sockets s;
     sent := sent s ++ [(w, m)]; console := console s |}.

Definition log (e : log_entry) (s : server) : server :=
  {| rooms := rooms s; participants := participants s; sockets := sockets s;
     sent := sent s; console := console s ++ [e] |}.

(** [sendMessage(ws, message)] *)
Definition sendMessage (w : string) (m : server_msg) (s : server) : server :=
  if is_open (sockets s !! w) then ws_send w m s else s.

(** [sendError(ws, errorMessage)] *)
Definition sendError (w : string) (errorMessage : string) (s : server) : server :=
  sendMessage w (ErrorMsg errorMessage) s.

(** [broadcastToRoom(roomId, message, excludeParticipantId = null)] *)
Definition broadcast_one (m : server_msg) (exclude : option string)
    (s : server) (pid : string) : server :=
  if bool_decide (exclude = Some pid) then s
  else match participants s !! pid with
       | Some p => if is_open (sockets s !! ws p) then sendMessage (ws p) m s else s
       | None => s
       end.

Definition broadcastToRoom (rid : string) (m : server_msg)
    (exclude : option string) (s : server) : server :=
  match rooms s !! rid with
  | None => s
  | Some room => foldl (broadcast_one m exclude) s room
  end.

(** [handleLeaveRoom(participantId)] *)
Definition handleLeaveRoom (pid : string) (s : server) : server :=
  match participants s !! pid with
  | None => s
  | Some p =>
    if negb (truthy (roomId p)) then s else
    match roomId p with
    | None => s
    | Some rid =>
      let s1 :=
        match rooms s !! rid with
        | Some room =>
          let room' := set_delete pid room in
          let s' := set_rooms (<[rid := room']> (rooms s)) s in
          if Nat.eqb (length room') 0
          then log (LRoomDeleted rid) (set_rooms (delete rid (rooms s')) s')
          else broadcastToRoom rid (ParticipantLeft pid) None s'
        | None => s
        end in
      let s2 := log (LLeft pid rid) s1 in
      let s3 := set_participants
                  (<[pid := {| ws := ws p; roomId := None; nickname := nickname p |}]>
                     (participants s2)) s2 in
      sendMessage (ws p) (RoomLeft rid) s3
    end
  end.

(** The roster sent to a joiner: [Array.from(room).filter(...).map(...)]. *)
Definition roster_entry (s : server) (id : string) : string * string :=
  (id, match participants s !! id with
       | Some p => or_default (Some (nickname p)) "Anonymous"
       | None => "Anonymous"
       end).

Definition existing_of (s : server) (pid : string) (room : list string)
    : list (string * string) :=
  map (roster_entry s) (filter (λ id, id ≠ pid) room).

(** [handleJoinRoom(participantId, message)].  The participant record is one
    mutable object: after the implicit leave it is read again from the store. *)
Definition handleJoinRoom (pid : string) (msg : message) (s : server) : server :=
  match participants s !! pid with
  | None => s
  | Some p0 =>
    if negb (truthy (m_roomId msg)) then s else
    match m_roomId msg with
    | None => s
    | Some rid =>
      let s1 := if truthy (roomId p0) then handleLeaveRoom pid s else s in
      let s2 := match rooms s1 !! rid with
                | None => set_rooms (<[rid := []]> (rooms s1)) s1
                | Some _ => s1
                end in
      let room := default [] (rooms s2 !! rid) in
      let nick := or_default (m_nickname msg) "Anonymous" in
      let s3 := set_participants
                  (<[pid := {| ws := ws p0; roomId := Some rid; nickname := nick |}]>
                     (participants s2)) s2 in
      let room' := set_add pid room in
      let s4 := set_rooms (<[rid := room']> (rooms s3)) s3 in
      let s5 := log (LJoined pid rid nick) s4 in
      let s6 := sendMessage (ws p0) (RoomJoined rid pid) s5 in
      let s7 := broadcastToRoom rid (ParticipantJoined pid nick) (Some pid) s6 in
      let existingParticipants := existing_of s7 pid room' in
      if Nat.ltb 0 (length existingParticipants)
      then sendMessage (ws p0) (ExistingParticipants existingParticipants) s7
      else s7
    end
  end.

(** [handleSignal(participantId, message)] *)
Definition handleSignal (pid : string) (msg : message) (s : server) : server :=
  match m_to msg ≫= (λ to, (λ t, (to, t)) <$> participants s !! to) with
  | None => log (LTargetNotFound (m_to msg)) s
  | Some (to, target) =>
    log (LForwarded pid to) (sendMessage (ws target) (Signal pid (m_signal msg)) s)
  end.

(** [handleDisconnection(participantId)] *)
Definition handleDisconnection (pid : string) (s : server) : server :=
  let s1 := match participants s !! pid with
            | Some p => if truthy (roomId p) then handleLeaveRoom pid s else s
            | None => s
            end in
  set_participants (delete pid (participants s1)) s1.

(** Outcome of a call that may throw: the state reached, and whether an
    exception is propagating. *)
Inductive outcome :=
  | Returns (s : server)
  | Throws (s : server).

(** [message.type === c] for a case label [c] of the [switch]. *)
Definition type_is (msg : message) (c : string) : bool :=
  bool_decide (m_type msg = Some c).

(** [handleMessage(participantId, message)].  Reading [message.type] of
    [null] throws a [TypeError]. *)
Definition handleMessage (pid : string) (v : parsed) (s : server) : outcome :=
  match participants s !! pid with
  | None => Returns s
  | Some p =>
    match v with
    | PNull => Throws s
    | PObject msg =>
      let s1 := log (LMessageFrom pid (m_type msg)) s in
      if type_is msg "join-room" then Returns (handleJoinRoom pid msg s1)
      else if type_is msg "leave-room" then Returns (handleLeaveRoom pid s1)
      else if type_is msg "signal" then Returns (handleSignal pid msg s1)
      else
        Returns (sendError (ws p)
                   (String.append "Unknown message type: "
                                  (default "undefined" (m_type msg)))
                   (log (LUnknownType (m_type msg)) s1))
    end
  end.

(** The ['message'] listener of a connection: parse and dispatch inside one
    [try], report anything thrown on the same socket. *)
Definition on_message (pid : string) (data : frame) (s : server) : server :=
  let failed s' := sendError pid "Invalid message format" (log LParseError s') in
  match JSON_parse data with
  | None => failed s
  | Some v =>
    match handleMessage pid v s with
    | Returns s' => s'
    | Throws s' => failed s'
    end
  end.

(** The ['connection'] listener; [pid] is the value [uuidv4()] returned. *)
Definition on_connection (pid : string) (s : server) : server :=
  let s1 := set_sockets (<[pid := OPEN]> (sockets s)) s in
  let s2 := log (LNewConnection pid) s1 in
  let s3 := set_participants
              (<[pid := {| ws := pid; roomId := None; nickname := "Anonymous" |}]>
                 (participants s2)) s2 in
  sendMessage pid (Connected pid) s3.

(** The ['close'] listener: the socket is closed when it runs. *)
Definition on_close (pid : string) (s : server) : server :=
  let s1 := set_sockets (<[pid := CLOSED]> (sockets s)) s in
  handleDisconnection pid (log (LConnectionClosed pid) s1).

(** Events of the directory process: a client connects, a frame arrives on
    a connection, a connection closes, and the transport of a connection
    changes its ready state (the closing handshake starts, say) before any
    listener runs. *)
Inductive event :=
  | EvConnection (pid : string)
  | EvMessage (pid : string) (data : frame)
  | EvClose (pid : string)
  | EvReadyState (pid : string) (r : ready_state).

Definition step (s : server) (e : event) : server :=
  match e with
  | EvConnection pid => on_connection pid s
  | EvMessage pid data => on_message pid data s
  | EvClose pid => on_close pid s
  | EvReadyState pid r =>
    match sockets s !! pid with
    | Some _ => set_sockets (<[pid := r]> (sockets s)) s
    | None => s
    end
  end.

Definition run (s : server) (evs : list event) : server := foldl step s evs.

(** [uuidv4()] never returns the id of a registered participant. *)
Fixpoint fresh_ids (s : server) (evs : list event) : Prop :=
  match evs with
  | [] => True
  | e :: evs' =>
    match e with
    | EvConnection pid => participants s !! pid = None
    | _ => True
    end ∧ fresh_ids (step s e) evs'
  end.

(** The sockets a broadcast writes to, in iteration order. *)
Definition recipient (s : server) (exclude : option string) (pid : string)
    : option string :=
  if bool_decide (exclude = Some pid) then None
  else match participants s !! pid with
       | Some p => if is_open (sockets s !! ws p) then Some (ws p) else None
       | None => None
       end.

Definition recipients (s : server) (exclude : option string)
    (room : list string) : list string :=
  omap (recipient s exclude) room.

(** ** The membership invariant *)

Record dir_inv (s : server) : Prop := DirInv {
  inv_nonempty : ∀ r room, rooms s !! r = Some room → room ≠ [];
  inv_nodup : ∀ r room, rooms s !! r = Some room → NoDup room;
  inv_member : ∀ r p,
    (∃ room, rooms s !! r = Some room ∧ p ∈ room) ↔
    (∃ rec, participants s !! p = Some rec ∧ roomId rec = Some r);
  inv_key : rooms s !! "" = None;
  inv_ws : ∀ p rec, participants s !! p = Some rec → ws rec = p
}.

(** A type the [switch] has no case for. *)
Definition unknown_type (msg : message) : Prop :=
  m_type msg ≠ Some "join-room" ∧ m_type msg ≠ Some "leave-room" ∧
  m_type msg ≠ Some "signal".

(** Messages counted by the roster-delivery statement. *)
Definition is_joined_notice (q pid : string) (x : string * server_msg) : bool :=
  match x with
  | (w, ParticipantJoined p _) => bool_decide (w = q) && bool_decide (p = pid)
  | _ => false
  end.

Definition is_roster_msg (x : string * server_msg) : bool :=
  match x with
  | (_, ExistingParticipants _) => true
  | _ => false
  end.

(** ** Sample traffic used by the closed examples *)

Definition join_room (rid : option string) (nick : option string) : message :=
  {| m_type := Some "join-room"; m_roomId := rid; m_nickname := nick;
     m_to := None; m_signal := None |}.

Definition leave_room : message :=
  {| m_type := Some "leave-room"; m_roomId := None; m_nickname := None;
     m_to := None; m_signal := None |}.

Definition signal_to (to : option string) (payload : option json) : message :=
  {| m_type := Some "signal"; m_roomId := None; m_nickname := None;
     m_to := to; m_signal := payload |}.

Definition says (pid : string) (m : message) : event :=
  EvMessage pid (Parses (PObject m)).

(** P1 connects and joins "r1", then P2 connects. *)
Definition two_connected : list event :=
  [EvConnection "P1"; says "P1" (join_room (Some "r1") (Some "ann"));
   EvConnection "P2"].

(** ... and P2 joins "r1" too. *)
Definition two_in_room : list event :=
  two_connected ++ [says "P2" (join_room (Some "r1") None)].

(** P1 is in "r1" with its socket closing when P2 connects. *)
Definition closing_member : list event :=
  [EvConnection "P1"; says "P1" (join_room (Some "r1") (Some "ann"));
   EvReadyState "P1" CLOSING; EvConnection "P2"].

(** ** Predicates of the further properties *)

(** From [s] to [s'] no socket changed its ready state, and everything
    written in between went to a socket that was open. *)
Definition wrote_to_open (s s' : server) : Prop :=
  sockets s' = sockets s ∧
  ∃ out, sent s' = sent s ++ out ∧
         Forall (λ x, is_open (sockets s !! x.1) = true) out.

(** A roster notice about a participant, addressed to that participant. *)
Definition self_notice (x : string * server_msg) : bool :=
  match x with
  | (w, ParticipantJoined p _) => bool_decide (w = p)
  | (w, ParticipantLeft p) => bool_decide (w = p)
  | _ => false
  end.

End Directory.

(* ===================================================================== *)
(** * The session client (class [SignalingClient])                         *)
(* ===================================================================== *)

Local Open Scope nat_scope.

Module Session.

(** Who called [connect()]: application code, or the reconnect timer, whose
    promise is only observed by [.catch(console.error)]. *)
Inductive caller := User | Timer.

#[global] Instance caller_eq_dec : EqDecision caller.
Proof. solve_decision. Defined.

Inductive rejection :=
  | AlreadyConnecting      (* [new Error('Already connecting')] *)
  | ConstructorFailed      (* [new WebSocket(url)] threw *)
  | TransportError.        (* the [error] event of the socket *)

Inductive settlement :=
  | Resolved
  | Rejected (why : rejection).

(** Invocations of the handlers of the application ([onXHandler?.(...)]),
    recorded as if every handler were registered. *)
Inductive callback :=
  | CbConnected
  | CbDisconnected
  | CbRoomJoined (roomId participantId : string)
  | CbRoomLeft (roomId : string)
  | CbParticipantJoined (participantId nickname : string)
  | CbParticipantLeft (participantId : string)
  | CbExistingParticipants (participants : list (string * string))
  | CbSignalReceived (from : string) (signal : option json)
  | CbError (message : string).

(** A [WebSocket] the client constructed: its ready state, the [connect()]
    call whose promise its handlers settle, and whether that promise is
    settled already (later [resolve]/[reject] calls do nothing). *)
Record transport := Transport {
  readyState : ready_state;
  awaited_by : caller;
  settled : bool
}.

Record client := Client {
  ws : option nat;
  reconnectAttempts : nat;
  isConnecting : bool;
  isIntentionalClose : bool;
  (* the world around the object *)
  transports : list transport;
  timers : list (nat * Z);
  pending : nat;
  callbacks : list callback;
  settlements : list (caller * settlement)
}.

Definition maxReconnectAttempts : nat := 5.
Definition reconnectDelay : Z := 1000.

Definition new_client : client :=
  {| ws := None; reconnectAttempts := 0; isConnecting := false;
     isIntentionalClose := false; transports := []; timers := [];
     pending := 0; callbacks := []; settlements := [] |}.

Definition set_ws (w : option nat) (c : client) : client :=
  {| ws := w; reconnectAttempts := reconnectAttempts c;
     isConnecting := isConnecting c; isIntentionalClose := isIntentionalClose c;
     transports := transports c; timers := timers c; pending := pending c;
     callbacks := callbacks c; settlements := settlements c |}.

Definition set_reconnectAttempts (n : nat) (c : client) : client :=
  {| ws := ws c; reconnectAttempts := n;
     isConnecting := isConnecting c; isIntentionalClose := isIntentionalClose c;
     transports := transports c; timers := timers c; pending := pending c;
     callbacks := callbacks c; settlements := settlements c |}.

Definition set_isConnecting (b : bool) (c : client) : client :=
  {| ws := ws c; reconnectAttempts := reconnectAttempts c;
     isConnecting := b; isIntentionalClose := isIntentionalClose c;
     transports := transports c; timers := timers c; pending := pending c;
     callbacks := callbacks c; settlements := settlements c |}.

Definition set_isIntentionalClose (b : bool) (c : client) : client :=
  {| ws := ws c; reconnectAttempts := reconnectAttempts c;
     isConnecting := isConnecting c; isIntentionalClose := b;
     transports := transports c; timers := timers c; pending := pending c;
     callbacks := callbacks c; settlements := settlements c |}.

Definition set_transports (ts : list transport) (c : client) : client :=
  {| ws := ws c; reconnectAttempts := reconnectAttempts c;
     isConnecting := isConnecting c; isIntentionalClose := isIntentionalClose c;
     transports := ts; timers := timers c; pending := pending c;
     callbacks := callbacks c; settlements := settlements c |}.

Definition setTimeout (attempt : nat) (delay : Z) (c : client) : client :=
  {| ws := ws c; reconnectAttempts := reconnectAttempts c;
     isConnecting := isConnecting c; isIntentionalClose := isIntentionalClose c;
     transports := transports c; timers := timers c ++ [(attempt, delay)];
     pending := S (pending c);
     callbacks := callbacks c; settlements := settlements c |}.

Definition set_pending (n : nat) (c : client) : client :=
  {| ws := ws c; reconnectAttempts := reconnectAttempts c;
     isConnecting := isConnecting c; isIntentionalClose := isIntentionalClose c;
     transports := transports c; timers := timers c; pending := n;
     callbacks := callbacks c; settlements := settlements c |}.

Definition invoke (cb : callback) (c : client) : client :=
  {| ws := ws c; reconnectAttempts := reconnectAttempts c;
     isConnecting := isConnecting c; isIntentionalClose := isIntentionalClose c;
     transports := transports c; timers := timers c; pending := pending c;
     callbacks := callbacks c ++ [cb]; settlements := settlements c |}.

Definition settle (who : caller) (r : settlement) (c : client) : client :=
  {| ws := ws c; reconnectAttempts := reconnectAttempts c;
     isConnecting := isConnecting c; isIntentionalClose := isIntentionalClose c;
     transports := transports c; timers := timers c; pending := pending c;
     callbacks := callbacks c; settlements := settlements c ++ [(who, r)] |}.

(** [resolve()] / [reject(e)] called from a handler of transport [t]. *)
Definition settle_from (t : nat) (r : settlement) (c : client) : client :=
  match transports c !! t with
  | Some tr =>
    if settled tr then c
    else settle (awaited_by tr) r
           (set_transports
              (<[t := {| readyState := readyState tr;
                         awaited_by := awaited_by tr; settled := true |}]>
                 (transports c)) c)
  | None => c
  end.

Definition set_readyState (t : nat) (r : ready_state) (c : client) : client :=
  match transports c !! t with
  | Some tr =>
    set_transports
      (<[t := {| readyState := r; awaited_by := awaited_by tr;
                 settled := settled tr |}]> (transports c)) c
  | None => c
  end.

(** [this.ws && this.ws.readyState === WebSocket.OPEN] *)
Definition ws_is_open (c : client) : bool :=
  match ws c with
  | Some t => is_open (readyState <$> transports c !! t)
  | None => false
  end.

(** [connect()]: the body of the promise executor.  [throws] tells whether
    the [WebSocket] constructor throws. *)
Definition connect (who : caller) (throws : bool) (c : client) : client :=
  if ws_is_open c then settle who Resolved c
  else if isConnecting c then settle who (Rejected AlreadyConnecting) c
  else
    let c1 := set_isIntentionalClose false (set_isConnecting true c) in
    if throws
    then settle who (Rejected ConstructorFailed) (set_isConnecting false c1)
    else
      let t := length (transports c1) in
      set_ws (Some t)
        (set_transports
           (transports c1 ++
              [{| readyState := CONNECTING; awaited_by := who; settled := false |}])
           c1).

(** [scheduleReconnect()] *)
Definition scheduleReconnect (c : client) : client :=
  let c1 := set_reconnectAttempts (S (reconnectAttempts c)) c in
  let delay :=
    (reconnectDelay * 2 ^ (Z.of_nat (reconnectAttempts c1) - 1))%Z in
  setTimeout (reconnectAttempts c1) delay c1.

(** [ws.onopen] *)
Definition onopen (t : nat) (c : client) : client :=
  settle_from t Resolved
    (invoke CbConnected
       (set_reconnectAttempts 0 (set_isConnecting false c))).

(** [ws.onclose] *)
Definition onclose (t : nat) (c : client) : client :=
  let c1 := invoke CbDisconnected (set_isConnecting false c) in
  if negb (isIntentionalClose c1) &&
     Nat.ltb (reconnectAttempts c1) maxReconnectAttempts
  then scheduleReconnect c1
  else c1.

(** [ws.onerror] *)
Definition onerror (t : nat) (c : client) : client :=
  settle_from t (Rejected TransportError) (set_isConnecting false c).

(** [handleMessage(message)]; [None] stands for text that does not parse or
    whose type the [switch] does not know, which only reaches the console. *)
Definition handleMessage (m : option Directory.server_msg) (c : client) : client :=
  match m with
  | Some (Directory.Connected _) => c
  | Some (Directory.RoomJoined r p) => invoke (CbRoomJoined r p) c
  | Some (Directory.RoomLeft r) => invoke (CbRoomLeft r) c
  | Some (Directory.ParticipantJoined p n) => invoke (CbParticipantJoined p n) c
  | Some (Directory.ParticipantLeft p) => invoke (CbParticipantLeft p) c
  | Some (Directory.ExistingParticipants ps) => invoke (CbExistingParticipants ps) c
  | Some (Directory.Signal f sg) => invoke (CbSignalReceived f sg) c
  | Some (Directory.ErrorMsg e) => invoke (CbError e) c
  | None => c
  end.

(** [disconnect()]; [close()] moves a socket that is not closed yet to
    [CLOSING], its [close] event comes later. *)
Definition close_socket (t : nat) (c : client) : client :=
  match readyState <$> transports c !! t with
  | Some CONNECTING | Some OPEN => set_readyState t CLOSING c
  | _ => c
  end.

Definition disconnect (c : client) : client :=
  let c1 := set_isIntentionalClose true c in
  match ws c1 with
  | Some t => set_ws None (close_socket t c1)
  | None => c1
  end.

(** Events: calls made by the application, socket events delivered by the
    browser, and the reconnect timer firing. *)
Inductive event :=
  | EvConnect (throws : bool)
  | EvDisconnect
  | EvOpen (t : nat)
  | EvMessage (t : nat) (m : option Directory.server_msg)
  | EvError (t : nat)
  | EvClose (t : nat)
  | EvTimer (throws : bool).

Definition state_of (t : nat) (c : client) : option ready_state :=
  readyState <$> transports c !! t.

(** A socket opens once, from [CONNECTING]; delivers messages while [OPEN];
    closes once.  Events that the socket cannot produce are ignored. *)
Definition step (c : client) (e : event) : client :=
  match e with
  | EvConnect throws => connect User throws c
  | EvDisconnect => disconnect c
  | EvOpen t =>
    match state_of t c with
    | Some CONNECTING => onopen t (set_readyState t OPEN c)
    | _ => c
    end
  | EvMessage t m =>
    match state_of t c with
    | Some OPEN => handleMessage m c
    | _ => c
    end
  | EvError t =>
    match state_of t c with
    | Some CONNECTING | Some OPEN | Some CLOSING => onerror t c
    | _ => c
    end
  | EvClose t =>
    match state_of t c with
    | Some CONNECTING | Some OPEN | Some CLOSING =>
      onclose t (set_readyState t CLOSED c)
    | _ => c
    end
  | EvTimer throws =>
    match pending c with
    | S n => connect Timer throws (set_pending n c)
    | O => c
    end
  end.

Definition run (c : client) (evs : list event) : client := foldl step c evs.

(** Sockets that are connecting or open. *)
Definition is_live (r : option ready_state) : bool :=
  match r with
  | Some CONNECTING | Some OPEN => true
  | _ => false
  end.

Definition live (c : client) : list nat :=
  filter (λ t, is_live (state_of t c) = true) (seq 0 (length (transports c))).

Definition is_open_event (e : event) : bool :=
  match e with EvOpen _ => true | _ => false end.

(** A timer entry on the backoff schedule. *)
Definition on_schedule (x : nat * Z) : Prop :=
(1 ≤ x.1 ≤ maxReconnectAttempts)%nat ∧
  x.2 = (reconnectDelay * 2 ^ (Z.of_nat x.1 - 1))%Z.

(** ** Sample traces *)

(** One failed reconnect: the timer fires, the new socket errors and closes. *)
Definition failed_retry (t : nat) : list event :=
  [EvTimer false; EvError t; EvClose t].

(** Connect, open, lose the connection, then four failed reconnects: the
    retry counter stands at 5 and the fifth timer is pending. *)
Definition five_closes : list event :=
  [EvConnect false; EvOpen 0; EvClose 0] ++
  failed_retry 1 ++ failed_retry 2 ++ failed_retry 3 ++ failed_retry 4.

(** ... and the fifth reconnect fails as well. *)
Definition six_closes : list event := five_closes ++ failed_retry 5.

(** [disconnect()] immediately followed by [connect()], then the [close]
    event of the old socket, then the reconnect timer. *)
Definition reconnect_race : list event :=
  [EvConnect false; EvOpen 0; EvDisconnect; EvConnect false; EvClose 0].

(** ** The sending half of the client

    [sendMessage] writes [JSON.stringify(message)] to [this.ws] when that
    socket is open and otherwise drops the message with a console warning.
    It changes no field, so it is modelled by what it writes and to which
    socket.  The directory reads the text back with [JSON.parse]; the two
    models share the message record. *)

(** [isConnected()] *)
Definition isConnected (c : client) : bool := ws_is_open c.

(** [sendMessage(message)] *)
Definition sendMessage (m : Directory.message) (c : client)
    : option (nat * Directory.message) :=
  match ws c with
  | Some t => if is_open (state_of t c) then Some (t, m) else None
  | None => None
  end.

(** [joinRoom(roomId, nickname)] *)
Definition joinRoom (roomId nickname : string) (c : client)
    : option (nat * Directory.message) :=
  sendMessage {| Directory.m_type := Some "join-room";
                 Directory.m_roomId := Some roomId;
                 Directory.m_nickname := Some nickname;
                 Directory.m_to := None; Directory.m_signal := None |} c.

(** [leaveRoom()] *)
Definition leaveRoom (c : client) : option (nat * Directory.message) :=
  sendMessage {| Directory.m_type := Some "leave-room";
                 Directory.m_roomId := None; Directory.m_nickname := None;
                 Directory.m_to := None; Directory.m_signal := None |} c.

(** [sendSignal(to, signal)] *)
Definition sendSignal (to : string) (signal : json) (c : client)
    : option (nat * Directory.message) :=
  sendMessage {| Directory.m_type := Some "signal";
                 Directory.m_roomId := None; Directory.m_nickname := None;
                 Directory.m_to := Some to;
                 Directory.m_signal := Some signal |} c.

(** ** Predicates of the further properties *)

(** The retry counter is within budget, no more timers are pending than
    were armed, and [this.ws] is the socket constructed last, or [null]. *)
Definition client_inv (c : client) : Prop :=
  reconnectAttempts c ≤ maxReconnectAttempts ∧
  pending c ≤ length (timers c) ∧
  ∀ t, ws c = Some t → S t = length (transports c).

(** Events that run [connect()]. *)
Definition calls_connect (e : event) : bool :=
  match e with
  | EvConnect _ | EvTimer _ => true
  | _ => false
  end.

(** The connection is lost once with a reconnect timer left pending. *)
Definition lost_once : list event := [EvConnect false; EvOpen 0; EvClose 0].

End Session.

(* ===================================================================== *)
(** * The peer-connection orchestrator (class [WebRTCManager])             *)
(* ===================================================================== *)

(** ** An insertion-ordered [Map] with string keys

    [set] overwrites the value of a present key in place and appends a new
    key; [delete] removes the key; iteration follows insertion order. *)

Fixpoint map_get {V} (k : string) (m : list (string * V)) : option V :=
  match m with
  | [] => None
  | (k', v) :: m' => if decide (k' = k) then Some v else map_get k m'
  end.

Fixpoint map_set {V} (k : string) (v : V) (m : list (string * V))
    : list (string * V) :=
  match m with
  | [] => [(k, v)]
  | (k', v') :: m' =>
    if decide (k' = k) then (k, v) :: m' else (k', v') :: map_set k v m'
  end.

Definition map_delete {V} (k : string) (m : list (string * V))
    : list (string * V) :=
  filter (λ e, e.1 ≠ k) m.

Module Orchestrator.

(** The [SimplePeer] instance of a connection, as far as the manager drives
    it: [destroy()] sets [destroyed]; [signal(data)] and [send(data)] record
    their argument, and throw once the peer is destroyed (both callers catch
    and log).  [callId] is the value captured by the ['signal'] listener. *)
Record SimplePeer := Peer {
  destroyed : bool;
  initiator : bool;
  local_stream : nat;
  callId : string;
  signalled : list json;
  data_sent : list json
}.

(** [interface PeerConnection] *)
Record PeerConnection := Connection {
  id : string;
  peer : SimplePeer;
  stream : option nat;
  isConnected : bool;
  isInitiator : bool;
  createdAt : Z
}.

(** The part of [AudioManager] the orchestrator uses. *)
Record AudioManager := Audio {
  audio_isInitialized : bool;
  localStream : option nat;
  remoteStreams : list (string * nat);
  stopped : list nat
}.

(** What the manager reports through its constructor callbacks. *)
Inductive app_event :=
  | OnSignal (to : string) (signal : json) (callId : string)
  | OnStreamReceived (peerId : string) (stream : nat)
  | OnConnectionStateChange (peerId : string) (state : string).

(** The heap and the manager.  [maps] holds the [Map] objects, [conns] the
    [PeerConnection] objects the maps refer to; [connections] is the address
    of the manager's private map. *)
Record world := World {
  maps : gmap nat (list (string * nat));
  conns : gmap nat PeerConnection;
  next : nat;
  connections : nat;
  isInitialized : bool;
  audio : AudioManager;
  emitted : list app_event
}.

(** [new WebRTCManager(new AudioManager(), ...)] with a microphone stream
    or none. *)
Definition new_world (mic : option nat) : world :=
  {| maps := {[ 0 := [] ]}; conns := ∅; next := 1; connections := 0;
     isInitialized := false;
     audio := {| audio_isInitialized := false; localStream := mic;
                 remoteStreams := []; stopped := [] |};
     emitted := [] |}.

Definition set_maps (m : gmap nat (list (string * nat))) (w : world) : world :=
  {| maps := m; conns := conns w; next := next w;
     connections := connections w; isInitialized := isInitialized w;
     audio := audio w; emitted := emitted w |}.

Definition set_conns (c : gmap nat PeerConnection) (w : world) : world :=
  {| maps := maps w; conns := c; next := next w;
     connections := connections w; isInitialized := isInitialized w;
     audio := audio w; emitted := emitted w |}.

Definition set_next (n : nat) (w : world) : world :=
  {| maps := maps w; conns := conns w; next := n;
     connections := connections w; isInitialized := isInitialized w;
     audio := audio w; emitted := emitted w |}.

Definition set_isInitialized (b : bool) (w : world) : world :=
  {| maps := maps w; conns := conns w; next := next w;
     connections := connections w; isInitialized := b;
     audio := audio w; emitted := emitted w |}.

Definition set_audio (a : AudioManager) (w : world) : world :=
  {| maps := maps w; conns := conns w; next := next w;
     connections := connections w; isInitialized := isInitialized w;
     audio := a; emitted := emitted w |}.

Definition emit (e : app_event) (w : world) : world :=
  {| maps := maps w; conns := conns w; next := next w;
     connections := connections w; isInitialized := isInitialized w;
     audio := audio w; emitted := emitted w ++ [e] |}.

(** The entries of [this.connections], and its in-place update. *)
Definition internal (w : world) : list (string * nat) :=
  default [] (maps w !! connections w).

Definition set_internal (m : list (string * nat)) (w : world) : world :=
  set_maps (<[connections w := m]> (maps w)) w.

(** Updates of a connection object and of its peer, through a reference. *)
Definition update_conn (a : nat) (f : PeerConnection → PeerConnection)
    (w : world) : world :=
  set_conns (alter f a (conns w)) w.

Definition with_peer (f : SimplePeer → SimplePeer) (c : PeerConnection)
    : PeerConnection :=
  {| id := id c; peer := f (peer c); stream := stream c;
     isConnected := isConnected c; isInitiator := isInitiator c;
     createdAt := createdAt c |}.

Definition with_isConnected (b : bool) (c : PeerConnection) : PeerConnection :=
  {| id := id c; peer := peer c; stream := stream c;
     isConnected := b; isInitiator := isInitiator c; createdAt := createdAt c |}.

Definition with_stream (s : option nat) (c : PeerConnection) : PeerConnection :=
  {| id := id c; peer := peer c; stream := s;
     isConnected := isConnected c; isInitiator := isInitiator c;
     createdAt := createdAt c |}.

(** [peer.destroy()] *)
Definition destroy (p : SimplePeer) : SimplePeer :=
  {| destroyed := true; initiator := initiator p;
     local_stream := local_stream p; callId := callId p;
     signalled := signalled p; data_sent := data_sent p |}.

(** [peer.signal(data)], the exception of a destroyed peer being caught by
    the caller. *)
Definition signal (data : json) (p : SimplePeer) : SimplePeer :=
  if destroyed p then p else
  {| destroyed := destroyed p; initiator := initiator p;
     local_stream := local_stream p; callId := callId p;
     signalled := signalled p ++ [data]; data_sent := data_sent p |}.

(** [peer.send(data)], likewise. *)
Definition send (data : json) (p : SimplePeer) : SimplePeer :=
  if destroyed p then p else
  {| destroyed := destroyed p; initiator := initiator p;
     local_stream := local_stream p; callId := callId p;
     signalled := signalled p; data_sent := data_sent p ++ [data] |}.

(** [AudioManager.addRemoteStream(peerId, stream)] *)
Definition addRemoteStream (peerId : string) (s : nat) (a : AudioManager)
    : AudioManager :=
  {| audio_isInitialized := audio_isInitialized a; localStream := localStream a;
     remoteStreams := map_set peerId s (remoteStreams a); stopped := stopped a |}.

(** [AudioManager.removeRemoteStream(peerId)]: stop the tracks of the stream
    and forget it, if there is one. *)
Definition removeRemoteStream (peerId : string) (a : AudioManager)
    : AudioManager :=
  match map_get peerId (remoteStreams a) with
  | Some s =>
    {| audio_isInitialized := audio_isInitialized a; localStream := localStream a;
       remoteStreams := map_delete peerId (remoteStreams a);
       stopped := stopped a ++ [s] |}
  | None => a
  end.

(** Results of the public methods. *)
Inductive result :=
  | RVoid
  | RThrow (message : string)
  | RConnection (c : option nat)
  | RMap (address : nat)
  | RNumber (n : nat)
  | RBoolean (b : bool).

(** [initialize()]; [fails] tells whether [audioManager.initialize()]
    rejects. *)
Definition initialize (fails : bool) (w : world) : world * result :=
  if isInitialized w then (w, RVoid)
  else if audio_isInitialized (audio w) then (set_isInitialized true w, RVoid)
  else if fails then (w, RThrow "AudioManager initialization failed")
  else
    (set_isInitialized true
       (set_audio {| audio_isInitialized := true;
                     localStream := localStream (audio w);
                     remoteStreams := remoteStreams (audio w);
                     stopped := stopped (audio w) |} w), RVoid).

(** [createConnection(peerId, isInitiator, callId)]; [now] is [new Date()]. *)
Definition createConnection (peerId : string) (init : bool) (cid : string)
    (now : Z) (w : world) : world * result :=
  if negb (isInitialized w) then (w, RThrow "WebRTCManager not initialized")
  else match localStream (audio w) with
  | None => (w, RThrow "No local audio stream available")
  | Some ls =>
    let a := next w in
    let connection :=
      {| id := peerId;
         peer := {| destroyed := false; initiator := init; local_stream := ls;
                    callId := cid; signalled := []; data_sent := [] |};
         stream := None; isConnected := false; isInitiator := init;
         createdAt := now |} in
    let w1 := set_next (S a) (set_conns (<[a := connection]> (conns w)) w) in
    (set_internal (map_set peerId a (internal w1)) w1, RVoid)
  end.

(** [handleSignal(signalData)] *)
Definition handleSignal (from : string) (sg : json) (w : world) : world :=
  match map_get from (internal w) with
  | None => w
  | Some a => update_conn a (with_peer (signal sg)) w
  end.

(** [sendDataChannelMessage(peerId, message)] *)
Definition sendDataChannelMessage (peerId : string) (message : json)
    (w : world) : world :=
  match map_get peerId (internal w) with
  | None => w
  | Some a =>
    match conns w !! a with
    | Some c =>
      if isConnected c then update_conn a (with_peer (send message)) w else w
    | None => w
    end
  end.

(** The loop of the two broadcast helpers. *)
Definition broadcast (message : json) (w : world) : world :=
  foldl (λ w e,
           match conns w !! e.2 with
           | Some c =>
             if isConnected c then sendDataChannelMessage e.1 message w else w
           | None => w
           end) w (internal w).

(** [broadcastMuteStatus(isMuted)]; [now] is [Date.now()]. *)
Definition broadcastMuteStatus (isMuted : bool) (now : Z) (w : world) : world :=
  broadcast (JObj [("type", JStr "mute-status"); ("isMuted", JBool isMuted);
                   ("timestamp", JNum now)]) w.

(** [broadcastAudioLevel(level)] *)
Definition broadcastAudioLevel (level : json) (now : Z) (w : world) : world :=
  broadcast (JObj [("type", JStr "audio-level"); ("level", level);
                   ("timestamp", JNum now)]) w.

(** [closeConnection(peerId)] *)
Definition closeConnection (peerId : string) (w : world) : world :=
  match map_get peerId (internal w) with
  | Some a =>
    let w1 := update_conn a (with_peer destroy) w in
    let w2 := set_internal (map_delete peerId (internal w1)) w1 in
    set_audio (removeRemoteStream peerId (audio w2)) w2
  | None => w
  end.

(** [getConnection(peerId)] *)
Definition getConnection (peerId : string) (w : world) : option nat :=
  map_get peerId (internal w).

(** [getAllConnections()]: [new Map(this.connections)] allocates a map with
    the same entries and returns its address. *)
Definition getAllConnections (w : world) : world * nat :=
  let r := next w in
  (set_next (S r) (set_maps (<[r := internal w]> (maps w)) w), r).

(** [getConnectedPeerCount()] *)
Definition getConnectedPeerCount (w : world) : nat :=
  length (filter (λ e, (isConnected <$> conns w !! e.2) = Some true)
                 (internal w)).

(** [hasActiveConnections()] *)
Definition hasActiveConnections (w : world) : bool :=
  Nat.ltb 0 (getConnectedPeerCount w).

(** [closeAllConnections()] *)
Definition closeAllConnections (w : world) : world :=
  let w1 :=
    foldl (λ w e,
             let w' := update_conn e.2 (with_peer destroy) w in
             set_audio (removeRemoteStream e.1 (audio w')) w')
          w (internal w) in
  set_internal [] w1.

(** [cleanup()] *)
Definition cleanup (w : world) : world :=
  set_isInitialized false (closeAllConnections w).

(** Events of the peer of the connection object at address [a], handled by
    the listeners [setupPeerEventListeners] installed. *)
Inductive peer_event :=
  | PeSignal (data : json)
  | PeConnect
  | PeStream (s : nat)
  | PeData
  | PeClose
  | PeError.

Definition on_peer_event (a : nat) (e : peer_event) (w : world) : world :=
  match conns w !! a with
  | None => w
  | Some c =>
    let peerId := id c in
    match e with
    | PeSignal data => emit (OnSignal peerId data (callId (peer c))) w
    | PeConnect =>
      emit (OnConnectionStateChange peerId "connected")
        (update_conn a (with_isConnected true) w)
    | PeStream s =>
      let w1 := update_conn a (with_stream (Some s)) w in
      emit (OnStreamReceived peerId s)
        (set_audio (addRemoteStream peerId s (audio w1)) w1)
    | PeData => w
    | PeClose =>
      let w1 := emit (OnConnectionStateChange peerId "disconnected")
                  (update_conn a (with_isConnected false) w) in
      set_audio (removeRemoteStream peerId (audio w1)) w1
    | PeError => emit (OnConnectionStateChange peerId "error") w
    end
  end.

(** The operations of the orchestrator. *)
Inductive op :=
  | Initialize (fails : bool)
  | CreateConnection (peerId : string) (init : bool) (cid : string) (now : Z)
  | HandleSignal (from : string) (sg : json)
  | SendDataChannelMessage (peerId : string) (message : json)
  | BroadcastMuteStatus (isMuted : bool) (now : Z)
  | BroadcastAudioLevel (level : json) (now : Z)
  | CloseConnection (peerId : string)
  | GetConnection (peerId : string)
  | GetAllConnections
  | GetConnectedPeerCount
  | HasActiveConnections
  | CloseAllConnections
  | Cleanup
  | PeerEvent (a : nat) (e : peer_event).

Definition exec (o : op) (w : world) : world * result :=
  match o with
  | Initialize fails => initialize fails w
  | CreateConnection p i c now => createConnection p i c now w
  | HandleSignal from sg => (handleSignal from sg w, RVoid)
  | SendDataChannelMessage p m => (sendDataChannelMessage p m w, RVoid)
  | BroadcastMuteStatus b now => (broadcastMuteStatus b now w, RVoid)
  | BroadcastAudioLevel l now => (broadcastAudioLevel l now w, RVoid)
  | CloseConnection p => (closeConnection p w, RVoid)
  | GetConnection p => (w, RConnection (getConnection p w))
  | GetAllConnections => let '(w', r) := getAllConnections w in (w', RMap r)
  | GetConnectedPeerCount => (w, RNumber (getConnectedPeerCount w))
  | HasActiveConnections => (w, RBoolean (hasActiveConnections w))
  | CloseAllConnections => (closeAllConnections w, RVoid)
  | Cleanup => (cleanup w, RVoid)
  | PeerEvent a e => (on_peer_event a e w, RVoid)
  end.

Fixpoint exec_all (os : list op) (w : world) : world * list result :=
  match os with
  | [] => (w, [])
  | o :: os' =>
    let '(w1, r) := exec o w in
    let '(w2, rs) := exec_all os' w1 in
    (w2, r :: rs)
  end.

(** What application code can do to a [Map] it holds. *)
Inductive mutation :=
  | MapSet (k : string) (v : nat)
  | MapDelete (k : string)
  | MapClear.

Definition mutate (r : nat) (w : world) (m : mutation) : world :=
  match maps w !! r with
  | None => w
  | Some entries =>
    set_maps (<[r := match m with
                     | MapSet k v => map_set k v entries
                     | MapDelete k => map_delete k entries
                     | MapClear => []
                     end]> (maps w)) w
  end.

(** Addresses are handed out in increasing order, the private map first. *)
Definition wf (w : world) : Prop := connections w < next w.

(** Two worlds the manager cannot tell apart: they differ at most in maps
    other than the private one. *)
Definition agree (w1 w2 : world) : Prop :=
  conns w1 = conns w2 ∧ next w1 = next w2 ∧
  connections w1 = connections w2 ∧ isInitialized w1 = isInitialized w2 ∧
  audio w1 = audio w2 ∧ emitted w1 = emitted w2 ∧
  maps w1 !! connections w1 = maps w2 !! connections w2.

(** ** A sample session: B is connected and streaming *)

Definition with_peer_B : world :=
  (exec_all [Initialize false; CreateConnection "B" true "call-1" 1700;
             PeerEvent 1 PeConnect; PeerEvent 1 (PeStream 7)]
            (new_world (Some 3))).1.

(** ** More of [AudioManager] *)

(** [getRemoteStream(peerId)] *)
Definition getRemoteStream (peerId : string) (a : AudioManager) : option nat :=
  map_get peerId (remoteStreams a).

(** [stopAllStreams()]: the local stream is stopped and dropped, then every
    remote stream is stopped, in insertion order, and the map is cleared. *)
Definition stopAllStreams (a : AudioManager) : AudioManager :=
  {| audio_isInitialized := audio_isInitialized a; localStream := None;
     remoteStreams := [];
     stopped := stopped a ++ option_list (localStream a) ++
                (remoteStreams a).*2 |}.

(** [AudioManager.cleanup()] *)
Definition audio_cleanup (a : AudioManager) : AudioManager :=
  let a1 := stopAllStreams a in
  {| audio_isInitialized := false; localStream := localStream a1;
     remoteStreams := remoteStreams a1; stopped := stopped a1 |}.

(** ** Predicates of the further properties *)

(** The records the private map refers to: the private map was allocated,
    every key has one record, stored at an address of its own that the
    allocator has handed out, and the record's [id] is the key. *)
Definition conn_inv (w : world) : Prop :=
  connections w < next w ∧
  NoDup (internal w).*1 ∧ NoDup (internal w).*2 ∧
  (∀ k a, (k, a) ∈ internal w → ∃ c, conns w !! a = Some c ∧ id c = k) ∧
  (∀ a, is_Some (conns w !! a) → a < next w).

(** One turn of the loop of [closeAllConnections], and of the broadcast
    helpers. *)
Definition close_one (w : world) (e : string * nat) : world :=
  let w' := update_conn e.2 (with_peer destroy) w in
  set_audio (removeRemoteStream e.1 (audio w')) w'.

Definition send_one (m : json) (w : world) (e : string * nat) : world :=
  match conns w !! e.2 with
  | Some c => if isConnected c then sendDataChannelMessage e.1 m w else w
  | None => w
  end.

(** A run of peer events, each with the address of the record it is for. *)
Definition peer_events (evs : list (nat * peer_event)) (w : world) : world :=
  foldl (λ w ae, on_peer_event ae.1 ae.2 w) w evs.

(** B and C are connected, D is still negotiating. *)
Definition three_peers : world :=
  (exec_all [Initialize false;
             CreateConnection "B" true "call-1" 1700;
             CreateConnection "C" false "call-1" 1701;
             CreateConnection "D" true "call-1" 1702;
             PeerEvent 1 PeConnect; PeerEvent 2 PeConnect;
             PeerEvent 1 (PeStream 7)]
            (new_world (Some 3))).1.

End Orchestrator.

(* ===================================================================== *)
(** * Muting the microphone ([AudioManager.toggleMute], [isMuted])         *)
(* ===================================================================== *)

Module LocalAudio.

(** The local stream as [toggleMute] and [isMuted] see it: the [enabled]
    flags of its audio tracks, [None] when there is no local stream.
    [audioTracks[0]?.enabled] is [undefined] for a stream without audio
    tracks, and [!undefined] is [true]. *)
Definition first_enabled (audioTracks : list bool) : bool :=
  default false (head audioTracks).

(** [AudioManager.toggleMute()]: the tracks afterwards, and the value
    returned. *)
Definition toggleMute (ls : option (list bool)) : option (list bool) * bool :=
  match ls with
  | None => (None, false)
  | Some audioTracks =>
    let newMutedState := negb (first_enabled audioTracks) in
    (Some (map (λ _, negb newMutedState) audioTracks), newMutedState)
  end.

(** [AudioManager.isMuted()] *)
Definition isMuted (ls : option (list bool)) : bool :=
  match ls with
  | None => true
  | Some audioTracks =>
    Nat.eqb (length audioTracks) 0 || negb (first_enabled audioTracks)
  end.

End LocalAudio.

(* ===================================================================== *)
(** * The room page (component [Room])                                     *)
(* ===================================================================== *)

(** The page owns a [SignalingClient] and a [WebRTCManager] and connects
    them: the callbacks of the client drive the manager and the roster shown
    on the page, the callbacks of the manager drive the client and the
    roster. *)

Module Room.

(** [interface Participant] of the page. *)
Record participant := Participant {
  p_id : string;
  p_nickname : string;
  p_isMuted : bool;
  p_isConnected : bool
}.

(** The state of the page that the handlers read or write.
    [webrtcManagerRef] and [signalingClientRef] tell whether the reference
    is set; [manager] is the manager object with the [audioManager]
    singleton it was constructed with; [tracks] are the [enabled] flags of
    the audio tracks of the local stream; [signals] are the calls of
    [sendSignal] made so far. *)
Record room := Room {
  roomId : option string;
  nickname : string;
  myParticipantId : string;
  isMuted : bool;
  participants : list participant;
  webrtcManagerRef : bool;
  signalingClientRef : bool;
  manager : Orchestrator.world;
  tracks : option (list bool);
  signals : list (string * json)
}.

Definition setMyParticipantId (x : string) (r : room) : room :=
  {| roomId := roomId r; nickname := nickname r; myParticipantId := x;
     isMuted := isMuted r; participants := participants r;
     webrtcManagerRef := webrtcManagerRef r;
     signalingClientRef := signalingClientRef r; manager := manager r;
     tracks := tracks r; signals := signals r |}.

Definition setIsMuted (b : bool) (r : room) : room :=
  {| roomId := roomId r; nickname := nickname r;
     myParticipantId := myParticipantId r;
     isMuted := b; participants := participants r;
     webrtcManagerRef := webrtcManagerRef r;
     signalingClientRef := signalingClientRef r; manager := manager r;
     tracks := tracks r; signals := signals r |}.

(** [setParticipants(updater)] *)
Definition setParticipants (f : list participant → list participant)
    (r : room) : room :=
  {| roomId := roomId r; nickname := nickname r;
     myParticipantId := myParticipantId r;
     isMuted := isMuted r; participants := f (participants r);
     webrtcManagerRef := webrtcManagerRef r;
     signalingClientRef := signalingClientRef r; manager := manager r;
     tracks := tracks r; signals := signals r |}.

Definition set_manager (w : Orchestrator.world) (r : room) : room :=
  {| roomId := roomId r; nickname := nickname r;
     myParticipantId := myParticipantId r;
     isMuted := isMuted r; participants := participants r;
     webrtcManagerRef := webrtcManagerRef r;
     signalingClientRef := signalingClientRef r; manager := w;
     tracks := tracks r; signals := signals r |}.

Definition set_tracks (t : option (list bool)) (r : room) : room :=
  {| roomId := roomId r; nickname := nickname r;
     myParticipantId := myParticipantId r;
     isMuted := isMuted r; participants := participants r;
     webrtcManagerRef := webrtcManagerRef r;
     signalingClientRef := signalingClientRef r; manager := manager r;
     tracks := t; signals := signals r |}.

Definition call_sendSignal (to : string) (sg : json) (r : room) : room :=
  {| roomId := roomId r; nickname := nickname r;
     myParticipantId := myParticipantId r;
     isMuted := isMuted r; participants := participants r;
     webrtcManagerRef := webrtcManagerRef r;
     signalingClientRef := signalingClientRef r; manager := manager r;
     tracks := tracks r; signals := signals r ++ [(to, sg)] |}.

(** ** The updaters passed to [setParticipants] *)

(** [prev.some(p => p.id === x)], [prev.find(p => p.id === x)] *)
Definition has_id (x : string) (prev : list participant) : bool :=
  bool_decide (x ∈ p_id <$> prev).

Definition add_self (nick : string) (prev : list participant)
    : list participant :=
  if has_id "self" prev then prev
  else prev ++ [{| p_id := "self"; p_nickname := nick; p_isMuted := false;
                   p_isConnected := true |}].

Definition add_participant (pid nick : string) (prev : list participant)
    : list participant :=
  if has_id pid prev then prev
  else prev ++ [{| p_id := pid; p_nickname := nick; p_isMuted := false;
                   p_isConnected := false |}].

Definition remove_participant (pid : string) (prev : list participant)
    : list participant :=
  filter (λ p, p_id p ≠ pid) prev.

Definition set_connection_state (peerId state : string)
    (prev : list participant) : list participant :=
  map (λ p, if decide (p_id p = peerId)
            then {| p_id := p_id p; p_nickname := p_nickname p;
                    p_isMuted := p_isMuted p;
                    p_isConnected := bool_decide (state = "connected") |}
            else p) prev.

Definition set_self_muted (newMutedState : bool) (prev : list participant)
    : list participant :=
  map (λ p, if decide (p_id p = "self")
            then {| p_id := p_id p; p_nickname := p_nickname p;
                    p_isMuted := newMutedState;
                    p_isConnected := p_isConnected p |}
            else p) prev.

(** ** The handlers registered on the signaling client *)

(** [webrtcManagerRef.current.createConnection(peerId, isInitiator,
    roomId || '')] under its guard.  The promise is dropped: when the call
    throws nothing else happens.  [at_] is the [new Date()] of the record. *)
Definition create (peerId : string) (init : bool) (at_ : Z) (r : room) : room :=
  if webrtcManagerRef r
  then set_manager
         (Orchestrator.createConnection peerId init (or_default (roomId r) "")
            at_ (manager r)).1 r
  else r.

(** The body of the [forEach] of [onExistingParticipants]; [now k] is the
    date of the [k]-th record created. *)
Fixpoint add_existing (now : nat → Z) (k : nat) (ps : list (string * string))
    (r : room) : room :=
  match ps with
  | [] => r
  | (pid, nick) :: ps' =>
    add_existing now (S k) ps'
      (create pid false (now k) (setParticipants (add_participant pid nick) r))
  end.

(** The handler of each callback of the client.  No handler is registered
    for [room-left]; those of [connected], [disconnected] and [error] only
    report.  Reading [signal.type] of a signal that is [null] or absent
    throws, which the [onmessage] listener of the client catches. *)
Definition on_signaling (now : nat → Z) (cb : Session.callback) (r : room)
    : room :=
  match cb with
  | Session.CbRoomJoined _ participantId =>
    setParticipants (add_self (nickname r)) (setMyParticipantId participantId r)
  | Session.CbParticipantJoined pid nick =>
    create pid true (now 0) (setParticipants (add_participant pid nick) r)
  | Session.CbParticipantLeft pid =>
    let r1 := setParticipants (remove_participant pid) r in
    if webrtcManagerRef r1
    then set_manager (Orchestrator.closeConnection pid (manager r1)) r1
    else r1
  | Session.CbExistingParticipants ps => add_existing now 0 ps r
  | Session.CbSignalReceived from sg =>
    if webrtcManagerRef r then
      match sg with
      | None | Some JNull => r
      | Some v => set_manager (Orchestrator.handleSignal from v (manager r)) r
      end
    else r
  | _ => r
  end.

(** A message of the directory arrives on socket [t] of the client of the
    page: the client dispatches it and the handlers of the page run for the
    callbacks it invokes. *)
Definition receive (now : nat → Z) (t : nat) (m : Directory.server_msg)
    (c : Session.client) (r : room) : Session.client * room :=
  let c' := Session.step c (Session.EvMessage t (Some m)) in
  (c', foldl (λ r cb, on_signaling now cb r) r
         (drop (length (Session.callbacks c)) (Session.callbacks c'))).

(** ** The callbacks given to the manager *)

(** [handleSignalData], [handleStreamReceived] and
    [handleConnectionStateChange]. *)
Definition on_manager_event (r : room) (e : Orchestrator.app_event) : room :=
  match e with
  | Orchestrator.OnSignal to sg _ =>
    if signalingClientRef r && truthy (Some to)
    then call_sendSignal to sg r else r
  | Orchestrator.OnStreamReceived peerId s =>
    set_manager
      (Orchestrator.set_audio
         (Orchestrator.addRemoteStream peerId s
            (Orchestrator.audio (manager r))) (manager r)) r
  | Orchestrator.OnConnectionStateChange peerId state =>
    setParticipants (set_connection_state peerId state) r
  end.

(** An event of the peer of the record at address [a]: the listener of the
    manager runs, and with it the callbacks of the page it invokes.  (The
    ['close'] listener invokes its callback before it removes the remote
    stream; that callback touches the roster only.) *)
Definition on_peer (a : nat) (e : Orchestrator.peer_event) (r : room) : room :=
  let w' := Orchestrator.on_peer_event a e (manager r) in
  foldl on_manager_event (set_manager w' r)
    (drop (length (Orchestrator.emitted (manager r)))
          (Orchestrator.emitted w')).

(** ** The mute button *)

(** [toggleMute()]; [now] is the [Date.now()] of the broadcast. *)
Definition toggleMute (now : Z) (r : room) : room :=
  let r1 := set_tracks (LocalAudio.toggleMute (tracks r)).1 r in
  let newMutedState := negb (isMuted r1) in
  let r2 := setIsMuted newMutedState r1 in
  let r3 :=
    if webrtcManagerRef r2
    then set_manager
           (Orchestrator.broadcastMuteStatus newMutedState now (manager r2)) r2
    else r2 in
  setParticipants (set_self_muted newMutedState) r3.

(** ** The page as a whole *)

Inductive event :=
  | Signaling (now : nat → Z) (cb : Session.callback)
  | Peer (a : nat) (e : Orchestrator.peer_event)
  | ToggleMute (now : Z).

Definition step (r : room) (e : event) : room :=
  match e with
  | Signaling now cb => on_signaling now cb r
  | Peer a e => on_peer a e r
  | ToggleMute now => toggleMute now r
  end.

Definition run (r : room) (evs : list event) : room := foldl step r evs.

(** The page as first rendered, with a manager just constructed around an
    audio manager that holds the microphone stream [mic], if any. *)
Definition new_room (rid : option string) (nick : string) (ready : bool)
    (signaling : bool) (mic : option nat) (audioTracks : option (list bool))
    : room :=
  {| roomId := rid; nickname := nick; myParticipantId := "";
     isMuted := false; participants := [];
     webrtcManagerRef := ready; signalingClientRef := signaling;
     manager := Orchestrator.new_world mic;
     tracks := audioTracks; signals := [] |}.

(** The messages of [out] written to socket [w]. *)
Definition delivered (w : string)
    (out : list (string * Directory.server_msg))
    : list Directory.server_msg :=
  (filter (λ x, x.1 = w) out).*2.

(** The messages arrive one after the other; [now i] is the clock of the
    handler of the [i]-th. *)
Fixpoint receive_all (now : nat → nat → Z) (i t : nat)
    (ms : list Directory.server_msg) (c : Session.client) (r : room)
    : Session.client * room :=
  match ms with
  | [] => (c, r)
  | m :: ms' =>
    let '(c', r') := receive (now i) t m c r in
    receive_all now (S i) t ms' c' r'
  end.

(** The role of the page in its connection to a peer: [isInitiator] of the
    record its manager holds for that peer. *)
Definition role (peerId : string) (r : room) : option bool :=
  Orchestrator.getConnection peerId (manager r) ≫=
    λ a, Orchestrator.isInitiator <$> Orchestrator.conns (manager r) !! a.

(** A page that can take part in a call: socket [t] of its client is open,
    its manager is referred to and initialized, and the audio manager holds
    the microphone stream. *)
Definition page_ready (t : nat) (c : Session.client) (r : room) : Prop :=
  Session.state_of t c = Some OPEN ∧ webrtcManagerRef r = true ∧
  Orchestrator.isInitialized (manager r) = true ∧
  is_Some (Orchestrator.localStream (Orchestrator.audio (manager r))).

(** The roster has one entry per id, it shows every peer the manager holds
    a record for, and a manager that is not referred to holds none. *)
Definition roster_inv (r : room) : Prop :=
  NoDup (p_id <$> participants r) ∧
  (∀ k a, (k, a) ∈ Orchestrator.internal (manager r) →
          k ∈ p_id <$> participants r) ∧
  (webrtcManagerRef r = false → Orchestrator.internal (manager r) = []).

(** ** Sample pages *)

(** A page in room "r1" whose manager is initialized and holds microphone
    stream 3, with one enabled audio track. *)
Definition ready_room : room :=
  set_manager
    (Orchestrator.initialize false (Orchestrator.new_world (Some 3))).1
    (new_room (Some "r1") "User" true true (Some 3) (Some [true])).

(** Such a page after it created its connection to [peerId]. *)
Definition calling_room (peerId : string) (init : bool) : room :=
  create peerId init 1700 ready_room.

(** A client whose first socket is open. *)
Definition open_client : Session.client :=
  Session.run Session.new_client [Session.EvConnect false; Session.EvOpen 0].

End Room.

(* ===================================================================== *)
(** * Properties of [Directory] *)
(* ===================================================================== *)

Module DirectoryProofs.
Import Directory.

(** ** Frame lemmas: sending and logging leave the directory maps alone *)

Lemma sendMessage_rooms w m s : rooms (sendMessage w m s) = rooms s.
Proof. unfold sendMessage. by destruct (is_open _). Qed.

Lemma sendMessage_participants w m s :
  participants (sendMessage w m s) = participants s.
Proof. unfold sendMessage. by destruct (is_open _). Qed.

Lemma sendMessage_sockets w m s : sockets (sendMessage w m s) = sockets s.
Proof. unfold sendMessage. by destruct (is_open _). Qed.

Lemma sendMessage_console w m s : console (sendMessage w m s) = console s.
Proof. unfold sendMessage. by destruct (is_open _). Qed.

Lemma sendMessage_sent w m s :
  sent (sendMessage w m s) =
  sent s ++ (if is_open (sockets s !! w) then [(w, m)] else []).
Proof.
  unfold sendMessage. destruct (is_open _); simpl; [done|].
  by rewrite app_nil_r.
Qed.

Lemma recipients_ext s1 s2 ex room :
  participants s1 = participants s2 → sockets s1 = sockets s2 →
  recipients s1 ex room = recipients s2 ex room.
Proof.
  intros Hp Hk. unfold recipients.
  apply list_omap_ext, Forall_Forall2_diag, Forall_forall.
  intros q _. unfold recipient. by rewrite Hp, Hk.
Qed.

Lemma broadcast_loop m ex room : ∀ s,
  let s' := foldl (broadcast_one m ex) s room in
  rooms s' = rooms s ∧ participants s' = participants s ∧
  sockets s' = sockets s ∧ console s' = console s ∧
  sent s' = sent s ++ map (λ w, (w, m)) (recipients s ex room).
Proof.
  induction room as [|q room IH]; intros s; simpl.
  - by rewrite app_nil_r.
  - destruct (IH (broadcast_one m ex s q)) as (Hr & Hp & Hk & Hc & Hs).
    assert (Hone : rooms (broadcast_one m ex s q) = rooms s ∧
                   participants (broadcast_one m ex s q) = participants s ∧
                   sockets (broadcast_one m ex s q) = sockets s ∧
                   console (broadcast_one m ex s q) = console s ∧
                   sent (broadcast_one m ex s q) =
                     sent s ++ map (λ w, (w, m)) (option_list (recipient s ex q))).
    { unfold broadcast_one, recipient.
      destruct (bool_decide (ex = Some q)); simpl; [by rewrite app_nil_r|].
      destruct (participants s !! q) as [p|]; simpl; [|by rewrite app_nil_r].
      destruct (is_open (sockets s !! ws p)) eqn:Ho; simpl; [|by rewrite app_nil_r].
      rewrite sendMessage_rooms, sendMessage_participants, sendMessage_sockets,
        sendMessage_console, sendMessage_sent, Ho. done. }
    destruct Hone as (Hr1 & Hp1 & Hk1 & Hc1 & Hs1).
    rewrite Hr, Hp, Hk, Hc, Hs, Hr1, Hp1, Hk1, Hc1, Hs1.
    repeat split; try done.
    rewrite <- app_assoc. f_equal.
    assert (Hrec : recipients (broadcast_one m ex s q) ex room = recipients s ex room).
    { by apply recipients_ext. }
    rewrite Hrec. unfold recipients at 2. simpl.
    destruct (recipient s ex q); simpl; done.
  Qed.

Lemma broadcastToRoom_spec rid m ex s :
  let s' := broadcastToRoom rid m ex s in
  rooms s' = rooms s ∧ participants s' = participants s ∧
  sockets s' = sockets s ∧ console s' = console s ∧
  sent s' = sent s ++
    map (λ w, (w, m)) (recipients s ex (default [] (rooms s !! rid))).
Proof.
  unfold broadcastToRoom. destruct (rooms s !! rid) as [room|]; simpl.
  - apply broadcast_loop.
  - by rewrite app_nil_r.
Qed.

Lemma truthy_Some rid : rid ≠ "" → truthy (Some rid) = true.
Proof.
  intros H. simpl. destruct (String.eqb_spec rid ""); [done|done].
Qed.

Lemma truthy_inv v : truthy v = true → ∃ rid, v = Some rid ∧ rid ≠ "".
Proof.
  destruct v as [rid|]; simpl; [|done].
  destruct (String.eqb_spec rid ""); [done|]. eauto.
Qed.

Lemma inv_room_of s p rec r :
  dir_inv s → participants s !! p = Some rec → roomId rec = Some r →
  r ≠ "" ∧ ∃ room, rooms s !! r = Some room ∧ p ∈ room.
Proof.
  intros I Hp Hr.
  destruct (proj2 (inv_member s I r p)) as (room & Hroom & Hin); [eauto|].
  split; [|eauto]. intros ->. by rewrite (inv_key s I) in Hroom.
Qed.

Lemma set_delete_elem x y room : y ∈ set_delete x room ↔ y ∈ room ∧ y ≠ x.
Proof. unfold set_delete. rewrite list_elem_of_filter. tauto. Qed.

Lemma set_delete_NoDup x room : NoDup room → NoDup (set_delete x room).
Proof. apply NoDup_filter. Qed.

Lemma set_add_elem x y room : y ∈ set_add x room ↔ y ∈ room ∨ y = x.
Proof.
  unfold set_add, set_has. case_bool_decide as H.
  - split; [tauto|]. intros [?| ->]; done.
  - rewrite elem_of_app, list_elem_of_singleton. tauto.
Qed.

Lemma set_add_NoDup x room : NoDup room → NoDup (set_add x room).
Proof.
  intros H. unfold set_add, set_has. case_bool_decide as Hx; [done|].
  apply NoDup_app. repeat split; [done| |apply NoDup_singleton].
  intros y Hy ->%list_elem_of_singleton. done.
Qed.

Lemma set_add_nonempty x room : set_add x room ≠ [].
Proof.
  unfold set_add, set_has. case_bool_decide as Hx.
  - intros ->. by apply not_elem_of_nil in Hx.
  - by destruct room.
Qed.

Lemma set_add_fresh x room : x ∉ room → set_add x room = room ++ [x].
Proof. intros H. unfold set_add, set_has. by rewrite bool_decide_eq_false_2. Qed.

Lemma set_delete_fresh x room : x ∉ room → set_delete x room = room.
Proof.
  intros H. unfold set_delete.
  induction room as [|y room IH]; [done|].
  apply not_elem_of_cons in H as [Hne Hin].
  rewrite filter_cons_True by done. by rewrite IH.
Qed.

(** What [handleLeaveRoom] does to the maps when the participant is in a
    room. *)
Lemma handleLeaveRoom_maps pid p rid room s :
  participants s !! pid = Some p → roomId p = Some rid → rid ≠ "" →
  rooms s !! rid = Some room →
  let s' := handleLeaveRoom pid s in
  rooms s' = (if Nat.eqb (length (set_delete pid room)) 0
              then delete rid (rooms s)
              else <[rid := set_delete pid room]> (rooms s)) ∧
  participants s' =
    <[pid := {| ws := ws p; roomId := None; nickname := nickname p |}]>
      (participants s) ∧
  sockets s' = sockets s.
Proof.
  intros Hp Hr Hne Hroom. unfold handleLeaveRoom.
  rewrite Hp, Hr, (truthy_Some _ Hne), Hroom. cbn [negb].
  rewrite sendMessage_rooms, sendMessage_participants, sendMessage_sockets.
  cbn [rooms participants sockets set_participants log].
  destruct (Nat.eqb (length (set_delete pid room)) 0); cbn.
  - by rewrite delete_insert_eq.
  - destruct (broadcastToRoom_spec rid (ParticipantLeft pid) None
      (set_rooms (<[rid:=set_delete pid room]> (rooms s)) s)) as (-> & -> & -> & _).
    done.
Qed.

Lemma handleLeaveRoom_participants pid p s :
  participants s !! pid = Some p → truthy (roomId p) = true →
  participants (handleLeaveRoom pid s) =
    <[pid := {| ws := ws p; roomId := None; nickname := nickname p |}]>
      (participants s) ∧
  sockets (handleLeaveRoom pid s) = sockets s.
Proof.
  intros Hp Ht. destruct (truthy_inv _ Ht) as (rid & Hr & Hne).
  unfold handleLeaveRoom. rewrite Hp, Ht, Hr. cbn [negb].
  rewrite sendMessage_participants, sendMessage_sockets.
  cbn [participants sockets set_participants log].
  destruct (rooms s !! rid) as [room|]; [|done].
  destruct (Nat.eqb (length (set_delete pid room)) 0); cbn; [done|].
  destruct (broadcastToRoom_spec rid (ParticipantLeft pid) None
      (set_rooms (<[rid:=set_delete pid room]> (rooms s)) s)) as (_ & -> & -> & _).
  done.
Qed.

Lemma broadcastToRoom_rooms rid m ex s :
  rooms (broadcastToRoom rid m ex s) = rooms s.
Proof. apply broadcastToRoom_spec. Qed.

Lemma broadcastToRoom_participants rid m ex s :
  participants (broadcastToRoom rid m ex s) = participants s.
Proof. apply broadcastToRoom_spec. Qed.

Lemma broadcastToRoom_sockets rid m ex s :
  sockets (broadcastToRoom rid m ex s) = sockets s.
Proof. apply broadcastToRoom_spec. Qed.

Lemma log_participants e s : participants (log e s) = participants s.
Proof. done. Qed.

Lemma log_rooms e s : rooms (log e s) = rooms s.
Proof. done. Qed.

Lemma log_sockets e s : sockets (log e s) = sockets s.
Proof. done. Qed.

Lemma log_sent e s : sent (log e s) = sent s.
Proof. done. Qed.

Create Rewrite HintDb dir_frame.
#[local] Hint Rewrite sendMessage_rooms sendMessage_participants
  sendMessage_sockets broadcastToRoom_rooms broadcastToRoom_participants
  broadcastToRoom_sockets log_participants log_rooms log_sockets log_sent
  : dir_frame.

Ltac frame :=
  cbn [rooms participants sockets sent console
       set_rooms set_participants set_sockets log ws_send];
  autorewrite with dir_frame;
  cbn [rooms participants sockets sent console
       set_rooms set_participants set_sockets log ws_send].

(** What [handleJoinRoom] does to the maps, [s1] being the state after the
    implicit leave. *)
Lemma handleJoinRoom_maps pid p0 msg rid s :
  participants s !! pid = Some p0 → m_roomId msg = Some rid → rid ≠ "" →
  let s1 := if truthy (roomId p0) then handleLeaveRoom pid s else s in
  let s' := handleJoinRoom pid msg s in
  rooms s' = <[rid := set_add pid (default [] (rooms s1 !! rid))]> (rooms s1) ∧
  participants s' =
    <[pid := {| ws := ws p0; roomId := Some rid;
                nickname := or_default (m_nickname msg) "Anonymous" |}]>
      (participants s1) ∧
  sockets s' = sockets s1.
Proof.
  intros Hp Hr Hne s1. unfold handleJoinRoom.
  rewrite Hp, Hr, (truthy_Some _ Hne). cbn [negb]. fold s1.
  match goal with |- context [if ?c then _ else _] => destruct c end; frame.
  all: destruct (rooms s1 !! rid) as [room|] eqn:Hroom; frame.
  all: rewrite ?Hroom, ?lookup_insert_eq, ?insert_insert_eq; done.
Qed.

Lemma leave_inv pid s : dir_inv s → dir_inv (handleLeaveRoom pid s).
Proof.
  intros I.
  destruct (participants s !! pid) as [p|] eqn:Hp;
    [|by unfold handleLeaveRoom; rewrite Hp].
  destruct (truthy (roomId p)) eqn:Ht;
    [|by unfold handleLeaveRoom; rewrite Hp, Ht].
  destruct (truthy_inv _ Ht) as (rid & Hr & Hne).
  destruct (inv_room_of s pid p rid I Hp Hr) as (_ & room & Hroom & Hin).
  destruct (handleLeaveRoom_maps pid p rid room s Hp Hr Hne Hroom)
    as (HR & HP & _).
  set (room' := set_delete pid room) in *.
  assert (Hlook : ∀ r, rooms (handleLeaveRoom pid s) !! r =
            if decide (r = rid)
            then (if Nat.eqb (length room') 0 then None else Some room')
            else rooms s !! r).
  { intros r. rewrite HR. destruct (Nat.eqb (length room') 0).
    - rewrite lookup_delete. by repeat case_decide; simplify_eq.
    - rewrite lookup_insert. by repeat case_decide; simplify_eq. }
  assert (Hplook : ∀ q, participants (handleLeaveRoom pid s) !! q =
            if decide (q = pid)
            then Some {| ws := ws p; roomId := None; nickname := nickname p |}
            else participants s !! q).
  { intros q. rewrite HP, lookup_insert. by repeat case_decide; simplify_eq. }
  constructor.
  - intros r x. rewrite Hlook. case_decide as Hd.
    + destruct (Nat.eqb_spec (length room') 0) as [|Hn]; [done|].
      intros [= <-] ->. done.
    + apply (inv_nonempty s I).
  - intros r x. rewrite Hlook. case_decide as Hd.
    + destruct (Nat.eqb (length room') 0); [done|].
      intros [= <-]. apply set_delete_NoDup, (inv_nodup s I rid room Hroom).
    + apply (inv_nodup s I).
  - intros r q. rewrite Hlook, Hplook. split.
    + intros (x & Hx & Hq). case_decide as Hd.
      * subst r. destruct (Nat.eqb (length room') 0); [done|].
        injection Hx as <-. apply set_delete_elem in Hq as [Hq Hqp].
        rewrite decide_False by done.
        apply (inv_member s I rid q). eauto.
      * destruct (proj1 (inv_member s I r q)) as (rec & Hrec & Hrr); [eauto|].
        case_decide as Hq'; [|eauto]. subst q. congruence.
    + intros (rec & Hrec & Hrr). case_decide as Hq'; [by simplify_eq|].
      destruct (proj2 (inv_member s I r q)) as (x & Hx & Hq); [eauto|].
      case_decide as Hd; [|eauto]. subst r.
      assert (x = room) as -> by congruence.
      assert (Hq2 : q ∈ room') by (apply set_delete_elem; done).
      destruct (Nat.eqb_spec (length room') 0) as [Hz|Hn]; [|eauto].
      apply nil_length_inv in Hz. rewrite Hz in Hq2.
      by apply not_elem_of_nil in Hq2.
  - rewrite Hlook. rewrite decide_False by done. apply (inv_key s I).
  - intros q rec. rewrite Hplook. case_decide as Hq'.
    + intros [= <-]. simpl. subst q. apply (inv_ws s I pid p Hp).
    + apply (inv_ws s I).
Qed.

(** After the implicit leave the participant is in no room. *)
Lemma after_leave pid p0 s :
  dir_inv s → participants s !! pid = Some p0 →
  let s1 := if truthy (roomId p0) then handleLeaveRoom pid s else s in
  dir_inv s1 ∧ sockets s1 = sockets s ∧
  ∃ p1, participants s1 !! pid = Some p1 ∧ roomId p1 = None ∧ ws p1 = ws p0 ∧
        ∀ q, q ≠ pid → participants s1 !! q = participants s !! q.
Proof.
  intros I Hp s1. subst s1. destruct (truthy (roomId p0)) eqn:Ht.
  - split; [by apply leave_inv|].
    destruct (handleLeaveRoom_participants pid p0 s Hp Ht) as [-> ->].
    split; [done|]. eexists. rewrite lookup_insert_eq. repeat split; try done.
    intros q Hq. by rewrite lookup_insert_ne.
  - split; [done|]. split; [done|]. exists p0. repeat split; try done.
    destruct (roomId p0) as [r|] eqn:Hr; [|done].
    destruct (inv_room_of s pid p0 r I Hp Hr) as [Hne _].
    by rewrite (truthy_Some _ Hne) in Ht.
Qed.

Lemma join_inv pid msg s : dir_inv s → dir_inv (handleJoinRoom pid msg s).
Proof.
  intros I.
  destruct (participants s !! pid) as [p0|] eqn:Hp;
    [|by unfold handleJoinRoom; rewrite Hp].
  destruct (truthy (m_roomId msg)) eqn:Ht;
    [|by unfold handleJoinRoom; rewrite Hp, Ht].
  destruct (truthy_inv _ Ht) as (rid & Hr & Hne).
  destruct (handleJoinRoom_maps pid p0 msg rid s Hp Hr Hne) as (HR & HP & _).
  destruct (after_leave pid p0 s I Hp) as (I1 & _ & p1 & Hp1 & Hnone & Hws & _).
  set (s1 := if truthy (roomId p0) then handleLeaveRoom pid s else s) in *.
  set (room0 := default [] (rooms s1 !! rid)) in *.
  assert (Hroom0 : ∀ q, q ∈ room0 ↔
            ∃ rec, participants s1 !! q = Some rec ∧ roomId rec = Some rid).
  { intros q. rewrite <- (inv_member s1 I1 rid q). subst room0.
    destruct (rooms s1 !! rid) as [x|]; simpl.
    - split; [eauto|]. by intros (? & [= <-] & ?).
    - split; [by intros ?%not_elem_of_nil|]. by intros (? & ? & ?). }
  constructor.
  - intros r x. rewrite HR, lookup_insert. case_decide as Hd.
    + intros [= <-]. apply set_add_nonempty.
    + apply (inv_nonempty s1 I1).
  - intros r x. rewrite HR, lookup_insert. case_decide as Hd.
    + intros [= <-]. apply set_add_NoDup. subst room0.
      destruct (rooms s1 !! rid) as [y|] eqn:Hy; simpl; [|apply NoDup_nil_2].
      apply (inv_nodup s1 I1 rid y Hy).
    + apply (inv_nodup s1 I1).
  - intros r q. rewrite HR, HP, !lookup_insert. split.
    + intros (x & Hx & Hq). case_decide as Hd.
      * injection Hx as <-. subst r. apply set_add_elem in Hq as [Hq| ->].
        -- apply Hroom0 in Hq as (rec & Hrec & Hrr).
           case_decide as Hq'; [congruence|eauto].
        -- rewrite decide_True by done. eauto.
      * destruct (proj1 (inv_member s1 I1 r q)) as (rec & Hrec & Hrr); [eauto|].
        case_decide as Hq'; [congruence|eauto].
    + intros (rec & Hrec & Hrr). case_decide as Hq'.
      * injection Hrec as <-. simpl in Hrr. injection Hrr as <-.
        rewrite decide_True by done. eexists. split; [done|].
        apply set_add_elem. by right.
      * case_decide as Hd.
        -- subst r. eexists. split; [done|]. apply set_add_elem. left.
           apply Hroom0. eauto.
        -- apply (inv_member s1 I1 r q). eauto.
  - rewrite HR, lookup_insert_ne by done. apply (inv_key s1 I1).
  - intros q rec. rewrite HP, lookup_insert. case_decide as Hq'.
    + intros [= <-]. simpl. subst q. apply (inv_ws s I pid p0 Hp).
    + apply (inv_ws s1 I1).
Qed.

Lemma log_inv e s : dir_inv s → dir_inv (log e s).
Proof. by intros []. Qed.

Lemma sendMessage_inv w m s : dir_inv s → dir_inv (sendMessage w m s).
Proof. intros I. unfold sendMessage. destruct (is_open _); [|done]. by destruct I. Qed.

Lemma set_sockets_inv k s : dir_inv s → dir_inv (set_sockets k s).
Proof. by intros []. Qed.

Lemma signal_inv pid msg s : dir_inv s → dir_inv (handleSignal pid msg s).
Proof.
  intros I. unfold handleSignal.
  destruct (m_to msg ≫= _) as [[to t]|].
  - by apply log_inv, sendMessage_inv.
  - by apply log_inv.
Qed.

Lemma disconnection_inv pid s : dir_inv s → dir_inv (handleDisconnection pid s).
Proof.
  intros I. unfold handleDisconnection.
  set (s1 := match participants s !! pid with
             | Some p => if truthy (roomId p) then handleLeaveRoom pid s else s
             | None => s
             end).
  assert (I1 : dir_inv s1 ∧
     ∀ rec, participants s1 !! pid = Some rec → roomId rec = None).
  { subst s1. destruct (participants s !! pid) as [p|] eqn:Hp.
    - destruct (after_leave pid p s I Hp) as (I1 & _ & p1 & Hp1 & Hn & _).
      split; [done|]. intros rec Hrec. congruence.
    - split; [done|]. congruence. }
  destruct I1 as [I1 Hnone]. constructor; cbn.
  - apply (inv_nonempty s1 I1).
  - apply (inv_nodup s1 I1).
  - intros r q. rewrite (inv_member s1 I1 r q), lookup_delete.
    case_decide as Hq; [|done]. subst q. split.
    + intros (rec & Hrec & Hrr). rewrite (Hnone rec Hrec) in Hrr. done.
    + by intros (? & ? & ?).
  - apply (inv_key s1 I1).
  - intros q rec [_ Hq]%lookup_delete_Some. by apply (inv_ws s1 I1).
Qed.

Lemma connection_inv pid s :
  dir_inv s → participants s !! pid = None → dir_inv (on_connection pid s).
Proof.
  intros I Hfresh. unfold on_connection. apply sendMessage_inv.
  constructor; cbn.
  - apply (inv_nonempty s I).
  - apply (inv_nodup s I).
  - intros r q. rewrite (inv_member s I r q), lookup_insert.
    case_decide as Hq; [|done]. subst q. split.
    + intros (rec & Hrec & _). congruence.
    + by intros (? & [= <-] & ?).
  - apply (inv_key s I).
  - intros q rec. rewrite lookup_insert. case_decide as Hq.
    + by intros [= <-].
    + apply (inv_ws s I).
Qed.

Lemma message_inv pid data s : dir_inv s → dir_inv (on_message pid data s).
Proof.
  intros I. unfold on_message, sendError.
  destruct (JSON_parse data) as [v|]; [|by apply sendMessage_inv, log_inv].
  unfold handleMessage. destruct (participants s !! pid) as [p|]; [|done].
  destruct v as [|msg]; [by apply sendMessage_inv, log_inv|].
  repeat match goal with |- context [if ?c then _ else _] => destruct c end.
  - by apply join_inv, log_inv.
  - by apply leave_inv, log_inv.
  - by apply signal_inv, log_inv.
  - by apply sendMessage_inv, log_inv, log_inv.
Qed.

Lemma step_inv s e :
  dir_inv s →
  match e with EvConnection pid => participants s !! pid = None | _ => True end →
  dir_inv (step s e).
Proof.
  intros I Hf. destruct e as [pid|pid data|pid|pid r]; simpl.
  - by apply connection_inv.
  - by apply message_inv.
  - by apply disconnection_inv, log_inv, set_sockets_inv.
  - destruct (sockets s !! pid); [by apply set_sockets_inv|done].
Qed.

Lemma new_server_inv : dir_inv new_server.
Proof.
  constructor; cbn; try done.
  intros r q. split; intros (? & H & _); by rewrite lookup_empty in H.
Qed.

Lemma run_inv evs : ∀ s, dir_inv s → fresh_ids s evs → dir_inv (run s evs).
Proof.
  induction evs as [|e evs IH]; intros s I Hf; simpl; [done|].
  destruct Hf as [He Hf]. apply IH; [|done]. by apply step_inv.
Qed.

(** ** What a join writes to the sockets *)

Lemma broadcastToRoom_sent rid m ex s :
  sent (broadcastToRoom rid m ex s) =
  sent s ++ map (λ w, (w, m)) (recipients s ex (default [] (rooms s !! rid))).
Proof. apply broadcastToRoom_spec. Qed.

Lemma recipients_members s pid (room : list string) :
  (∀ q, q ∈ room → q ≠ pid ∧ ∃ rec, participants s !! q = Some rec ∧ ws rec = q) →
  recipients s (Some pid) (room ++ [pid]) =
  filter (λ q, is_open (sockets s !! q) = true) room.
Proof.
  intros H. unfold recipients. rewrite omap_app.
  replace (omap (recipient s (Some pid)) [pid]) with (@nil string).
  2:{ cbn. unfold recipient. by rewrite bool_decide_eq_true_2. }
  rewrite app_nil_r.
  induction room as [|q room IH]; [done|].
  destruct (H q) as (Hq & rec & Hrec & Hws); [by left|].
  assert (Hq1 : recipient s (Some pid) q =
                if is_open (sockets s !! q) then Some q else None).
  { unfold recipient. rewrite bool_decide_eq_false_2 by congruence.
    by rewrite Hrec, Hws. }
  change (omap (recipient s (Some pid)) (q :: room)) with
    (match recipient s (Some pid) q with
     | Some y => y :: omap (recipient s (Some pid)) room
     | None => omap (recipient s (Some pid)) room
     end).
  rewrite Hq1, IH by (intros q' Hq'; apply H; by right).
  destruct (is_open (sockets s !! q)) eqn:Ho.
  - by rewrite filter_cons_True.
  - rewrite filter_cons_False; [done|]. by rewrite Ho.
Qed.

Lemma handleJoinRoom_sent pid p0 msg rid s :
  dir_inv s → participants s !! pid = Some p0 →
  m_roomId msg = Some rid → rid ≠ "" →
  let s1 := if truthy (roomId p0) then handleLeaveRoom pid s else s in
  let roster := default [] (rooms s1 !! rid) in
  let nick := or_default (m_nickname msg) "Anonymous" in
  let live q := is_open (sockets s !! q) in
((pid ∉ roster) ∧ NoDup roster) ∧
  sent (handleJoinRoom pid msg s) =
    sent s1 ++
    (if live pid then [(pid, RoomJoined rid pid)] else []) ++
    map (λ q, (q, ParticipantJoined pid nick))
        (filter (λ q, live q = true) roster) ++
    (if live pid && negb (bool_decide (roster = []))
     then [(pid, ExistingParticipants (map (roster_entry s1) roster))]
     else []).
Proof.
  intros I Hp Hr Hne s1 roster nick live.
  destruct (after_leave pid p0 s I Hp) as (I1 & Hk1 & p1 & Hp1 & Hnone & Hws & Hoth).
  fold s1 in I1, Hk1, Hp1, Hoth.
  pose proof (inv_ws s I pid p0 Hp) as Hws0.
  assert (Hmem : ∀ q, q ∈ roster →
            q ≠ pid ∧ ∃ rec, participants s1 !! q = Some rec ∧ ws rec = q).
  { intros q Hq. subst roster.
    destruct (rooms s1 !! rid) as [x|] eqn:Hx; simpl in Hq;
      [|by apply not_elem_of_nil in Hq].
    destruct (proj1 (inv_member s1 I1 rid q)) as (rec & Hrec & Hrr); [eauto|].
    split; [intros ->; congruence|].
    exists rec. split; [done|]. by apply (inv_ws s1 I1). }
  assert (Hnin : pid ∉ roster) by (intros Hin; by destruct (Hmem pid Hin)).
  assert (Hnd : NoDup roster).
  { subst roster. destruct (rooms s1 !! rid) as [x|] eqn:Hx; simpl;
      [by apply (inv_nodup s1 I1 rid x)|apply NoDup_nil_2]. }
  split; [done|].
  unfold handleJoinRoom. rewrite Hp, Hr, (truthy_Some _ Hne). cbn [negb].
  fold s1.
  assert (Hroom' : set_add pid roster = roster ++ [pid]) by by apply set_add_fresh.
  assert (Hs2 : default [] (rooms (match rooms s1 !! rid with
                | None => set_rooms (<[rid := []]> (rooms s1)) s1
                | Some _ => s1
                end) !! rid) = roster).
  { subst roster. destruct (rooms s1 !! rid) as [x|] eqn:Hx; cbn.
    - by rewrite Hx.
    - by rewrite lookup_insert_eq. }
  rewrite Hs2, Hroom'.
  set (s2 := match rooms s1 !! rid with
             | Some _ => s1
             | None => set_rooms (<[rid := []]> (rooms s1)) s1
             end).
  assert (Hs2f : participants s2 = participants s1 ∧ sockets s2 = sockets s1 ∧
                 sent s2 = sent s1).
  { subst s2. by destruct (rooms s1 !! rid). }
  destruct Hs2f as (Hp2 & Hk2 & Hsent2).
  set (s3 := set_participants _ s2).
  set (s4 := set_rooms _ s3).
  set (s5 := log _ s4).
  set (s6 := sendMessage _ _ s5).
  set (s7 := broadcastToRoom _ _ _ s6).
  assert (Hp4 : ∀ q, q ≠ pid → participants s4 !! q = participants s1 !! q).
  { intros q Hq. subst s4 s3. cbn. by rewrite lookup_insert_ne, Hp2. }
  assert (Hk4 : sockets s4 = sockets s) by (subst s4 s3; cbn; congruence).
  assert (Hsent6 : sent s6 = sent s1 ++
            (if live pid then [(pid, RoomJoined rid pid)] else [])).
  { subst s6. rewrite sendMessage_sent. subst s5. cbn.
    by rewrite Hsent2, Hk2, Hk1, Hws0. }
  assert (Hsent7 : sent s7 = sent s6 ++
            map (λ q, (q, ParticipantJoined pid nick))
                (filter (λ q, live q = true) roster)).
  { subst s7. rewrite broadcastToRoom_sent. f_equal. f_equal.
    replace (rooms s6) with (rooms s4) by (subst s6; by rewrite sendMessage_rooms).
    rewrite (recipients_ext s6 s4) by (subst s6; by frame).
    replace (rooms s4 !! rid) with (Some (roster ++ [pid]))
      by (subst s4; cbn; by rewrite lookup_insert_eq).
    cbn [default id]. rewrite recipients_members.
    - subst live. cbn beta. by rewrite Hk4.
    - intros q Hq. destruct (Hmem q Hq) as (Hqp & rec & Hrec & Hwr).
      split; [done|]. exists rec. by rewrite Hp4. }
  assert (Hex : existing_of s7 pid (roster ++ [pid]) = map (roster_entry s1) roster).
  { unfold existing_of. rewrite filter_app.
    rewrite (filter_cons_False _ pid) by (intros H; by apply H).
    rewrite filter_nil, app_nil_r.
    replace (filter (λ id, id ≠ pid) roster) with roster.
    2:{ symmetry. by apply (set_delete_fresh pid roster). }
    apply map_ext_in. intros q Hq%list_elem_of_In. unfold roster_entry.
    destruct (Hmem q Hq) as (Hqp & _).
    replace (participants s7) with (participants s4)
      by (subst s7 s6; by frame).
    by rewrite Hp4. }
  rewrite Hex, length_map.
  destruct roster as [|q0 roster0] eqn:Hroster.
  - cbn [length Nat.ltb Nat.leb]. rewrite Hsent7, Hsent6, andb_false_r.
    cbn. by rewrite !app_nil_r.
  - cbn [length Nat.ltb Nat.leb]. rewrite sendMessage_sent.
    replace (sockets s7) with (sockets s) by (subst s7 s6; frame; done).
    rewrite Hsent7, Hsent6, Hws0, <- !app_assoc. subst live. cbn beta.
    rewrite bool_decide_eq_false_2 by done. by rewrite andb_true_r.
Qed.

(** ** Dispatch of well-typed messages *)

Lemma type_is_true msg c : m_type msg = Some c → type_is msg c = true.
Proof. intros H. unfold type_is. by rewrite bool_decide_eq_true_2. Qed.

Lemma type_is_false msg c c' :
  m_type msg = Some c → c ≠ c' → type_is msg c' = false.
Proof. intros H Hne. unfold type_is. rewrite bool_decide_eq_false_2; congruence. Qed.

Lemma on_message_join pid p msg s :
  participants s !! pid = Some p → m_type msg = Some "join-room" →
  on_message pid (Parses (PObject msg)) s =
  handleJoinRoom pid msg (log (LMessageFrom pid (m_type msg)) s).
Proof.
  intros Hp Ht. unfold on_message, handleMessage. cbn [JSON_parse].
  by rewrite Hp, (type_is_true _ _ Ht).
Qed.

Lemma on_message_leave pid p msg s :
  participants s !! pid = Some p → m_type msg = Some "leave-room" →
  on_message pid (Parses (PObject msg)) s =
  handleLeaveRoom pid (log (LMessageFrom pid (m_type msg)) s).
Proof.
  intros Hp Ht. unfold on_message, handleMessage. cbn [JSON_parse].
  rewrite Hp, (type_is_false _ _ "join-room" Ht) by done.
  by rewrite (type_is_true _ _ Ht).
Qed.

Lemma on_message_signal pid p msg s :
  participants s !! pid = Some p → m_type msg = Some "signal" →
  on_message pid (Parses (PObject msg)) s =
  handleSignal pid msg (log (LMessageFrom pid (m_type msg)) s).
Proof.
  intros Hp Ht. unfold on_message, handleMessage. cbn [JSON_parse].
  rewrite Hp, (type_is_false _ _ "join-room" Ht) by done.
  rewrite (type_is_false _ _ "leave-room" Ht) by done.
  by rewrite (type_is_true _ _ Ht).
Qed.

Lemma on_message_unknown pid p msg s :
  participants s !! pid = Some p → unknown_type msg →
  on_message pid (Parses (PObject msg)) s =
  sendError (ws p)
    (String.append "Unknown message type: " (default "undefined" (m_type msg)))
    (log (LUnknownType (m_type msg)) (log (LMessageFrom pid (m_type msg)) s)).
Proof.
  intros Hp (H1 & H2 & H3). unfold on_message, handleMessage, type_is.
  cbn [JSON_parse]. rewrite Hp.
  by rewrite !bool_decide_eq_false_2 by done.
Qed.

Lemma handleLeaveRoom_sockets pid s : sockets (handleLeaveRoom pid s) = sockets s.
Proof.
  destruct (participants s !! pid) as [p|] eqn:Hp;
    [|by unfold handleLeaveRoom; rewrite Hp].
  destruct (truthy (roomId p)) eqn:Ht;
    [|by unfold handleLeaveRoom; rewrite Hp, Ht].
  apply (handleLeaveRoom_participants pid p s Hp Ht).
Qed.

Lemma handleLeaveRoom_registered pid q s :
  is_Some (participants s !! q) → is_Some (participants (handleLeaveRoom pid s) !! q).
Proof.
  intros Hq.
  destruct (participants s !! pid) as [p|] eqn:Hp;
    [|by unfold handleLeaveRoom; rewrite Hp].
  destruct (truthy (roomId p)) eqn:Ht;
    [|by unfold handleLeaveRoom; rewrite Hp, Ht].
  destruct (handleLeaveRoom_participants pid p s Hp Ht) as [-> _].
  rewrite lookup_insert. by case_decide.
Qed.

Lemma handleJoinRoom_frame pid msg q s :
  sockets (handleJoinRoom pid msg s) = sockets s ∧
  (is_Some (participants s !! q) →
   is_Some (participants (handleJoinRoom pid msg s) !! q)).
Proof.
  destruct (participants s !! pid) as [p0|] eqn:Hp;
    [|by unfold handleJoinRoom; rewrite Hp].
  destruct (truthy (m_roomId msg)) eqn:Ht;
    [|by unfold handleJoinRoom; rewrite Hp, Ht].
  destruct (truthy_inv _ Ht) as (rid & Hr & Hne).
  destruct (handleJoinRoom_maps pid p0 msg rid s Hp Hr Hne) as (_ & -> & ->).
  split.
  - destruct (truthy (roomId p0)); [apply handleLeaveRoom_sockets|done].
  - intros Hq. rewrite lookup_insert. case_decide; [done|].
    destruct (truthy (roomId p0)); [by apply handleLeaveRoom_registered|done].
Qed.

Lemma handleSignal_frame pid msg s :
  rooms (handleSignal pid msg s) = rooms s ∧
  participants (handleSignal pid msg s) = participants s ∧
  sockets (handleSignal pid msg s) = sockets s.
Proof.
  unfold handleSignal. destruct (m_to msg ≫= _) as [[to t]|]; [|done].
  by frame.
Qed.

Lemma count_notices q pid nick (l : list string) :
  NoDup l →
  length (filter (λ x, is_joined_notice q pid x = true)
            (map (λ w, (w, ParticipantJoined pid nick)) l)) =
  if bool_decide (q ∈ l) then 1 else 0.
Proof.
  induction 1 as [|w l Hw Hnd IH]; [done|].
  cbn [map]. destruct (decide (w = q)) as [->|Hne].
  - rewrite filter_cons_True
      by (cbn; by rewrite !bool_decide_eq_true_2).
    cbn [length]. rewrite IH, (bool_decide_eq_false_2 _ Hw).
    rewrite bool_decide_eq_true_2 by by left. done.
  - rewrite filter_cons_False.
    2:{ cbn. rewrite (bool_decide_eq_false_2 (w = q)) by done. done. }
    rewrite IH.
    assert (Hb : bool_decide (q ∈ l) = bool_decide (q ∈ w :: l)).
    { apply bool_decide_ext. rewrite elem_of_cons.
      split; [tauto|]. intros [->|]; done. }
    by rewrite Hb.
Qed.

Lemma handleDisconnection_rooms pid p s :
  participants s !! pid = Some p → truthy (roomId p) = true →
  rooms (handleDisconnection pid s) = rooms (handleLeaveRoom pid s).
Proof. intros Hp Ht. unfold handleDisconnection. by rewrite Hp, Ht. Qed.

(** C1.  Room membership invariant: after any sequence of connection,
    message (join-room, leave-room, signal, malformed), close and transport
    events, every room in the [rooms] map has a non-empty, duplicate-free
    member set; that set is exactly the set of registered participants whose
    [roomId] is the room's id; a participant whose [roomId] names a room is
    in that room's set; and when the only member of a room leaves or
    disconnects the room is gone from the map in the very next state. *)
Theorem room_membership_invariant evs :
  fresh_ids new_server evs →
  let s := run new_server evs in
  (∀ r room, rooms s !! r = Some room →
     room ≠ [] ∧ NoDup room ∧
     ∀ p, p ∈ room ↔ ∃ rec, participants s !! p = Some rec ∧ roomId rec = Some r) ∧
  (∀ p rec r, participants s !! p = Some rec → roomId rec = Some r →
     ∃ room, rooms s !! r = Some room ∧ p ∈ room) ∧
  (∀ p r, rooms s !! r = Some [p] →
     rooms (step s (says p leave_room)) !! r = None ∧
     rooms (step s (EvClose p)) !! r = None).
Proof.
  intros Hf s. pose proof (run_inv evs new_server new_server_inv Hf) as I.
  fold s in I. split; [|split].
  - intros r room Hroom. split; [by apply (inv_nonempty s I r)|].
    split; [by apply (inv_nodup s I r)|].
    intros p. rewrite <- (inv_member s I r p). split; [eauto|].
    intros (x & Hx & Hp). congruence.
  - intros p rec r Hp Hr. apply (inv_member s I r p). eauto.
  - intros p r Hroom.
    destruct (proj1 (inv_member s I r p)) as (rec & Hrec & Hrr).
    { exists [p]. split; [done|]. by left. }
    destruct (inv_room_of s p rec r I Hrec Hrr) as [Hne _].
    assert (Hdel : set_delete p [p] = []).
    { unfold set_delete. by rewrite filter_cons_False, filter_nil by (intros H; by apply H). }
    split.
    + cbn [step says]. rewrite (on_message_leave p rec) by done.
      destruct (handleLeaveRoom_maps p rec r [p]
                  (log (LMessageFrom p (m_type leave_room)) s)) as (-> & _);
        try done.
      rewrite Hdel. cbn. by rewrite lookup_delete_eq.
    + set (s0 := log (LConnectionClosed p)
                   (set_sockets (<[p:=CLOSED]> (sockets s)) s)).
      change (step s (EvClose p)) with (handleDisconnection p s0).
      assert (Hrec0 : participants s0 !! p = Some rec) by done.
      rewrite (handleDisconnection_rooms p rec s0 Hrec0)
        by (rewrite Hrr; by apply truthy_Some).
      destruct (handleLeaveRoom_maps p rec r [p] s0) as (-> & _); try done.
      rewrite Hdel. cbn. by rewrite lookup_delete_eq.
Qed.

Lemma room_membership_invariant_witness :
  fresh_ids new_server two_in_room ∧
  rooms (run new_server two_in_room) !! "r1" = Some ["P1"; "P2"] ∧
  ["P1"; "P2"] ≠ [] ∧ NoDup ["P1"; "P2"].
Proof.
  assert (Hf : fresh_ids new_server two_in_room)
    by (cbn; repeat split; reflexivity).
  split; [exact Hf|].
  assert (Hr : rooms (run new_server two_in_room) !! "r1" = Some ["P1"; "P2"])
    by reflexivity.
  split; [exact Hr|].
  destruct (room_membership_invariant two_in_room Hf) as (H & _).
  destruct (H "r1" ["P1"; "P2"] Hr) as (Hne & Hnd & _).
  exact (conj Hne Hnd).
Defined.









(** C8.  Leave outside a room: for a participant whose [roomId] is [null],
    [handleLeaveRoom] returns the state it was given (no map changes, nothing
    written, nothing logged); a [leave-room] message from such a participant
    changes no map and writes to no socket; and for every state, leaving
    twice is the same as leaving once. *)
Theorem leave_noop_outside_room :
  (∀ s pid p, participants s !! pid = Some p → roomId p = None →
     handleLeaveRoom pid s = s) ∧
  (∀ s pid p msg, participants s !! pid = Some p → roomId p = None →
     m_type msg = Some "leave-room" →
     let s' := on_message pid (Parses (PObject msg)) s in
     rooms s' = rooms s ∧ participants s' = participants s ∧
     sockets s' = sockets s ∧ sent s' = sent s) ∧
  (∀ s pid, handleLeaveRoom pid (handleLeaveRoom pid s) = handleLeaveRoom pid s).
Proof.
  assert (Hnoop : ∀ s pid p, participants s !! pid = Some p → roomId p = None →
            handleLeaveRoom pid s = s).
  { intros s pid p Hp Hr. unfold handleLeaveRoom. by rewrite Hp, Hr. }
  split; [exact Hnoop|]. split.
  - intros s pid p msg Hp Hr Ht s'. subst s'.
    rewrite (on_message_leave pid p msg s Hp Ht).
    by rewrite (Hnoop (log (LMessageFrom pid (m_type msg)) s) pid p).
  - intros s pid.
    destruct (participants s !! pid) as [p|] eqn:Hp.
    2:{ assert (H : handleLeaveRoom pid s = s)
          by (unfold handleLeaveRoom; by rewrite Hp).
        by rewrite !H. }
    destruct (truthy (roomId p)) eqn:Ht.
    2:{ assert (H : handleLeaveRoom pid s = s)
          by (unfold handleLeaveRoom; by rewrite Hp, Ht).
        by rewrite !H. }
    destruct (handleLeaveRoom_participants pid p s Hp Ht) as [HP _].
    apply (Hnoop _ pid {| ws := ws p; roomId := None; nickname := nickname p |});
      [|done].
    rewrite HP. apply lookup_insert_eq.
Qed.

Lemma leave_noop_outside_room_witness :
  let s := run new_server [EvConnection "P1"] in
  handleLeaveRoom "P1" s = s ∧
  sent (step s (says "P1" leave_room)) = sent s.
Proof.
  intros s. destruct leave_noop_outside_room as (Hnoop & Hmsg & _).
  assert (Hp : participants s !! "P1" =
               Some {| ws := "P1"; roomId := None; nickname := "Anonymous" |})
    by reflexivity.
  split.
  - exact (Hnoop s "P1" _ Hp eq_refl).
  - destruct (Hmsg s "P1" _ leave_room Hp eq_refl eq_refl) as (_ & _ & _ & H).
    exact H.
Defined.

(** ** Further properties of the directory *)

Lemma wrote_refl s : wrote_to_open s s.
Proof. split; [done|]. exists []. by rewrite app_nil_r. Qed.

Lemma wrote_trans s1 s2 s3 :
  wrote_to_open s1 s2 → wrote_to_open s2 s3 → wrote_to_open s1 s3.
Proof.
  intros (Hk1 & o1 & Hs1 & Ho1) (Hk2 & o2 & Hs2 & Ho2).
  split; [congruence|]. exists (o1 ++ o2).
  split; [by rewrite Hs2, Hs1, app_assoc|].
  apply Forall_app. split; [done|]. by rewrite <- Hk1.
Qed.

Lemma wrote_quiet s s' :
  sockets s' = sockets s → sent s' = sent s → wrote_to_open s s'.
Proof. intros Hk Hs. split; [done|]. exists []. by rewrite app_nil_r. Qed.

Lemma wrote_then_quiet s s1 s2 :
  wrote_to_open s s1 → sockets s2 = sockets s1 → sent s2 = sent s1 →
  wrote_to_open s s2.
Proof.
  intros H Hk Hs. apply wrote_trans with s1; [done|by apply wrote_quiet].
Qed.

Lemma wrote_after_quiet s s0 s' :
  sockets s0 = sockets s → sent s0 = sent s → wrote_to_open s0 s' →
  wrote_to_open s s'.
Proof.
  intros Hk Hs H. apply wrote_trans with s0; [by apply wrote_quiet|done].
Qed.

Lemma wrote_sendMessage w m s : wrote_to_open s (sendMessage w m s).
Proof.
  split; [apply sendMessage_sockets|]. rewrite sendMessage_sent.
  eexists. split; [done|]. destruct (is_open (sockets s !! w)) eqn:Ho.
  - by apply Forall_singleton.
  - constructor.
Qed.

Lemma recipient_open s ex q w :
  recipient s ex q = Some w → is_open (sockets s !! w) = true.
Proof.
  unfold recipient. destruct (bool_decide _); [done|].
  destruct (participants s !! q) as [p|]; [|done].
  destruct (is_open (sockets s !! ws p)) eqn:Ho; [|done]. by intros [= <-].
Qed.

Lemma wrote_broadcastToRoom rid m ex s :
  wrote_to_open s (broadcastToRoom rid m ex s).
Proof.
  destruct (broadcastToRoom_spec rid m ex s) as (_ & _ & Hk & _ & Hs).
  split; [done|]. eexists. split; [exact Hs|].
  apply Forall_map, Forall_forall. intros w Hw. cbn.
  apply list_elem_of_omap in Hw as (q & _ & Hq). by apply recipient_open in Hq.
Qed.

Lemma wrote_handleLeaveRoom pid s : wrote_to_open s (handleLeaveRoom pid s).
Proof.
  unfold handleLeaveRoom.
  destruct (participants s !! pid) as [p|]; [|apply wrote_refl].
  destruct (negb (truthy (roomId p))); [apply wrote_refl|].
  destruct (roomId p) as [rid|]; [|apply wrote_refl].
  cbn zeta.
  set (s1 := match rooms s !! rid with Some _ => _ | None => _ end).
  set (s3 := set_participants _ _).
  apply wrote_trans with s3; [|apply wrote_sendMessage].
  apply wrote_then_quiet with s1; [|done|done]. subst s1.
  destruct (rooms s !! rid) as [room|]; [|apply wrote_refl].
  destruct (Nat.eqb (length (set_delete pid room)) 0); [by apply wrote_quiet|].
  set (s0 := set_rooms (<[rid:=set_delete pid room]> (rooms s)) s).
  apply wrote_after_quiet with s0; [done|done|apply wrote_broadcastToRoom].
Qed.

Lemma wrote_handleJoinRoom pid msg s : wrote_to_open s (handleJoinRoom pid msg s).
Proof.
  unfold handleJoinRoom.
  destruct (participants s !! pid) as [p0|]; [|apply wrote_refl].
  destruct (negb (truthy (m_roomId msg))); [apply wrote_refl|].
  destruct (m_roomId msg) as [rid|]; [|apply wrote_refl].
  set (s1 := if truthy (roomId p0) then handleLeaveRoom pid s else s).
  assert (H1 : wrote_to_open s s1).
  { subst s1. destruct (truthy (roomId p0));
      [apply wrote_handleLeaveRoom|apply wrote_refl]. }
  set (s2 := match rooms s1 !! rid with
             | Some _ => s1
             | None => set_rooms (<[rid := []]> (rooms s1)) s1
             end).
  assert (H2 : wrote_to_open s1 s2).
  { subst s2. destruct (rooms s1 !! rid); [apply wrote_refl|by apply wrote_quiet]. }
  cbn zeta.
  set (s5 := log _ _). set (s6 := sendMessage _ _ s5).
  set (s7 := broadcastToRoom _ _ _ s6).
  assert (H7 : wrote_to_open s s7).
  { apply wrote_trans with s1; [exact H1|].
    apply wrote_trans with s2; [exact H2|].
    apply wrote_trans with s6; [|apply wrote_broadcastToRoom].
    apply wrote_after_quiet with s5; [done|done|apply wrote_sendMessage]. }
  destruct (Nat.ltb 0 _); [|done].
  apply wrote_trans with s7; [exact H7|apply wrote_sendMessage].
Qed.

Lemma wrote_handleSignal pid msg s : wrote_to_open s (handleSignal pid msg s).
Proof.
  unfold handleSignal. destruct (m_to msg ≫= _) as [[to t]|].
  - apply wrote_then_quiet
      with (sendMessage (ws t) (Signal pid (m_signal msg)) s);
      [apply wrote_sendMessage|done|done].
  - by apply wrote_quiet.
Qed.

Lemma wrote_handleDisconnection pid s :
  wrote_to_open s (handleDisconnection pid s).
Proof.
  unfold handleDisconnection. cbn zeta.
  set (s1 := match participants s !! pid with
             | Some p => if truthy (roomId p) then handleLeaveRoom pid s else s
             | None => s
             end).
  apply wrote_then_quiet with s1; [|done|done]. subst s1.
  destruct (participants s !! pid) as [p|]; [|apply wrote_refl].
  destruct (truthy (roomId p)); [apply wrote_handleLeaveRoom|apply wrote_refl].
Qed.

Lemma wrote_on_message pid data s : wrote_to_open s (on_message pid data s).
Proof.
  assert (Hfail : ∀ s0, wrote_to_open s0
            (sendError pid "Invalid message format" (log LParseError s0))).
  { intros s0. apply wrote_after_quiet with (log LParseError s0);
      [done|done|apply wrote_sendMessage]. }
  unfold on_message. destruct (JSON_parse data) as [v|]; [|apply Hfail].
  unfold handleMessage. destruct (participants s !! pid) as [p|]; [|apply wrote_refl].
  destruct v as [|msg]; [apply Hfail|].
  set (s1 := log (LMessageFrom pid (m_type msg)) s).
  repeat match goal with |- context [if ?c then _ else _] => destruct c end.
  - apply wrote_after_quiet with s1; [done|done|apply wrote_handleJoinRoom].
  - apply wrote_after_quiet with s1; [done|done|apply wrote_handleLeaveRoom].
  - apply wrote_after_quiet with s1; [done|done|apply wrote_handleSignal].
  - apply wrote_after_quiet with (log (LUnknownType (m_type msg)) s1);
      [done|done|apply wrote_sendMessage].
Qed.

Lemma is_open_Some r : is_open r = true → r = Some OPEN.
Proof. by destruct r as [[]|]. Qed.

(** X1.  Whatever event the directory processes, the log of sent messages
    only grows, and every message the event adds is addressed to a socket
    whose ready state is OPEN when the event has been processed: nothing is
    ever written to a connecting, closing or closed socket, in particular not
    to the socket whose [close] event is being handled. *)
Theorem sends_only_to_open_sockets s e :
  ∃ out, sent (step s e) = sent s ++ out ∧
         Forall (λ x, sockets (step s e) !! x.1 = Some OPEN) out.
Proof.
  assert (Hfin : ∀ s0 s', sent s0 = sent s → wrote_to_open s0 s' →
            ∃ out, sent s' = sent s ++ out ∧
                   Forall (λ x, sockets s' !! x.1 = Some OPEN) out).
  { intros s0 s' Hs (Hk & out & Hout & Hall). exists out.
    split; [by rewrite Hout, Hs|].
    eapply Forall_impl; [exact Hall|]. intros x Hx. cbn in Hx.
    rewrite Hk. by apply is_open_Some. }
  destruct e as [pid|pid data|pid|pid r]; cbn [step].
  - unfold on_connection.
    eapply Hfin; [|apply wrote_sendMessage]. done.
  - eapply Hfin; [done|apply wrote_on_message].
  - unfold on_close.
    eapply Hfin; [|apply wrote_handleDisconnection]. done.
  - exists []. rewrite app_nil_r. split; [|constructor].
    by destruct (sockets s !! pid).
Qed.

Lemma filter_ext_elem {A} (P Q : A → Prop) `{∀ x, Decision (P x)}
    `{∀ x, Decision (Q x)} (l : list A) :
  (∀ x, x ∈ l → (P x ↔ Q x)) → filter P l = filter Q l.
Proof.
  induction l as [|x l IH]; intros Hl; [done|].
  assert (Hx : P x ↔ Q x) by (apply Hl; by left).
  assert (Hrest : filter P l = filter Q l)
    by (apply IH; intros y Hy; apply Hl; by right).
  destruct (decide (P x)) as [HP|HP].
  - rewrite !filter_cons_True by tauto. by rewrite Hrest.
  - rewrite !filter_cons_False by tauto. done.
Qed.

Lemma recipients_all s (room : list string) :
  (∀ q, q ∈ room → ∃ rec, participants s !! q = Some rec ∧ ws rec = q) →
  recipients s None room = filter (λ q, is_open (sockets s !! q) = true) room.
Proof.
  intros H. unfold recipients.
  induction room as [|q room IH]; [done|].
  destruct (H q) as (rec & Hrec & Hws); [by left|].
  assert (Hq1 : recipient s None q =
                if is_open (sockets s !! q) then Some q else None).
  { unfold recipient. rewrite bool_decide_eq_false_2 by done.
    by rewrite Hrec, Hws. }
  change (omap (recipient s None) (q :: room)) with
    (match recipient s None q with
     | Some y => y :: omap (recipient s None) room
     | None => omap (recipient s None) room
     end).
  rewrite Hq1, IH by (intros q' Hq'; apply H; by right).
  destruct (is_open (sockets s !! q)) eqn:Ho.
  - by rewrite filter_cons_True.
  - rewrite filter_cons_False; [done|]. by rewrite Ho.
Qed.

Lemma handleLeaveRoom_sent pid p rid s :
  dir_inv s → participants s !! pid = Some p → roomId p = Some rid →
  let rest := set_delete pid (default [] (rooms s !! rid)) in
  let live q := is_open (sockets s !! q) in
  sent (handleLeaveRoom pid s) =
    sent s ++
    map (λ q, (q, ParticipantLeft pid)) (filter (λ q, live q = true) rest) ++
    (if live pid then [(pid, RoomLeft rid)] else []).
Proof.
  intros I Hp Hr rest live.
  destruct (inv_room_of s pid p rid I Hp Hr) as (Hne & room & Hroom & Hin).
  pose proof (inv_ws s I pid p Hp) as Hws.
  subst rest. rewrite Hroom. cbn [default id].
  unfold handleLeaveRoom. rewrite Hp, Hr, (truthy_Some _ Hne), Hroom.
  cbn [negb]. rewrite sendMessage_sent. frame. rewrite Hws.
  destruct (Nat.eqb_spec (length (set_delete pid room)) 0) as [Hz|Hnz].
  - apply nil_length_inv in Hz. rewrite Hz. by frame.
  - frame. rewrite broadcastToRoom_sent. frame.
    rewrite lookup_insert_eq. cbn [default id].
    rewrite recipients_all.
    + by rewrite <- app_assoc.
    + intros q [Hq _]%set_delete_elem. cbn.
      destruct (proj1 (inv_member s I rid q)) as (rec & Hrec & _); [eauto|].
      exists rec. split; [done|]. by apply (inv_ws s I).
Qed.







Lemma no_self_map (f : string → server_msg) (l : list string) :
  (∀ q, q ∈ l → self_notice (q, f q) = false) →
  Forall (λ x, self_notice x = false) (map (λ q, (q, f q)) l).
Proof.
  intros H. apply Forall_map, Forall_forall. intros q Hq. by apply H.
Qed.

Lemma no_self_leave pid p s :
  dir_inv s → participants s !! pid = Some p →
  let s1 := if truthy (roomId p) then handleLeaveRoom pid s else s in
  ∃ out, sent s1 = sent s ++ out ∧ Forall (λ x, self_notice x = false) out.
Proof.
  intros I Hp s1. subst s1. destruct (roomId p) as [rid|] eqn:Hr.
  - destruct (inv_room_of s pid p rid I Hp Hr) as (Hne & _).
    rewrite (truthy_Some _ Hne).
    rewrite (handleLeaveRoom_sent pid p rid s I Hp Hr).
    eexists. split; [done|]. apply Forall_app. split.
    + apply (no_self_map (λ _, ParticipantLeft pid)).
      intros q [_ [_ Hq]%set_delete_elem]%list_elem_of_filter. cbn.
      by apply bool_decide_eq_false_2.
    + destruct (is_open _); by repeat constructor.
  - exists []. by rewrite app_nil_r.
Qed.

(** X5.  The directory never tells a participant about itself: in a state
    that satisfies the membership invariant, no event makes it write a
    [participant-joined] or [participant-left] to the socket of the
    participant the notice is about. *)
Theorem never_notifies_about_self s e :
  dir_inv s →
  ∃ out, sent (step s e) = sent s ++ out ∧
         Forall (λ x, self_notice x = false) out.
Proof.
  intros I.
  assert (Hone : ∀ s0 w m, sent s0 = sent s → self_notice (w, m) = false →
            ∃ out, sent (sendMessage w m s0) = sent s ++ out ∧
                   Forall (λ x, self_notice x = false) out).
  { intros s0 w m Hs Hm. rewrite sendMessage_sent, Hs. eexists. split; [done|].
    destruct (is_open _); by repeat constructor. }
  assert (Hnone : ∀ s', sent s' = sent s →
            ∃ out, sent s' = sent s ++ out ∧
                   Forall (λ x, self_notice x = false) out).
  { intros s' Hs. exists []. by rewrite app_nil_r. }
  destruct e as [pid|pid data|pid|pid r]; cbn [step].
  - unfold on_connection. by apply Hone.
  - unfold on_message, sendError.
    destruct (JSON_parse data) as [v|]; [|by apply Hone].
    unfold handleMessage.
    destruct (participants s !! pid) as [p|] eqn:Hp; [|by apply Hnone].
    destruct v as [|msg]; [by apply Hone|].
    set (s1 := log (LMessageFrom pid (m_type msg)) s).
    assert (I1 : dir_inv s1) by by apply log_inv.
    assert (Hp1 : participants s1 !! pid = Some p) by done.
    repeat match goal with |- context [if ?c then _ else _] => destruct c end.
    + destruct (truthy (m_roomId msg)) eqn:Ht.
      2:{ apply Hnone. unfold handleJoinRoom. by rewrite Hp1, Ht. }
      destruct (truthy_inv _ Ht) as (rid & Hr & Hne).
      destruct (handleJoinRoom_sent pid p msg rid s1 I1 Hp1 Hr Hne)
        as ((Hnin & _) & Hsent).
      destruct (no_self_leave pid p s1 I1 Hp1) as (o1 & Ho1 & Hall1).
      rewrite Hsent, Ho1. change (sent s1) with (sent s).
      rewrite <- app_assoc. eexists. split; [done|].
      apply Forall_app. split; [done|].
      apply Forall_app. split; [destruct (is_open _); by repeat constructor|].
      apply Forall_app. split.
      * apply (no_self_map (λ _, ParticipantJoined pid
                                   (or_default (m_nickname msg) "Anonymous"))).
        intros q [_ Hq]%list_elem_of_filter. cbn.
        apply bool_decide_eq_false_2. by intros ->.
      * destruct (_ && _); by repeat constructor.
    + destruct (no_self_leave pid p s1 I1 Hp1) as (o1 & Ho1 & Hall1).
      destruct (truthy (roomId p)) eqn:Ht; [by eauto|].
      apply Hnone. unfold handleLeaveRoom. by rewrite Hp1, Ht.
    + unfold handleSignal. destruct (m_to msg ≫= _) as [[to t]|];
        [|by apply Hnone].
      cbn [sent log]. by apply Hone.
    + by apply Hone.
  - unfold on_close.
    set (s0 := log (LConnectionClosed pid)
                 (set_sockets (<[pid:=CLOSED]> (sockets s)) s)).
    assert (I0 : dir_inv s0) by by apply log_inv, set_sockets_inv.
    unfold handleDisconnection. cbn [sent set_participants].
    destruct (participants s0 !! pid) as [p|] eqn:Hp; [|by apply Hnone].
    destruct (no_self_leave pid p s0 I0 Hp) as (o1 & Ho1 & Hall1). eauto.
  - apply Hnone. by destruct (sockets s !! pid).
Qed.

Lemma never_notifies_about_self_witness :
  let s := run new_server two_connected in
  dir_inv s ∧
  ∃ out, sent (step s (says "P2" (join_room (Some "r1") None))) = sent s ++ out ∧
         Forall (λ x, self_notice x = false) out.
Proof.
  intros s.
  assert (I : dir_inv s).
  { apply run_inv; [apply new_server_inv|]. cbn. repeat split; reflexivity. }
  split; [exact I|].
  exact (never_notifies_about_self s (says "P2" (join_room (Some "r1") None)) I).
Defined.

End DirectoryProofs.

(* ===================================================================== *)
(** * Properties of [Session] *)
(* ===================================================================== *)

Module SessionProofs.
Import Session.

(** ** Which steps touch the retry counter and the timers *)

Lemma settle_from_frame t r c :
  timers (settle_from t r c) = timers c ∧
  pending (settle_from t r c) = pending c ∧
  reconnectAttempts (settle_from t r c) = reconnectAttempts c ∧
  isIntentionalClose (settle_from t r c) = isIntentionalClose c ∧
  callbacks (settle_from t r c) = callbacks c.
Proof.
  unfold settle_from. destruct (transports c !! t) as [tr|]; [|done].
  by destruct (settled tr).
Qed.

Lemma set_readyState_frame t r c :
  timers (set_readyState t r c) = timers c ∧
  pending (set_readyState t r c) = pending c ∧
  reconnectAttempts (set_readyState t r c) = reconnectAttempts c ∧
  isIntentionalClose (set_readyState t r c) = isIntentionalClose c ∧
  callbacks (set_readyState t r c) = callbacks c ∧
  settlements (set_readyState t r c) = settlements c.
Proof.
  unfold set_readyState. by destruct (transports c !! t) as [tr|].
Qed.

Lemma connect_frame who throws c :
  timers (connect who throws c) = timers c ∧
  pending (connect who throws c) = pending c ∧
  reconnectAttempts (connect who throws c) = reconnectAttempts c ∧
  callbacks (connect who throws c) = callbacks c.
Proof.
  unfold connect. destruct (ws_is_open c); [done|].
  destruct (isConnecting c); [done|]. by destruct throws.
Qed.

Lemma disconnect_frame c :
  timers (disconnect c) = timers c ∧
  pending (disconnect c) = pending c ∧
  reconnectAttempts (disconnect c) = reconnectAttempts c ∧
  callbacks (disconnect c) = callbacks c ∧
  settlements (disconnect c) = settlements c.
Proof.
  unfold disconnect. cbn [ws set_isIntentionalClose].
  destruct (ws c) as [t|]; [|done].
  unfold close_socket.
  destruct (readyState <$> _) as [[]|]; cbn; try done;
    by destruct (set_readyState_frame t CLOSING (set_isIntentionalClose true c))
      as (-> & -> & -> & _ & -> & ->).
Qed.

Lemma handleMessage_frame m c :
  timers (handleMessage m c) = timers c ∧
  pending (handleMessage m c) = pending c ∧
  reconnectAttempts (handleMessage m c) = reconnectAttempts c.
Proof. by destruct m as [[]|]. Qed.

Lemma onerror_frame t c :
  timers (onerror t c) = timers c ∧
  pending (onerror t c) = pending c ∧
  reconnectAttempts (onerror t c) = reconnectAttempts c ∧
  callbacks (onerror t c) = callbacks c.
Proof.
  unfold onerror.
  by destruct (settle_from_frame t (Rejected TransportError)
                 (set_isConnecting false c)) as (-> & -> & -> & _ & ->).
Qed.

(** [onclose] with the retry budget used up, or after [disconnect()]. *)
Lemma onclose_quiet t c :
  isIntentionalClose c = true ∨ maxReconnectAttempts ≤ reconnectAttempts c →
  onclose t c = invoke CbDisconnected (set_isConnecting false c).
Proof.
  intros H. unfold onclose.
  cbn [isIntentionalClose reconnectAttempts invoke set_isConnecting].
  destruct H as [-> | H]; [done|].
  destruct (Nat.ltb_spec (reconnectAttempts c) maxReconnectAttempts); [lia|].
  by rewrite andb_false_r.
Qed.

(** [onclose] with budget left. *)
Lemma onclose_retry t c :
  isIntentionalClose c = false → reconnectAttempts c < maxReconnectAttempts →
  onclose t c =
  scheduleReconnect (invoke CbDisconnected (set_isConnecting false c)).
Proof.
  intros Hi Hn. unfold onclose.
  cbn [isIntentionalClose reconnectAttempts invoke set_isConnecting].
  rewrite Hi. destruct (Nat.ltb_spec (reconnectAttempts c) maxReconnectAttempts);
    [done|lia].
Qed.

(** One step either leaves the timers alone, or it is a [close] event that
    appends the entry for the next attempt number, which is within budget. *)
Lemma step_timers c e :
  (timers (step c e) = timers c ∧
   (reconnectAttempts (step c e) = reconnectAttempts c ∨
    is_open_event e = true)) ∨
  (reconnectAttempts c < maxReconnectAttempts ∧
   reconnectAttempts (step c e) = S (reconnectAttempts c) ∧
   timers (step c e) =
     timers c ++ [(S (reconnectAttempts c),
                   (reconnectDelay * 2 ^ (Z.of_nat (S (reconnectAttempts c)) - 1))%Z)]).
Proof.
  destruct e as [throws| |t|t m|t|t|throws]; cbn [step is_open_event].
  - left. destruct (connect_frame User throws c) as (-> & _ & -> & _). auto.
  - left. destruct (disconnect_frame c) as (-> & _ & -> & _). auto.
  - left. destruct (state_of t c) as [[]|]; auto.
    unfold onopen.
    destruct (settle_from_frame t Resolved
      (invoke CbConnected (set_reconnectAttempts 0
         (set_isConnecting false (set_readyState t OPEN c)))))
      as (-> & _). cbn.
    destruct (set_readyState_frame t OPEN c) as (-> & _). auto.
  - left. destruct (state_of t c) as [[]|]; auto.
    destruct (handleMessage_frame m c) as (-> & _ & ->). auto.
  - left. destruct (state_of t c) as [[]|]; auto;
      destruct (onerror_frame t c) as (-> & _ & -> & _); auto.
  - set (c0 := set_readyState t CLOSED c).
    assert (H0 : timers c0 = timers c ∧ reconnectAttempts c0 = reconnectAttempts c).
    { subst c0.
      destruct (set_readyState_frame t CLOSED c) as (-> & _ & -> & _). done. }
    destruct H0 as [Ht Hn].
    assert (Hclose :
      (timers (onclose t c0) = timers c ∧
       reconnectAttempts (onclose t c0) = reconnectAttempts c) ∨
      (reconnectAttempts c < maxReconnectAttempts ∧
       reconnectAttempts (onclose t c0) = S (reconnectAttempts c) ∧
       timers (onclose t c0) =
         timers c ++ [(S (reconnectAttempts c),
           (reconnectDelay * 2 ^ (Z.of_nat (S (reconnectAttempts c)) - 1))%Z)])).
    { destruct (isIntentionalClose c0) eqn:Hi.
      - left. rewrite onclose_quiet by auto. cbn. done.
      - destruct (Nat.lt_ge_cases (reconnectAttempts c0) maxReconnectAttempts)
          as [Hlt|Hge].
        + right. rewrite onclose_retry by done. unfold scheduleReconnect. cbn.
          rewrite Ht, Hn. split; [lia|done].
        + left. rewrite onclose_quiet by auto. cbn. done. }
    destruct (state_of t c) as [[]|]; auto;
      destruct Hclose as [[-> ->]|H]; auto.
  - left. destruct (pending c) as [|n]; auto.
    destruct (connect_frame Timer throws (set_pending n c)) as (-> & _ & -> & _).
    auto.
Qed.

Lemma run_snoc c evs e : run c (evs ++ [e]) = step (run c evs) e.
Proof. unfold run. by rewrite foldl_app. Qed.

Lemma run_on_schedule c evs :
  Forall on_schedule (timers c) → Forall on_schedule (timers (run c evs)).
Proof.
  intros Hc. induction evs as [|e evs IH] using rev_ind; [done|].
  rewrite run_snoc.
  destruct (step_timers (run c evs) e) as [[-> _]|(Hlt & _ & ->)]; [done|].
  apply Forall_app. split; [done|]. apply Forall_singleton.
  unfold on_schedule. cbn [fst snd]. split; [lia|done].
Qed.

Lemma run_exhausted c evs :
  reconnectAttempts c = maxReconnectAttempts →
  Forall (λ e, is_open_event e = false) evs →
  timers (run c evs) = timers c ∧
  reconnectAttempts (run c evs) = maxReconnectAttempts.
Proof.
  intros Hc. induction evs as [|e evs IH] using rev_ind; intros Hev; [done|].
  apply Forall_app in Hev as [Hev He]. apply Forall_inv in He.
  destruct (IH Hev) as [IHt IHn]. rewrite run_snoc.
  destruct (step_timers (run c evs) e) as [[-> [-> | Ho]]|(Hlt & _)].
  - done.
  - rewrite He in Ho. done.
  - lia.
Qed.

(** C6.  Exponential backoff: [scheduleReconnect] increments the attempt
    counter to n and arms a timer with delay 1000 * 2^(n-1) ms; and in every
    run of the client from its initial state, every timer ever armed has an
    attempt number n with 1 <= n <= 5 and exactly that delay. *)
Theorem backoff_schedule :
  (∀ c, let n := S (reconnectAttempts c) in
     reconnectAttempts (scheduleReconnect c) = n ∧
     timers (scheduleReconnect c) =
       timers c ++ [(n, (1000 * 2 ^ (Z.of_nat n - 1))%Z)]) ∧
  (∀ evs n d, (n, d) ∈ timers (run new_client evs) →
     1 ≤ n ≤ 5 ∧ d = (1000 * 2 ^ (Z.of_nat n - 1))%Z).
Proof.
  split; [done|].
  intros evs n d Hin.
  assert (H : Forall on_schedule (timers (run new_client evs)))
    by (apply run_on_schedule; constructor).
  rewrite Forall_forall in H. apply (H (n, d) Hin).
Qed.

Lemma backoff_schedule_witness :
  (5, 16000%Z) ∈ timers (run new_client five_closes) ∧
  16000%Z = (1000 * 2 ^ (Z.of_nat 5 - 1))%Z.
Proof.
  assert (Hin : (5, 16000%Z) ∈ timers (run new_client five_closes)).
  { change (timers (run new_client five_closes)) with
      [(1, 1000%Z); (2, 2000%Z); (3, 4000%Z); (4, 8000%Z); (5, 16000%Z)].
    rewrite !elem_of_cons. auto 6. }
  split; [exact Hin|].
  destruct backoff_schedule as [_ H].
  exact (proj2 (H five_closes 5 16000%Z Hin)).
Defined.

(** C4 (amended).  Giving up: while the socket was not closed on purpose and
    fewer than 5 attempts have been made, a [close] arms the next reconnect
    timer; once [reconnectAttempts] has reached 5, a [close] arms no timer,
    and no timer is armed ever again as long as no socket opens.  The close
    that exhausts the budget invokes the [disconnected] handler like every
    other close, and nothing else: no handler is told of an error and no
    promise is rejected. *)
Theorem reconnect_gives_up :
  (∀ c t, isIntentionalClose c = false →
     reconnectAttempts c < maxReconnectAttempts →
     reconnectAttempts (onclose t c) = S (reconnectAttempts c) ∧
     pending (onclose t c) = S (pending c)) ∧
  (∀ c t, reconnectAttempts c = maxReconnectAttempts →
     let c' := onclose t c in
     timers c' = timers c ∧ pending c' = pending c ∧
     reconnectAttempts c' = maxReconnectAttempts ∧
     callbacks c' = callbacks c ++ [CbDisconnected] ∧
     settlements c' = settlements c) ∧
  (∀ c evs, reconnectAttempts c = maxReconnectAttempts →
     Forall (λ e, is_open_event e = false) evs →
     timers (run c evs) = timers c ∧
     reconnectAttempts (run c evs) = maxReconnectAttempts).
Proof.
  split; [|split].
  - intros c t Hi Hn. by rewrite onclose_retry.
  - intros c t Hn c'. subst c'. rewrite onclose_quiet by (right; lia). by cbn.
  - apply run_exhausted.
Qed.

Lemma reconnect_gives_up_witness :
  let c := run new_client five_closes in
  reconnectAttempts c = maxReconnectAttempts ∧
  timers (run c (failed_retry 5)) = timers c.
Proof.
  intros c.
  assert (Hn : reconnectAttempts c = maxReconnectAttempts) by reflexivity.
  split; [exact Hn|].
  destruct reconnect_gives_up as (_ & _ & H).
  apply (H c (failed_retry 5) Hn).
  repeat constructor.
Defined.

(** After the reconnect budget is used up the client is simply quiet: the
    application saw [connected] once and [disconnected] six times, no error
    handler ran, and no promise held by the application was rejected. *)
Lemma exhausted_reconnect_reports_nothing :
  let c := run new_client six_closes in
  reconnectAttempts c = maxReconnectAttempts ∧ pending c = 0 ∧ live c = [] ∧
  callbacks c = CbConnected :: replicate 6 CbDisconnected ∧
  filter (λ x, x.1 = User) (settlements c) = [(User, Resolved)] ∧
  ¬ (∃ m, CbError m ∈ callbacks c).
Proof.
  intros c. repeat split; try reflexivity.
  intros (m & Hm).
  change (callbacks c) with (CbConnected :: replicate 6 CbDisconnected) in Hm.
  apply elem_of_cons in Hm as [Hm|Hm]; [done|].
  apply elem_of_replicate in Hm as [Hm _]. done.
Qed.

(** The guard of [connect()] taken by itself: while [isConnecting] is set
    and the current socket is not open, the call is rejected and constructs
    nothing. *)
Lemma connect_rejected_while_connecting who throws c :
  isConnecting c = true → ws_is_open c = false →
  connect who throws c = settle who (Rejected AlreadyConnecting) c ∧
  transports (connect who throws c) = transports c.
Proof. intros Hc Ho. unfold connect. by rewrite Ho, Hc. Qed.

(** C7.  The single-connect guard can be defeated.  After [disconnect()]
    directly followed by [connect()], the [close] event of the old socket
    clears [isConnecting] while the new socket 1 is still connecting, and
    arms a reconnect timer because [connect()] has reset
    [isIntentionalClose].  When that timer fires, [connect()] is not
    rejected: it constructs socket 2, and two sockets are connecting at
    once. *)
Theorem connect_guard_defeated :
  let c := run new_client reconnect_race in
  state_of 1 c = Some CONNECTING ∧ isConnecting c = false ∧ pending c = 1 ∧
  let c' := step c (EvTimer false) in
  settlements c' = settlements c ∧
  length (transports c') = S (length (transports c)) ∧
  live c' = [1; 2].
Proof. repeat split; reflexivity. Qed.

(** ** Further properties of the session client *)

Lemma settle_from_shape t r c :
  ws (settle_from t r c) = ws c ∧
  length (transports (settle_from t r c)) = length (transports c) ∧
  (∀ u, state_of u (settle_from t r c) = state_of u c).
Proof.
  unfold settle_from. destruct (transports c !! t) as [tr|] eqn:Ht; [|done].
  destruct (settled tr); [done|]. cbn. split; [done|].
  split; [apply length_insert|].
  intros u. unfold state_of. cbn.
  destruct (decide (u = t)) as [->|Hne].
  - rewrite list_lookup_insert_eq by by eapply lookup_lt_Some.
    by rewrite Ht.
  - by rewrite list_lookup_insert_ne.
Qed.

Lemma set_readyState_shape t r c :
  ws (set_readyState t r c) = ws c ∧
  length (transports (set_readyState t r c)) = length (transports c) ∧
  isConnecting (set_readyState t r c) = isConnecting c.
Proof.
  unfold set_readyState. destruct (transports c !! t) as [tr|]; [|done].
  cbn. split; [done|]. split; [apply length_insert|done].
Qed.

Lemma connect_shape who throws c :
  (ws (connect who throws c) = ws c ∧
   transports (connect who throws c) = transports c) ∨
  (ws (connect who throws c) = Some (length (transports c)) ∧
   length (transports (connect who throws c)) = S (length (transports c))).
Proof.
  unfold connect. destruct (ws_is_open c); [by left|].
  destruct (isConnecting c); [by left|]. destruct throws; [by left|].
  right. cbn. split; [done|]. rewrite length_app. cbn. lia.
Qed.

Lemma disconnect_shape c :
  ws (disconnect c) = None ∧ isIntentionalClose (disconnect c) = true ∧
  length (transports (disconnect c)) = length (transports c) ∧
  isConnecting (disconnect c) = isConnecting c.
Proof.
  unfold disconnect. cbn [ws set_isIntentionalClose].
  destruct (ws c) as [t|] eqn:Hws; [|cbn; by rewrite Hws].
  cbn [ws set_ws isIntentionalClose transports isConnecting].
  split; [done|].
  set (c1 := set_isIntentionalClose true c).
  assert (H : isIntentionalClose (close_socket t c1) = true ∧
              length (transports (close_socket t c1)) = length (transports c) ∧
              isConnecting (close_socket t c1) = isConnecting c).
  { unfold close_socket.
    destruct (set_readyState_shape t CLOSING c1) as (_ & Hl & Hc).
    destruct (set_readyState_frame t CLOSING c1) as (_ & _ & _ & Hi & _).
    destruct (readyState <$> _) as [[]|]; try done; by rewrite Hl, Hc, Hi. }
  exact H.
Qed.

Lemma step_shape c e :
  (ws (step c e) = ws c ∨ ws (step c e) = None) ∧
  length (transports (step c e)) = length (transports c) ∨
  ws (step c e) = Some (length (transports c)) ∧
  length (transports (step c e)) = S (length (transports c)).
Proof.
  destruct e as [throws| |t|t m|t|t|throws]; cbn [step].
  - destruct (connect_shape User throws c) as [[-> ->]|H]; auto.
  - destruct (disconnect_shape c) as (-> & _ & -> & _). auto.
  - destruct (state_of t c) as [[]|]; auto. unfold onopen.
    destruct (settle_from_shape t Resolved
      (invoke CbConnected (set_reconnectAttempts 0
         (set_isConnecting false (set_readyState t OPEN c)))))
      as (-> & -> & _). cbn.
    destruct (set_readyState_shape t OPEN c) as (-> & -> & _). auto.
  - destruct (state_of t c) as [[]|]; auto. destruct m as [[]|]; auto.
  - assert (H : (ws (onerror t c) = ws c ∨ ws (onerror t c) = None) ∧
                length (transports (onerror t c)) = length (transports c)).
    { unfold onerror.
      destruct (settle_from_shape t (Rejected TransportError)
                  (set_isConnecting false c)) as (-> & -> & _). auto. }
    destruct (state_of t c) as [[]|]; auto.
  - assert (H : (ws (onclose t (set_readyState t CLOSED c)) = ws c ∨
                 ws (onclose t (set_readyState t CLOSED c)) = None) ∧
                length (transports (onclose t (set_readyState t CLOSED c))) =
                length (transports c)).
    { destruct (set_readyState_shape t CLOSED c) as (Hw & Hl & _).
      unfold onclose. cbn zeta.
      destruct (_ && _); cbn; rewrite Hw, Hl; auto. }
    destruct (state_of t c) as [[]|]; auto.
  - destruct (pending c) as [|n]; auto.
    destruct (connect_shape Timer throws (set_pending n c)) as [[-> ->]|H]; auto.
Qed.

Lemma step_pending c e :
  pending (step c e) ≤ pending c ∧ timers (step c e) = timers c ∨
  pending (step c e) = S (pending c) ∧
  length (timers (step c e)) = S (length (timers c)).
Proof.
  destruct e as [throws| |t|t m|t|t|throws]; cbn [step].
  - left. by destruct (connect_frame User throws c) as (-> & -> & _).
  - left. by destruct (disconnect_frame c) as (-> & -> & _).
  - left. destruct (state_of t c) as [[]|]; auto. unfold onopen.
    destruct (settle_from_frame t Resolved
      (invoke CbConnected (set_reconnectAttempts 0
         (set_isConnecting false (set_readyState t OPEN c)))))
      as (-> & -> & _). cbn.
    by destruct (set_readyState_frame t OPEN c) as (-> & -> & _).
  - left. destruct (state_of t c) as [[]|]; auto.
    by destruct (handleMessage_frame m c) as (-> & -> & _).
  - left. destruct (state_of t c) as [[]|]; auto;
      by destruct (onerror_frame t c) as (-> & -> & _).
  - assert (H : pending (onclose t (set_readyState t CLOSED c)) ≤ pending c ∧
                timers (onclose t (set_readyState t CLOSED c)) = timers c ∨
                pending (onclose t (set_readyState t CLOSED c)) = S (pending c) ∧
                length (timers (onclose t (set_readyState t CLOSED c))) =
                S (length (timers c))).
    { destruct (set_readyState_frame t CLOSED c) as (Ht & Hp & _).
      unfold onclose. cbn zeta. destruct (_ && _).
      - right. unfold scheduleReconnect. cbn. rewrite Hp, Ht, length_app.
        cbn. lia.
      - left. cbn. by rewrite Hp, Ht. }
    destruct (state_of t c) as [[]|]; auto.
  - left. destruct (pending c) as [|n] eqn:Hn; [by rewrite Hn|].
    destruct (connect_frame Timer throws (set_pending n c)) as (-> & -> & _).
    cbn. split; [lia|done].
Qed.

Lemma step_client_inv c e : client_inv c → client_inv (step c e).
Proof.
  intros (Hn & Hp & Hw). split; [|split].
  - destruct (step_timers c e) as [[_ [-> | He]]|(Hlt & -> & _)].
    + done.
    + destruct e; try done. cbn [step].
      destruct (state_of t c) as [[]|]; try done. unfold onopen.
      destruct (settle_from_frame t Resolved
        (invoke CbConnected (set_reconnectAttempts 0
           (set_isConnecting false (set_readyState t OPEN c)))))
        as (_ & _ & -> & _). cbn. lia.
    + lia.
  - destruct (step_pending c e) as [[H ->]|[-> ->]]; lia.
  - intros t Ht. destruct (step_shape c e) as [[[H|H] Hl]|[H Hl]].
    + rewrite Hl. apply Hw. congruence.
    + congruence.
    + rewrite Hl. congruence.
Qed.

Lemma run_client_inv evs : client_inv (run new_client evs).
Proof.
  induction evs as [|e evs IH] using rev_ind.
  - split; [cbn; lia|]. split; [cbn; lia|done].
  - rewrite run_snoc. by apply step_client_inv.
Qed.

(** X6.  In every run of the client from its initial state the retry counter
    never exceeds [maxReconnectAttempts], no more reconnect timers are
    pending than were armed, and [this.ws] is either [null] or the socket
    that was constructed last: the client never holds on to a socket it has
    replaced. *)
Theorem session_invariants evs :
  let c := run new_client evs in
  reconnectAttempts c ≤ maxReconnectAttempts ∧
  pending c ≤ length (timers c) ∧
  ∀ t, ws c = Some t → S t = length (transports c).
Proof.
  induction evs as [|e evs IH] using rev_ind.
  - split; [cbn; lia|]. split; [cbn; lia|done].
  - cbn zeta. rewrite run_snoc. by apply step_client_inv.
Qed.

Lemma sendMessage_spec m c :
  match sendMessage m c with
  | Some (t, m') => m' = m ∧ ws c = Some t ∧ state_of t c = Some OPEN ∧
                    isConnected c = true
  | None => isConnected c = false
  end.
Proof.
  unfold sendMessage, isConnected, ws_is_open, state_of.
  destruct (ws c) as [t|] eqn:Hw; [|done].
  destruct (readyState <$> transports c !! t) as [[]|] eqn:Ho; cbn;
    rewrite ?Hw, ?Ho; done.
Qed.

(** X7.  Sending is best effort: in every run of the client, [sendMessage]
    (and so [joinRoom], [leaveRoom] and [sendSignal]) writes the message
    unchanged to the socket constructed last, and only when that socket is
    open; in every other state, in particular before the first connection
    has opened, the message is dropped and [isConnected()] is false. *)
Theorem sends_reach_newest_open_socket evs m :
  let c := run new_client evs in
  match sendMessage m c with
  | Some (t, m') => m' = m ∧ S t = length (transports c) ∧
                    state_of t c = Some OPEN ∧ isConnected c = true
  | None => isConnected c = false
  end.
Proof.
  intros c. pose proof (sendMessage_spec m c) as H.
  destruct (sendMessage m c) as [[t m']|]; [|done].
  destruct H as (-> & Hw & Ho & Hc). repeat split; try done.
  by apply (run_client_inv evs).
Qed.

Lemma step_after_disconnect c e :
  calls_connect e = false → isIntentionalClose c = true → ws c = None →
  timers (step c e) = timers c ∧ isIntentionalClose (step c e) = true ∧
  ws (step c e) = None.
Proof.
  intros He Hi Hw. destruct e as [throws| |t|t m|t|t|throws]; try done;
    cbn [step].
  - destruct (disconnect_frame c) as (-> & _).
    by destruct (disconnect_shape c) as (-> & -> & _).
  - destruct (state_of t c) as [[]|]; try done. unfold onopen.
    set (c1 := invoke _ _).
    destruct (settle_from_frame t Resolved c1) as (-> & _ & _ & -> & _).
    destruct (settle_from_shape t Resolved c1) as (-> & _). subst c1. cbn.
    destruct (set_readyState_frame t OPEN c) as (-> & _ & _ & -> & _).
    by destruct (set_readyState_shape t OPEN c) as (-> & _).
  - destruct (state_of t c) as [[]|]; try done. by destruct m as [[]|].
  - assert (H : timers (onerror t c) = timers c ∧
                isIntentionalClose (onerror t c) = true ∧
                ws (onerror t c) = None).
    { unfold onerror. set (c1 := set_isConnecting false c).
      destruct (settle_from_frame t (Rejected TransportError) c1)
        as (-> & _ & _ & -> & _).
      by destruct (settle_from_shape t (Rejected TransportError) c1) as (-> & _). }
    by destruct (state_of t c) as [[]|].
  - assert (H : timers (onclose t (set_readyState t CLOSED c)) = timers c ∧
                isIntentionalClose (onclose t (set_readyState t CLOSED c)) = true ∧
                ws (onclose t (set_readyState t CLOSED c)) = None).
    { destruct (set_readyState_frame t CLOSED c) as (Ht & _ & _ & Hi' & _).
      destruct (set_readyState_shape t CLOSED c) as (Hw' & _).
      rewrite onclose_quiet by (left; congruence). cbn. by rewrite Ht, Hi', Hw'. }
    by destruct (state_of t c) as [[]|].
Qed.

(** X8.  An intentional disconnect suppresses reconnection: after
    [disconnect()], as long as [connect()] is not run again (by the
    application or by a timer armed earlier), no socket event arms a
    reconnect timer, [isIntentionalClose] stays set, [this.ws] stays [null],
    and every message handed to the client is dropped. *)
Theorem disconnect_suppresses_reconnect c evs :
  Forall (λ e, calls_connect e = false) evs →
  let c' := run (disconnect c) evs in
  timers c' = timers c ∧ isIntentionalClose c' = true ∧ ws c' = None ∧
  ∀ m, sendMessage m c' = None.
Proof.
  intros Hev.
  assert (H : timers (run (disconnect c) evs) = timers c ∧
              isIntentionalClose (run (disconnect c) evs) = true ∧
              ws (run (disconnect c) evs) = None).
  { induction evs as [|e evs IH] using rev_ind.
    - cbn. destruct (disconnect_frame c) as (-> & _).
      by destruct (disconnect_shape c) as (-> & -> & _).
    - apply Forall_app in Hev as [Hev He]. apply Forall_inv in He.
      destruct (IH Hev) as (IHt & IHi & IHw). rewrite run_snoc.
      destruct (step_after_disconnect _ e He IHi IHw) as (-> & -> & ->). done. }
  destruct H as (Ht & Hi & Hw). cbn zeta. repeat split; try done.
  intros m. unfold sendMessage. by rewrite Hw.
Qed.

Lemma disconnect_suppresses_reconnect_witness :
  let c := run new_client [EvConnect false; EvOpen 0] in
  timers (run (disconnect c) [EvClose 0; EvError 0]) = timers c ∧
  joinRoom "r1" "ann" (run (disconnect c) [EvClose 0; EvError 0]) = None.
Proof.
  intros c.
  destruct (disconnect_suppresses_reconnect c [EvClose 0; EvError 0])
    as (Ht & _ & _ & Hm).
  - repeat constructor.
  - split; [exact Ht|apply Hm].
Defined.

(** X9.  [disconnect()] does not cancel a reconnect timer that is already
    armed: when such a timer fires after the disconnect and no connect is in
    flight, [connect()] constructs a new socket, makes it [this.ws], and
    clears [isIntentionalClose], so that a later close of that socket is
    treated as unintended again. *)
Theorem pending_timer_survives_disconnect c n :
  pending c = S n → isConnecting c = false →
  let c' := step (disconnect c) (EvTimer false) in
  pending c' = n ∧
  ws c' = Some (length (transports c)) ∧
  length (transports c') = S (length (transports c)) ∧
  state_of (length (transports c)) c' = Some CONNECTING ∧
  isConnecting c' = true ∧ isIntentionalClose c' = false.
Proof.
  intros Hp Hc c'.
  destruct (disconnect_frame c) as (_ & Hpd & _).
  destruct (disconnect_shape c) as (Hw & _ & Hl & Hcd).
  subst c'. cbn [step]. rewrite Hpd, Hp. unfold connect.
  assert (Hno : ws_is_open (set_pending n (disconnect c)) = false).
  { unfold ws_is_open. cbn. by rewrite Hw. }
  rewrite Hno. cbn [isConnecting set_pending]. rewrite Hcd, Hc. cbn.
  rewrite Hl. repeat split; try done.
  - rewrite length_app. cbn. lia.
  - unfold state_of. cbn. rewrite lookup_app_r by lia.
    by rewrite Hl, Nat.sub_diag.
Qed.

Lemma pending_timer_survives_disconnect_witness :
  let c := run new_client lost_once in
  pending c = 1 ∧ isConnecting c = false ∧
  isIntentionalClose (step (disconnect c) (EvTimer false)) = false ∧
  ws (step (disconnect c) (EvTimer false)) = Some 1.
Proof.
  intros c.
  assert (Hp : pending c = 1) by reflexivity.
  assert (Hc : isConnecting c = false) by reflexivity.
  split; [exact Hp|]. split; [exact Hc|].
  destruct (pending_timer_survives_disconnect c 0 Hp Hc)
    as (_ & Hw & _ & _ & _ & Hi).
  split; [exact Hi|exact Hw].
Defined.

End SessionProofs.

(* ===================================================================== *)
(** * Properties of [Orchestrator] *)
(* ===================================================================== *)

Module OrchestratorProofs.
Import Orchestrator.

(** ** Facts about the insertion-ordered map *)

Lemma map_get_delete {V} k (m : list (string * V)) :
  map_get k (map_delete k m) = None.
Proof.
  unfold map_delete. induction m as [|[k' v] m IH]; [done|].
  destruct (decide (k' = k)) as [->|Hne].
  - by rewrite filter_cons_False by (cbn; intros H; by apply H).
  - rewrite filter_cons_True by done. cbn. by rewrite decide_False.
Qed.

Lemma map_delete_absent {V} k (m : list (string * V)) :
  map_get k m = None → map_delete k m = m.
Proof.
  unfold map_delete. induction m as [|[k' v] m IH]; [done|].
  intros H. cbn in H. destruct (decide (k' = k)) as [->|Hne]; [done|].
  rewrite filter_cons_True by done. by rewrite IH.
Qed.

Lemma map_get_set {V} k v (m : list (string * V)) :
  map_get k (map_set k v m) = Some v.
Proof.
  induction m as [|[k' v'] m IH]; cbn; [by rewrite decide_True|].
  destruct (decide (k' = k)) as [->|Hne]; cbn.
  - by rewrite decide_True.
  - by rewrite decide_False.
Qed.

(** ** Closing a connection *)

Lemma internal_set_internal m w :
  internal (set_internal m w) = m.
Proof. unfold internal, set_internal. cbn. by rewrite lookup_insert_eq. Qed.

Lemma removeRemoteStream_gone p a :
  map_get p (remoteStreams (removeRemoteStream p a)) = None.
Proof.
  unfold removeRemoteStream.
  destruct (map_get p (remoteStreams a)) eqn:H; [|done].
  cbn. apply map_get_delete.
Qed.

Lemma closeConnection_internal p a w :
  map_get p (internal w) = Some a →
  internal (closeConnection p w) = map_delete p (internal w).
Proof.
  intros H. unfold closeConnection. rewrite H.
  change (internal (set_audio ?x ?y)) with (internal y).
  by rewrite internal_set_internal.
Qed.

(** ** Worlds that differ outside the private map *)

Lemma agree_refl w : agree w w.
Proof. by repeat split. Qed.

Lemma agree_sym w1 w2 : agree w1 w2 → agree w2 w1.
Proof. intros (?&?&?&?&?&?&?). by repeat split. Qed.

Lemma agree_trans w1 w2 w3 : agree w1 w2 → agree w2 w3 → agree w1 w3.
Proof.
  intros (?&?&?&?&?&?&?) (?&?&?&?&?&?&?). repeat split; congruence.
Qed.

Lemma agree_internal w1 w2 : agree w1 w2 → internal w1 = internal w2.
Proof. intros (_&_&_&_&_&_&H). unfold internal. by rewrite H. Qed.

Lemma agree_set_conns w1 w2 c :
  agree w1 w2 → agree (set_conns c w1) (set_conns c w2).
Proof. intros (?&?&?&?&?&?&?). by repeat split. Qed.

Lemma agree_update_conn w1 w2 a f :
  agree w1 w2 → agree (update_conn a f w1) (update_conn a f w2).
Proof.
  intros H. unfold update_conn. destruct H as (Hc&?&?&?&?&?&?).
  rewrite Hc. by repeat split.
Qed.

Lemma agree_set_audio w1 w2 a :
  agree w1 w2 → agree (set_audio a w1) (set_audio a w2).
Proof. intros (?&?&?&?&?&?&?). by repeat split. Qed.

Lemma agree_set_isInitialized w1 w2 b :
  agree w1 w2 → agree (set_isInitialized b w1) (set_isInitialized b w2).
Proof. intros (?&?&?&?&?&?&?). by repeat split. Qed.

Lemma agree_set_next w1 w2 n :
  agree w1 w2 → agree (set_next n w1) (set_next n w2).
Proof. intros (?&?&?&?&?&?&?). by repeat split. Qed.

Lemma agree_emit w1 w2 e : agree w1 w2 → agree (emit e w1) (emit e w2).
Proof. intros (?&?&?&?&?&He&?). repeat split; cbn; congruence. Qed.

Lemma agree_set_internal w1 w2 m :
  agree w1 w2 → agree (set_internal m w1) (set_internal m w2).
Proof.
  intros (?&?&Hk&?&?&?&?). repeat split; try done.
  unfold set_internal. cbn. by rewrite Hk, !lookup_insert_eq.
Qed.

Lemma agree_foldl {A} (f : world → A → world) l :
  (∀ w1 w2 x, agree w1 w2 → agree (f w1 x) (f w2 x)) →
  ∀ w1 w2, agree w1 w2 → agree (foldl f w1 l) (foldl f w2 l).
Proof.
  intros Hf. induction l as [|x l IH]; intros w1 w2 H; cbn; [done|].
  apply IH. by apply Hf.
Qed.

Lemma agree_handleSignal w1 w2 from sg :
  agree w1 w2 → agree (handleSignal from sg w1) (handleSignal from sg w2).
Proof.
  intros H. unfold handleSignal. rewrite (agree_internal _ _ H).
  destruct (map_get from (internal w2)); [by apply agree_update_conn|done].
Qed.

Lemma agree_sendDataChannelMessage w1 w2 p m :
  agree w1 w2 →
  agree (sendDataChannelMessage p m w1) (sendDataChannelMessage p m w2).
Proof.
  intros H. unfold sendDataChannelMessage. rewrite (agree_internal _ _ H).
  destruct (map_get p (internal w2)) as [a|]; [|done].
  destruct H as (Hc & H'). rewrite Hc.
  destruct (conns w2 !! a) as [c|]; [|by split].
  destruct (isConnected c); [|by split].
  apply agree_update_conn. by split.
Qed.

Lemma agree_broadcast w1 w2 m :
  agree w1 w2 → agree (broadcast m w1) (broadcast m w2).
Proof.
  intros H. unfold broadcast. rewrite (agree_internal _ _ H).
  apply agree_foldl; [|done]. clear. intros w1 w2 e H.
  pose proof H as (Hc & _). rewrite Hc.
  destruct (conns w2 !! e.2) as [c|]; [|done].
  destruct (isConnected c); [|done]. by apply agree_sendDataChannelMessage.
Qed.

Lemma agree_closeConnection w1 w2 p :
  agree w1 w2 → agree (closeConnection p w1) (closeConnection p w2).
Proof.
  intros H. unfold closeConnection. rewrite (agree_internal _ _ H).
  destruct (map_get p (internal w2)) as [a|]; [|done].
  assert (H1 : agree (update_conn a (with_peer destroy) w1)
                     (update_conn a (with_peer destroy) w2))
    by by apply agree_update_conn.
  rewrite (agree_internal _ _ H1).
  assert (H2 := agree_set_internal _ _
    (map_delete p (internal (update_conn a (with_peer destroy) w2))) H1).
  pose proof H2 as (_&_&_&_&Ha&_). rewrite Ha. by apply agree_set_audio.
Qed.

Lemma agree_closeAllConnections w1 w2 :
  agree w1 w2 → agree (closeAllConnections w1) (closeAllConnections w2).
Proof.
  intros H. unfold closeAllConnections. rewrite (agree_internal _ _ H).
  apply agree_set_internal, agree_foldl; [|done]. clear. intros w1 w2 e H.
  assert (H1 : agree (update_conn e.2 (with_peer destroy) w1)
                     (update_conn e.2 (with_peer destroy) w2))
    by by apply agree_update_conn.
  pose proof H1 as (_&_&_&_&Ha&_). cbn zeta. rewrite Ha.
  by apply agree_set_audio.
Qed.

Lemma agree_on_peer_event w1 w2 a e :
  agree w1 w2 → agree (on_peer_event a e w1) (on_peer_event a e w2).
Proof.
  intros H. unfold on_peer_event. pose proof H as (Hc & _). rewrite Hc.
  destruct (conns w2 !! a) as [c|]; [|done].
  destruct e; cbn zeta.
  - by apply agree_emit.
  - by apply agree_emit, agree_update_conn.
  - assert (H1 : agree (update_conn a (with_stream (Some s)) w1)
                       (update_conn a (with_stream (Some s)) w2))
      by by apply agree_update_conn.
    pose proof H1 as (_&_&_&_&Ha&_). rewrite Ha.
    by apply agree_emit, agree_set_audio.
  - done.
  - assert (H1 : agree
        (emit (OnConnectionStateChange (id c) "disconnected")
           (update_conn a (with_isConnected false) w1))
        (emit (OnConnectionStateChange (id c) "disconnected")
           (update_conn a (with_isConnected false) w2)))
      by by apply agree_emit, agree_update_conn.
    pose proof H1 as (_&_&_&_&Ha&_). rewrite Ha. by apply agree_set_audio.
  - by apply agree_emit.
Qed.

Lemma agree_getAllConnections w1 w2 :
  agree w1 w2 →
  agree (getAllConnections w1).1 (getAllConnections w2).1 ∧
  (getAllConnections w1).2 = (getAllConnections w2).2.
Proof.
  intros H. pose proof (agree_internal _ _ H) as Hi.
  destruct H as (Hc & Hn & Hk & Hini & Ha & He & Hm).
  unfold getAllConnections. cbn. split; [|done].
  repeat split; cbn; try congruence.
  rewrite Hn, Hk, Hi, !lookup_insert. case_decide; [done|].
  rewrite <- Hm. by rewrite Hk.
Qed.

Lemma agree_exec o w1 w2 :
  agree w1 w2 → agree (exec o w1).1 (exec o w2).1 ∧ (exec o w1).2 = (exec o w2).2.
Proof.
  intros H. destruct o; cbn [exec fst snd].
  - unfold initialize. pose proof H as (_&_&_&Hi&Ha&_). rewrite Hi, Ha.
    destruct (isInitialized w2); [done|].
    destruct (audio_isInitialized (audio w2));
      [split; [by apply agree_set_isInitialized|done]|].
    destruct fails; [done|].
    split; [by apply agree_set_isInitialized, agree_set_audio|done].
  - unfold createConnection. pose proof H as (Hc&Hn&_&Hi&Ha&_).
    rewrite Hi, Ha. destruct (isInitialized w2); [|done]. cbn [negb].
    destruct (localStream (audio w2)) as [ls|]; [|done]. cbn zeta.
    rewrite Hn, Hc. cbn [fst snd]. split; [|done].
    match goal with
    | |- agree (set_internal (map_set _ _ (internal ?x)) _)
               (set_internal (map_set _ _ (internal ?y)) _) =>
      assert (H1 : agree x y) by by apply agree_set_next, agree_set_conns
    end.
    rewrite (agree_internal _ _ H1). by apply agree_set_internal.
  - split; [by apply agree_handleSignal|done].
  - split; [by apply agree_sendDataChannelMessage|done].
  - split; [by apply agree_broadcast|done].
  - split; [by apply agree_broadcast|done].
  - split; [by apply agree_closeConnection|done].
  - split; [done|]. unfold getConnection. by rewrite (agree_internal _ _ H).
  - destruct (agree_getAllConnections w1 w2 H) as [H1 H2].
    destruct (getAllConnections w1), (getAllConnections w2). cbn in *.
    split; [done|congruence].
  - split; [done|]. unfold getConnectedPeerCount.
    pose proof H as (Hc & _). by rewrite (agree_internal _ _ H), Hc.
  - split; [done|]. unfold hasActiveConnections, getConnectedPeerCount.
    pose proof H as (Hc & _). by rewrite (agree_internal _ _ H), Hc.
  - split; [by apply agree_closeAllConnections|done].
  - split; [|done]. by apply agree_set_isInitialized, agree_closeAllConnections.
  - split; [by apply agree_on_peer_event|done].
Qed.

Lemma agree_exec_all os : ∀ w1 w2,
  agree w1 w2 →
  agree (exec_all os w1).1 (exec_all os w2).1 ∧
  (exec_all os w1).2 = (exec_all os w2).2.
Proof.
  induction os as [|o os IH]; intros w1 w2 H; cbn [exec_all]; [done|].
  destruct (agree_exec o w1 w2 H) as [H1 Hr].
  destruct (exec o w1) as [w1' r1], (exec o w2) as [w2' r2]. cbn in H1, Hr.
  destruct (IH w1' w2' H1) as [H2 Hrs].
  destruct (exec_all os w1') as [w1'' rs1], (exec_all os w2') as [w2'' rs2].
  cbn in *. split; [done|congruence].
Qed.

Lemma agree_mutate r w m : r ≠ connections w → agree (mutate r w m) w.
Proof.
  intros Hr. unfold mutate. destruct (maps w !! r); [|apply agree_refl].
  repeat split; cbn. by rewrite lookup_insert_ne.
Qed.

Lemma agree_mutations r muts : ∀ w,
  r ≠ connections w → agree (foldl (mutate r) w muts) w.
Proof.
  induction muts as [|m muts IH]; intros w Hr; cbn; [apply agree_refl|].
  pose proof (agree_mutate r w m Hr) as H.
  apply agree_trans with (mutate r w m); [|done].
  apply IH. destruct H as (_&_&->&_). done.
Qed.

Lemma wf_exec o w : wf w → wf (exec o w).1.
Proof.
  unfold wf. intros H.
  assert (Hfold : ∀ {A} (f : world → A → world) (l : list A),
            (∀ w x, connections (f w x) = connections w ∧ next (f w x) = next w) →
            ∀ w, connections (foldl f w l) = connections w ∧
                 next (foldl f w l) = next w).
  { intros A f l Hf. induction l as [|x l IH]; intros w0; cbn; [done|].
    destruct (IH (f w0 x)) as [-> ->]. apply Hf. }
  assert (Hsend : ∀ p m w0,
            connections (sendDataChannelMessage p m w0) = connections w0 ∧
            next (sendDataChannelMessage p m w0) = next w0).
  { intros p m w0. unfold sendDataChannelMessage.
    destruct (map_get p (internal w0)) as [a|]; [|done].
    destruct (conns w0 !! a) as [c|]; [|done]. by destruct (isConnected c). }
  assert (Hbc : ∀ m w0, connections (broadcast m w0) = connections w0 ∧
                        next (broadcast m w0) = next w0).
  { intros m w0. unfold broadcast. apply Hfold. intros w1 e.
    destruct (conns w1 !! e.2) as [c|]; [|done].
    destruct (isConnected c); [apply Hsend|done]. }
  assert (Hall : ∀ w0, connections (closeAllConnections w0) = connections w0 ∧
                       next (closeAllConnections w0) = next w0).
  { intros w0. unfold closeAllConnections. cbn.
    apply (Hfold _ (λ w e, set_audio _ (update_conn e.2 (with_peer destroy) w))).
    done. }
  destruct o; cbn [exec fst snd].
  - unfold initialize. destruct (isInitialized w); [done|].
    destruct (audio_isInitialized (audio w)); [done|]. by destruct fails.
  - unfold createConnection. destruct (isInitialized w); [|done]. cbn [negb].
    destruct (localStream (audio w)); [|done]. cbn. lia.
  - unfold handleSignal. by destruct (map_get from (internal w)).
  - by destruct (Hsend peerId message w) as [-> ->].
  - unfold broadcastMuteStatus. by destruct (Hbc
      (JObj [("type", JStr "mute-status"); ("isMuted", JBool isMuted);
             ("timestamp", JNum now)]) w) as [-> ->].
  - unfold broadcastAudioLevel. by destruct (Hbc
      (JObj [("type", JStr "audio-level"); ("level", level);
             ("timestamp", JNum now)]) w) as [-> ->].
  - unfold closeConnection. by destruct (map_get peerId (internal w)).
  - done.
  - cbn. lia.
  - done.
  - done.
  - by destruct (Hall w) as [-> ->].
  - unfold cleanup. cbn [connections next set_isInitialized].
    by destruct (Hall w) as [-> ->].
  - unfold on_peer_event. destruct (conns w !! a) as [c|]; [|done].
    by destruct e.
Qed.

(** C9.  Teardown: when [closeConnection(p)] finds a record for [p], it
    removes [p] from the private map, marks the peer object of that record
    destroyed, and the audio manager no longer holds a remote stream for [p]
    (the stream it held has been stopped); when there is no record for [p]
    the call returns the state unchanged; and calling it twice in a row gives
    the same state as calling it once. *)
Theorem closeConnection_idempotent w p :
  (∀ a c, getConnection p w = Some a → conns w !! a = Some c →
     let w' := closeConnection p w in
     internal w' = map_delete p (internal w) ∧
     getConnection p w' = None ∧
     conns w' !! a = Some (with_peer destroy c) ∧
     destroyed (peer (with_peer destroy c)) = true ∧
     map_get p (remoteStreams (audio w')) = None ∧
     (∀ s, map_get p (remoteStreams (audio w)) = Some s →
           s ∈ stopped (audio w'))) ∧
  (getConnection p w = None → closeConnection p w = w) ∧
  closeConnection p (closeConnection p w) = closeConnection p w.
Proof.
  assert (Hgone : ∀ a, map_get p (internal w) = Some a →
            map_get p (internal (closeConnection p w)) = None).
  { intros a Ha. rewrite (closeConnection_internal p a w Ha).
    apply map_get_delete. }
  split; [|split].
  - intros a c Ha Hc w'. subst w'. unfold getConnection in *.
    split; [by apply (closeConnection_internal p a)|].
    split; [by apply (Hgone a)|].
    unfold closeConnection. rewrite Ha. cbn.
    split; [by rewrite lookup_alter_eq, Hc|]. split; [done|].
    split; [apply removeRemoteStream_gone|].
    intros s Hs. unfold removeRemoteStream. rewrite Hs. cbn.
    apply elem_of_app. right. by apply list_elem_of_singleton.
  - unfold getConnection, closeConnection. by intros ->.
  - destruct (map_get p (internal w)) as [a|] eqn:Ha.
    + pose proof (Hgone a eq_refl) as Hn.
      unfold closeConnection at 1. by rewrite Hn.
    + unfold closeConnection. by rewrite Ha, Ha.
Qed.

Lemma closeConnection_idempotent_witness :
  getConnection "B" with_peer_B = Some 1 ∧
  getConnection "B" (closeConnection "B" with_peer_B) = None ∧
  closeConnection "Z" with_peer_B = with_peer_B.
Proof.
  assert (Ha : getConnection "B" with_peer_B = Some 1) by reflexivity.
  split; [exact Ha|].
  destruct (closeConnection_idempotent with_peer_B "B") as (Hclose & _).
  destruct (closeConnection_idempotent with_peer_B "Z") as (_ & Hnoop & _).
  split.
  - eapply (Hclose 1); [exact Ha|reflexivity].
  - apply Hnoop. reflexivity.
Defined.

(** C10.  Defensive copy: in a state where the allocator has handed out the
    private map's address, [getAllConnections()] returns the address of a
    new map, different from the private one, holding the same entries, and
    leaves the private map as it was.  Whatever the caller then sets, deletes
    or clears in the returned map, the private map keeps its entries, and
    every later sequence of orchestrator operations returns the same results
    and reaches a state that differs at most in maps other than the private
    one. *)
Theorem getAllConnections_defensive_copy w :
  wf w →
  let w1 := (getAllConnections w).1 in
  let r := (getAllConnections w).2 in
  r ≠ connections w1 ∧
  maps w1 !! r = Some (internal w) ∧
  internal w1 = internal w ∧
  ∀ muts,
    let w2 := foldl (mutate r) w1 muts in
    internal w2 = internal w ∧
    ∀ os, (exec_all os w2).2 = (exec_all os w1).2 ∧
          agree (exec_all os w2).1 (exec_all os w1).1.
Proof.
  unfold wf. intros Hwf. cbn zeta. unfold getAllConnections.
  cbn [fst snd].
  set (w1 := set_next _ _).
  assert (Hr : next w ≠ connections w1) by (cbn; lia).
  assert (Hint : internal w1 = internal w).
  { unfold internal. cbn. rewrite lookup_insert_ne by lia. done. }
  split; [exact Hr|]. split; [cbn; apply lookup_insert_eq|].
  split; [exact Hint|].
  intros muts. set (w2 := foldl _ _ _).
  pose proof (agree_mutations (next w) muts w1 Hr) as Hag. fold w2 in Hag.
  split; [by rewrite (agree_internal _ _ Hag)|].
  intros os. destruct (agree_exec_all os w2 w1 Hag) as [H1 H2]. done.
Qed.

Lemma getAllConnections_defensive_copy_witness :
  let w1 := (getAllConnections with_peer_B).1 in
  let r := (getAllConnections with_peer_B).2 in
  wf with_peer_B ∧ r = 2 ∧
  internal (foldl (mutate r) w1 [MapDelete "B"; MapSet "Z" 9]) = [("B", 1)] ∧
  (exec_all [GetConnection "B"; GetConnection "Z"; GetConnectedPeerCount]
     (foldl (mutate r) w1 [MapDelete "B"; MapSet "Z" 9])).2 =
    [RConnection (Some 1); RConnection None; RNumber 1].
Proof.
  intros w1 r.
  assert (Hwf : wf with_peer_B) by (change (0 < 2); lia).
  split; [exact Hwf|]. split; [reflexivity|].
  destruct (getAllConnections_defensive_copy with_peer_B Hwf)
    as (_ & _ & _ & H).
  destruct (H [MapDelete "B"; MapSet "Z" 9]) as [Hint Hops].
  split.
  - etransitivity; [exact Hint|reflexivity].
  - destruct (Hops [GetConnection "B"; GetConnection "Z"; GetConnectedPeerCount])
      as [Hres _].
    etransitivity; [exact Hres|reflexivity].
Defined.

(** ** Further properties of the orchestrator *)

Lemma map_get_set_ne {V} k k' v (m : list (string * V)) :
  k' ≠ k → map_get k' (map_set k v m) = map_get k' m.
Proof.
  intros Hne. induction m as [|[k0 v0] m IH]; cbn.
  - by rewrite decide_False.
  - destruct (decide (k0 = k)) as [->|Hk]; cbn.
    + by rewrite !decide_False.
    + by rewrite IH.
Qed.

Lemma map_get_delete_ne {V} k k' (m : list (string * V)) :
  k' ≠ k → map_get k' (map_delete k m) = map_get k' m.
Proof.
  intros Hne. unfold map_delete. induction m as [|[k0 v0] m IH]; [done|].
  destruct (decide (k0 = k)) as [->|Hk].
  - rewrite filter_cons_False by (cbn; intros H; by apply H).
    cbn. by rewrite decide_False.
  - rewrite filter_cons_True by done. cbn. by rewrite IH.
Qed.

Lemma map_get_elem {V} k v (m : list (string * V)) :
  map_get k m = Some v → (k, v) ∈ m.
Proof.
  induction m as [|[k0 v0] m IH]; cbn; [done|].
  destruct (decide (k0 = k)) as [->|Hk].
  - intros [= ->]. by left.
  - intros H. right. by apply IH.
Qed.

Lemma map_get_None {V} k (m : list (string * V)) :
  map_get k m = None ↔ k ∉ m.*1.
Proof.
  induction m as [|[k0 v0] m IH]; cbn.
  - split; [intros _; apply not_elem_of_nil|done].
  - rewrite not_elem_of_cons. destruct (decide (k0 = k)) as [->|Hk].
    + split; [done|]. by intros [? _].
    + rewrite IH. split; [by intros ?; split|by intros [_ ?]].
Qed.

Lemma map_get_NoDup {V} k v (m : list (string * V)) :
  NoDup m.*1 → (k, v) ∈ m → map_get k m = Some v.
Proof.
  induction m as [|[k0 v0] m IH]; cbn; [by intros _ ?%not_elem_of_nil|].
  intros [Hk0 Hnd]%NoDup_cons Hin. apply elem_of_cons in Hin as [[= -> ->]|Hin].
  - by rewrite decide_True.
  - rewrite decide_False; [by apply IH|].
    intros ->. apply Hk0, list_elem_of_fmap. by exists (k, v).
Qed.

Lemma map_set_elem {V} k v k' v' (m : list (string * V)) :
  (k', v') ∈ map_set k v m → (k' = k ∧ v' = v) ∨ (k', v') ∈ m.
Proof.
  induction m as [|[k0 v0] m IH]; cbn.
  - intros [= -> ->]%list_elem_of_singleton. by left.
  - destruct (decide (k0 = k)) as [->|Hk].
    + intros [[= -> ->]|Hin]%elem_of_cons; [by left|]. right. by right.
    + intros [[= -> ->]|Hin]%elem_of_cons; [right; by left|].
      destruct (IH Hin) as [?|?]; [by left|]. right. by right.
Qed.

Lemma map_set_keys {V} k v (m : list (string * V)) :
  (map_set k v m).*1 = if bool_decide (k ∈ m.*1) then m.*1 else m.*1 ++ [k].
Proof.
  induction m as [|[k0 v0] m IH]; cbn; [done|].
  destruct (decide (k0 = k)) as [->|Hk]; cbn.
  - rewrite bool_decide_eq_true_2; [done|by left].
  - rewrite IH. case_bool_decide as H1.
    + rewrite bool_decide_eq_true_2; [done|by right].
    + rewrite bool_decide_eq_false_2; [done|].
      intros [?|?]%elem_of_cons; congruence.
Qed.

Lemma map_set_keys_NoDup {V} k v (m : list (string * V)) :
  NoDup m.*1 → NoDup (map_set k v m).*1.
Proof.
  intros H. rewrite map_set_keys. case_bool_decide as Hk; [done|].
  apply NoDup_app. repeat split; [done| |apply NoDup_singleton].
  intros x Hx ->%list_elem_of_singleton. done.
Qed.

Lemma map_set_values_NoDup k (v : nat) (m : list (string * nat)) :
  NoDup m.*2 → v ∉ m.*2 → NoDup (map_set k v m).*2.
Proof.
  induction m as [|[k0 v0] m IH]; cbn; [intros; apply NoDup_singleton|].
  intros [Hv0 Hnd]%NoDup_cons [Hne Hv]%not_elem_of_cons.
  destruct (decide (k0 = k)) as [->|Hk]; cbn.
  - apply NoDup_cons. done.
  - apply NoDup_cons. split; [|by apply IH].
    intros ([k1 v1] & -> & Hin)%list_elem_of_fmap. cbn in *.
    apply map_set_elem in Hin as [[_ ->]|Hin]; [done|].
    apply Hv0, list_elem_of_fmap. by exists (k1, v1).
Qed.

Lemma map_delete_elem {V} k k' v' (m : list (string * V)) :
  (k', v') ∈ map_delete k m ↔ (k', v') ∈ m ∧ k' ≠ k.
Proof. unfold map_delete. rewrite list_elem_of_filter. cbn. tauto. Qed.

Lemma map_delete_NoDup {V} k (m : list (string * V)) :
  (NoDup m.*1 → NoDup (map_delete k m).*1) ∧
  (NoDup m.*2 → NoDup (map_delete k m).*2).
Proof.
  unfold map_delete. split; intros H.
  - eapply sublist_NoDup; [exact H|]. apply fmap_sublist, sublist_filter.
  - eapply sublist_NoDup; [exact H|]. apply fmap_sublist, sublist_filter.
Qed.

Lemma conn_inv_ext w w' :
  internal w' = internal w → conns w' = conns w → next w' = next w →
  connections w' = connections w → conn_inv w → conn_inv w'.
Proof. unfold conn_inv. by intros -> -> -> ->. Qed.

Lemma conn_inv_update a f w :
  (∀ c, id (f c) = id c) → conn_inv w → conn_inv (update_conn a f w).
Proof.
  intros Hf (Hk & Hnk & Hnv & Hreg & Hal).
  split; [done|]. split; [done|]. split; [done|]. split.
  - intros k a' Hin. destruct (Hreg k a' Hin) as (c & Hc & Hid).
    unfold update_conn. cbn. rewrite lookup_alter. case_decide as Ha.
    + subst a'. rewrite Hc. cbn. eexists. split; [done|]. by rewrite Hf.
    + eauto.
  - intros a' Ha'. apply Hal. unfold update_conn in Ha'. cbn in Ha'.
    rewrite lookup_alter in Ha'. case_decide; [|done].
    subst a'. by apply fmap_is_Some in Ha'.
Qed.

Lemma conn_inv_foldl {A} (f : world → A → world) (l : list A) :
  (∀ w x, conn_inv w → conn_inv (f w x)) →
  ∀ w, conn_inv w → conn_inv (foldl f w l).
Proof.
  intros Hf. induction l as [|x l IH]; intros w H; cbn; [done|].
  apply IH. by apply Hf.
Qed.

Lemma conn_inv_sendDataChannelMessage p m w :
  conn_inv w → conn_inv (sendDataChannelMessage p m w).
Proof.
  intros H. unfold sendDataChannelMessage.
  destruct (map_get p (internal w)) as [a|]; [|done].
  destruct (conns w !! a) as [c|]; [|done].
  destruct (isConnected c); [|done]. by apply conn_inv_update.
Qed.

Lemma conn_inv_broadcast m w : conn_inv w → conn_inv (broadcast m w).
Proof.
  intros H. unfold broadcast. apply conn_inv_foldl; [|done].
  intros w0 e H0. destruct (conns w0 !! e.2) as [c|]; [|done].
  destruct (isConnected c); [|done]. by apply conn_inv_sendDataChannelMessage.
Qed.

Lemma conn_inv_set_internal m w :
  conn_inv w → NoDup m.*1 → NoDup m.*2 →
  (∀ k a, (k, a) ∈ m → ∃ c, conns w !! a = Some c ∧ id c = k) →
  conn_inv (set_internal m w).
Proof.
  intros (Hk & _ & _ & _ & Hal) H1 H2 H3.
  unfold conn_inv. rewrite internal_set_internal. done.
Qed.

Lemma conn_inv_closeConnection p w :
  conn_inv w → conn_inv (closeConnection p w).
Proof.
  intros H. unfold closeConnection.
  destruct (map_get p (internal w)) as [a|]; [|done]. cbn zeta.
  set (w1 := update_conn a (with_peer destroy) w).
  assert (H1 : conn_inv w1) by by apply conn_inv_update.
  eapply conn_inv_ext; [| | | |apply (conn_inv_set_internal
    (map_delete p (internal w1)) w1 H1)]; try done.
  - apply map_delete_NoDup, H1.
  - apply map_delete_NoDup, H1.
  - intros k a' [Hin _]%map_delete_elem.
    by apply (proj1 (proj2 (proj2 (proj2 H1)))).
Qed.

Lemma conn_inv_closeAllConnections w :
  conn_inv w → conn_inv (closeAllConnections w).
Proof.
  intros H. unfold closeAllConnections. cbn zeta.
  apply conn_inv_set_internal; try (cbn; apply NoDup_nil_2).
  - apply conn_inv_foldl; [|done]. intros w0 e H0.
    eapply conn_inv_ext; [| | | |apply (conn_inv_update e.2 (with_peer destroy) w0);
      [done|exact H0]]; done.
  - by intros k a ?%not_elem_of_nil.
Qed.

Lemma conn_inv_createConnection p i cid now w :
  conn_inv w → conn_inv (createConnection p i cid now w).1.
Proof.
  intros H. unfold createConnection.
  destruct (isInitialized w); [|done]. cbn [negb].
  destruct (localStream (audio w)) as [ls|]; [|done]. cbn [fst].
  destruct H as (Hk & Hnk & Hnv & Hreg & Hal).
  set (c0 := {| id := p; peer := _; stream := None; isConnected := false;
                isInitiator := i; createdAt := now |}).
  set (w1 := set_next _ _).
  assert (Hint : internal w1 = internal w) by done.
  assert (Hfresh : next w ∉ (internal w).*2).
  { intros ([k a] & Ha & Hin)%list_elem_of_fmap. cbn in Ha. subst a.
    destruct (Hreg k (next w) Hin) as (c & Hc & _).
    assert (next w < next w) by (apply Hal; eauto). lia. }
  unfold conn_inv. rewrite internal_set_internal, Hint. cbn.
  split; [lia|]. split; [by apply map_set_keys_NoDup|].
  split; [by apply map_set_values_NoDup|]. split.
  - intros k a [[-> ->]|Hin]%map_set_elem.
    + exists c0. by rewrite lookup_insert_eq.
    + destruct (Hreg k a Hin) as (c & Hc & Hid). exists c. split; [|done].
      rewrite lookup_insert_ne; [done|]. intros <-.
      assert (next w < next w) by (apply Hal; eauto). lia.
  - intros a. rewrite lookup_insert. case_decide as Ha; [lia|].
    intros Hs. apply Hal in Hs. lia.
Qed.

Lemma conn_inv_on_peer_event a e w :
  conn_inv w → conn_inv (on_peer_event a e w).
Proof.
  intros H. unfold on_peer_event. destruct (conns w !! a) as [c|]; [|done].
  destruct e; cbn zeta; try done.
  - eapply conn_inv_ext;
      [| | | |apply (conn_inv_update a (with_isConnected true) w); [done|exact H]];
      done.
  - eapply conn_inv_ext;
      [| | | |apply (conn_inv_update a (with_stream (Some s)) w); [done|exact H]];
      done.
  - eapply conn_inv_ext;
      [| | | |apply (conn_inv_update a (with_isConnected false) w); [done|exact H]];
      done.
Qed.

Lemma conn_inv_exec o w : conn_inv w → conn_inv (exec o w).1.
Proof.
  intros H. destruct o; cbn [exec fst].
  - unfold initialize. destruct (isInitialized w); [done|].
    destruct (audio_isInitialized (audio w)); [done|]. by destruct fails.
  - by apply conn_inv_createConnection.
  - unfold handleSignal. destruct (map_get from (internal w)); [|done].
    by apply conn_inv_update.
  - by apply conn_inv_sendDataChannelMessage.
  - by apply conn_inv_broadcast.
  - by apply conn_inv_broadcast.
  - by apply conn_inv_closeConnection.
  - done.
  - destruct H as (Hk & Hnk & Hnv & Hreg & Hal).
    unfold getAllConnections. cbn [fst].
    set (w1 := set_next _ _).
    assert (Hint : internal w1 = internal w).
    { unfold internal. cbn. rewrite lookup_insert_ne by lia. done. }
    unfold conn_inv. rewrite Hint. cbn. split; [lia|]. repeat split; try done.
    intros a Ha. apply Hal in Ha. lia.
  - done.
  - done.
  - by apply conn_inv_closeAllConnections.
  - unfold cleanup.
    eapply conn_inv_ext; [| | | |apply (conn_inv_closeAllConnections w H)]; done.
  - by apply conn_inv_on_peer_event.
Qed.

(** X10.  In every state the orchestrator reaches from a newly constructed
    manager, whatever operations and peer events are applied, each key of
    the private map has exactly one record, no two keys share a record, and
    the record [getConnection] returns for a key exists and has that key as
    its [id]. *)
Theorem orchestrator_invariant mic os :
  let w := (exec_all os (new_world mic)).1 in
  NoDup (internal w).*1 ∧ NoDup (internal w).*2 ∧
  ∀ k a, getConnection k w = Some a →
         ∃ c, conns w !! a = Some c ∧ id c = k.
Proof.
  assert (H0 : conn_inv (new_world mic)).
  { unfold conn_inv. cbn. split; [lia|]. split; [apply NoDup_nil_2|].
    split; [apply NoDup_nil_2|]. split.
    - by intros k a ?%not_elem_of_nil.
    - intros a [c Hc]. by rewrite lookup_empty in Hc. }
  assert (Hrun : ∀ os w, conn_inv w → conn_inv (exec_all os w).1).
  { clear. induction os as [|o os IH]; intros w H; cbn [exec_all]; [done|].
    pose proof (conn_inv_exec o w H) as H1.
    destruct (exec o w) as [w1 r]. cbn in H1.
    pose proof (IH w1 H1) as H2.
    destruct (exec_all os w1) as [w2 rs]. done. }
  intros w. destruct (Hrun os _ H0) as (_ & Hnk & Hnv & Hreg & _).
  fold w in Hnk, Hnv, Hreg. repeat split; try done.
  intros k a Ha. apply Hreg. by apply map_get_elem.
Qed.

Lemma conn_inv_new_world mic : conn_inv (new_world mic).
Proof.
  unfold conn_inv. cbn. split; [lia|]. split; [apply NoDup_nil_2|].
  split; [apply NoDup_nil_2|]. split.
  - by intros k a ?%not_elem_of_nil.
  - intros a [c Hc]. by rewrite lookup_empty in Hc.
Qed.

Lemma conn_inv_exec_all os : ∀ w, conn_inv w → conn_inv (exec_all os w).1.
Proof.
  induction os as [|o os IH]; intros w H; cbn [exec_all]; [done|].
  pose proof (conn_inv_exec o w H) as H1.
  destruct (exec o w) as [w1 r]. cbn in H1.
  pose proof (IH w1 H1) as H2.
  destruct (exec_all os w1) as [w2 rs]. done.
Qed.

Lemma conn_inv_three_peers : conn_inv three_peers.
Proof. apply conn_inv_exec_all, conn_inv_new_world. Qed.

Lemma createConnection_stores p init cid now ls w :
  isInitialized w = true → localStream (audio w) = Some ls →
  let w' := (createConnection p init cid now w).1 in
  (createConnection p init cid now w).2 = RVoid ∧
  internal w' = map_set p (next w) (internal w) ∧
  conns w' =
    <[next w :=
        {| id := p;
           peer := {| destroyed := false; initiator := init;
                      local_stream := ls; callId := cid;
                      signalled := []; data_sent := [] |};
           stream := None; isConnected := false; isInitiator := init;
           createdAt := now |}]> (conns w) ∧
  audio w' = audio w ∧ emitted w' = emitted w.
Proof.
  intros Hi Hls. unfold createConnection. rewrite Hi, Hls. cbn [negb fst snd].
  by rewrite internal_set_internal.
Qed.

(** X11.  [createConnection] either throws and changes nothing (the manager
    is not initialized, or the audio manager has no local stream), or it
    stores one new record under the peer id: [getConnection] returns it, it
    is not connected, not destroyed, has the requested role and the local
    stream attached, and the records of all other peers, and every record
    object that existed before, are untouched. *)
Theorem createConnection_outcome p init cid now w :
  let w' := (createConnection p init cid now w).1 in
  let r := (createConnection p init cid now w).2 in
  (isInitialized w = false →
     r = RThrow "WebRTCManager not initialized" ∧ w' = w) ∧
  (isInitialized w = true → localStream (audio w) = None →
     r = RThrow "No local audio stream available" ∧ w' = w) ∧
  (∀ ls, isInitialized w = true → localStream (audio w) = Some ls →
     r = RVoid ∧
     getConnection p w' = Some (next w) ∧
     conns w' !! next w =
       Some {| id := p;
               peer := {| destroyed := false; initiator := init;
                          local_stream := ls; callId := cid;
                          signalled := []; data_sent := [] |};
               stream := None; isConnected := false; isInitiator := init;
               createdAt := now |} ∧
     (∀ q, q ≠ p → getConnection q w' = getConnection q w) ∧
     (∀ a, a ≠ next w → conns w' !! a = conns w !! a) ∧
     audio w' = audio w ∧ emitted w' = emitted w).
Proof.
  cbn zeta. split; [|split].
  - unfold createConnection. by intros ->.
  - unfold createConnection. by intros -> ->.
  - intros ls Hi Hls.
    destruct (createConnection_stores p init cid now ls w Hi Hls)
      as (Hr & Hint & Hcs & Ha & He).
    unfold getConnection. rewrite Hint, Hcs.
    split; [done|]. split; [apply map_get_set|].
    split; [apply lookup_insert_eq|]. split; [|split; [|done]].
    + intros q Hq. by rewrite map_get_set_ne.
    + intros a' Ha'. by rewrite lookup_insert_ne.
Qed.

Lemma createConnection_outcome_witness :
  (createConnection "E" false "call-1" 1703 three_peers).2 = RVoid ∧
  getConnection "E" (createConnection "E" false "call-1" 1703 three_peers).1 =
    Some 4 ∧
  getConnection "B" (createConnection "E" false "call-1" 1703 three_peers).1 =
    Some 1.
Proof.
  destruct (createConnection_outcome "E" false "call-1" 1703 three_peers)
    as (_ & _ & H).
  destruct (H 3 eq_refl eq_refl) as (Hr & Hget & _ & Hoth & _).
  split; [exact Hr|]. split; [exact Hget|].
  etransitivity; [apply Hoth; done|reflexivity].
Defined.

(** X12.  A second [createConnection] for a peer id that already has a
    record is not rejected: the key now refers to the new record, the map
    has as many entries as before, and the old record is no longer reachable
    from any key.  The old record object and its peer are left exactly as
    they were, and closing the peer id afterwards destroys only the new
    peer, never the old one. *)
Theorem duplicate_create_replaces p init cid now ls a c w :
  conn_inv w → isInitialized w = true → localStream (audio w) = Some ls →
  getConnection p w = Some a → conns w !! a = Some c →
  let w' := (createConnection p init cid now w).1 in
  getConnection p w' = Some (next w) ∧ a ≠ next w ∧
  length (internal w') = length (internal w) ∧
  (∀ k, getConnection k w' ≠ Some a) ∧
  conns w' !! a = Some c ∧
  conns (closeConnection p w') !! a = Some c.
Proof.
  intros I Hi Hls Hget Hc w'.
  destruct (createConnection_stores p init cid now ls w Hi Hls)
    as (_ & Hint & Hcs & _).
  fold w' in Hint, Hcs.
  pose proof I as (Hk & Hnk & Hnv & Hreg & Hal).
  assert (Hlt : a < next w) by (apply Hal; eauto).
  assert (Hne : a ≠ next w) by lia.
  assert (I' : conn_inv w') by by apply conn_inv_createConnection.
  assert (Hnew : getConnection p w' = Some (next w)).
  { unfold getConnection. rewrite Hint. apply map_get_set. }
  assert (Hca : conns w' !! a = Some c).
  { rewrite Hcs. by rewrite lookup_insert_ne. }
  split; [done|]. split; [done|]. split; [|split; [|split; [done|]]].
  - rewrite Hint. rewrite <- !(length_fmap fst), map_set_keys.
    rewrite bool_decide_eq_true_2; [done|].
    apply list_elem_of_fmap. exists (p, a). split; [done|].
    by apply map_get_elem.
  - intros k Hk'. unfold getConnection in Hk'.
    apply map_get_elem in Hk'. pose proof Hk' as Hin'.
    rewrite Hint in Hk'. apply map_set_elem in Hk' as [[-> ->]|Hin]; [done|].
    assert (k = p) as ->.
    { apply map_get_elem in Hget.
      destruct (decide (k = p)) as [|Hkp]; [done|]. exfalso.
      apply list_elem_of_lookup in Hin as [i Hi1].
      apply list_elem_of_lookup in Hget as [j Hj].
      assert (i = j).
      { eapply (NoDup_lookup _ i j a Hnv); rewrite list_lookup_fmap.
        - by rewrite Hi1.
        - by rewrite Hj. }
      subst j. congruence. }
    pose proof (map_get_NoDup p a (internal w')
                  (proj1 (proj2 I')) Hin') as Hget'.
    unfold getConnection in Hnew. congruence.
  - unfold closeConnection. unfold getConnection in Hnew. rewrite Hnew. cbn.
    rewrite lookup_alter_ne by done. exact Hca.
Qed.

Lemma duplicate_create_replaces_witness :
  let w' := (createConnection "B" false "call-2" 1800 three_peers).1 in
  conn_inv three_peers ∧ getConnection "B" three_peers = Some 1 ∧
  getConnection "B" w' = Some 4 ∧
  length (internal w') = length (internal three_peers).
Proof.
  intros w'.
  split; [apply conn_inv_three_peers|]. split; [reflexivity|].
  destruct (duplicate_create_replaces "B" false "call-2" 1800 3 1 _ three_peers
              conn_inv_three_peers eq_refl eq_refl eq_refl eq_refl)
    as (Hnew & _ & Hlen & _).
  split; [exact Hnew|exact Hlen].
Defined.

Lemma removeRemoteStream_absent k k' a :
  map_get k (remoteStreams a) = None →
  map_get k (remoteStreams (removeRemoteStream k' a)) = None.
Proof.
  intros H. unfold removeRemoteStream.
  destruct (map_get k' (remoteStreams a)); [|done]. cbn.
  destruct (decide (k = k')) as [->|Hne]; [apply map_get_delete|].
  by rewrite map_get_delete_ne.
Qed.

Lemma closeAllConnections_loop w :
  closeAllConnections w = set_internal [] (foldl close_one w (internal w)).
Proof. done. Qed.

Lemma broadcast_as_loop m w :
  broadcast m w = foldl (send_one m) w (internal w).
Proof. done. Qed.

Lemma closeAll_loop (l : list (string * nat)) : ∀ w,
  let w1 := foldl close_one w l in
  maps w1 = maps w ∧ next w1 = next w ∧ connections w1 = connections w ∧
  isInitialized w1 = isInitialized w ∧ emitted w1 = emitted w ∧
  (∀ a, conns w1 !! a =
        if bool_decide (a ∈ l.*2) then with_peer destroy <$> conns w !! a
        else conns w !! a) ∧
  (∀ k, k ∈ l.*1 ∨ map_get k (remoteStreams (audio w)) = None →
        map_get k (remoteStreams (audio w1)) = None).
Proof.
  induction l as [|[k0 a0] l IH]; intros w; cbn zeta.
  - cbn. repeat split; try done. intros k [?%not_elem_of_nil|?]; done.
  - cbn [foldl].
    set (w' := close_one w (k0, a0)).
    destruct (IH w') as (-> & -> & -> & -> & -> & Hc & Hr).
    repeat split; try done.
    + intros a. rewrite Hc. subst w'. unfold close_one. cbn.
      rewrite lookup_alter.
      destruct (decide (a = a0)) as [->|Hne].
      * rewrite decide_True by done.
        rewrite (bool_decide_eq_true_2 (a0 ∈ a0 :: l.*2)) by by left.
        destruct (conns w !! a0) as [c|]; [|by case_bool_decide].
        cbn. by case_bool_decide.
      * rewrite decide_False by done.
        assert (Hb : bool_decide (a ∈ a0 :: l.*2) = bool_decide (a ∈ l.*2)).
        { apply bool_decide_ext. rewrite elem_of_cons. tauto. }
        by rewrite Hb.
    + intros k Hk. apply Hr. subst w'. unfold close_one. cbn.
      destruct Hk as [[->|Hk]%elem_of_cons|Hk].
      * right. apply removeRemoteStream_gone.
      * by left.
      * right. by apply removeRemoteStream_absent.
Qed.

(** X13.  [closeAllConnections] empties the private map, so no peer can be
    looked up and none counts as connected; the peer of every record that
    was in the map is destroyed, records that were not in the map are left
    alone, and the audio manager holds no remote stream for any of the
    closed peers.  Calling it again changes nothing.  After [cleanup()] the
    manager is uninitialized and [createConnection] throws. *)
Theorem closeAllConnections_outcome w :
  let w' := closeAllConnections w in
  internal w' = [] ∧ (∀ k, getConnection k w' = None) ∧
  getConnectedPeerCount w' = 0 ∧ hasActiveConnections w' = false ∧
  (∀ k a c, (k, a) ∈ internal w → conns w !! a = Some c →
     conns w' !! a = Some (with_peer destroy c)) ∧
  (∀ a, a ∉ (internal w).*2 → conns w' !! a = conns w !! a) ∧
  (∀ k, k ∈ (internal w).*1 → getRemoteStream k (audio w') = None) ∧
  closeAllConnections w' = w' ∧
  (∀ p i cid now,
     (createConnection p i cid now (cleanup w)).2 =
     RThrow "WebRTCManager not initialized").
Proof.
  intros w'. subst w'. rewrite closeAllConnections_loop.
  set (w1 := foldl close_one w (internal w)).
  destruct (closeAll_loop (internal w) w) as (Hm & Hn & Hk & Hi & He & Hc & Hr).
  fold w1 in Hm, Hn, Hk, Hi, He, Hc, Hr.
  assert (Hint : internal (set_internal [] w1) = []) by apply internal_set_internal.
  split; [done|]. split; [by intros k; unfold getConnection; rewrite Hint|].
  split; [by unfold getConnectedPeerCount; rewrite Hint|].
  split; [by unfold hasActiveConnections, getConnectedPeerCount; rewrite Hint|].
  split; [|split; [|split; [|split]]].
  - intros k a c Hin Hca. cbn. rewrite Hc, Hca.
    rewrite bool_decide_eq_true_2; [done|].
    apply list_elem_of_fmap. by exists (k, a).
  - intros a Ha. cbn. rewrite Hc. by rewrite bool_decide_eq_false_2.
  - intros k Hin. unfold getRemoteStream. cbn. apply Hr. by left.
  - rewrite closeAllConnections_loop, Hint. cbn. unfold set_internal. cbn.
    by rewrite insert_insert_eq.
  - intros p i cid now. unfold cleanup, createConnection. done.
Qed.

Lemma broadcast_fold m (l : list (string * nat)) : ∀ w,
  (∀ k a, (k, a) ∈ l → map_get k (internal w) = Some a) → NoDup l.*2 →
  let w1 := foldl (send_one m) w l in
  maps w1 = maps w ∧ next w1 = next w ∧ connections w1 = connections w ∧
  isInitialized w1 = isInitialized w ∧ audio w1 = audio w ∧
  emitted w1 = emitted w ∧
  (∀ a c, conns w !! a = Some c →
     conns w1 !! a =
     Some (if bool_decide (a ∈ l.*2) && isConnected c
           then with_peer (send m) c else c)) ∧
  (∀ a, conns w !! a = None → conns w1 !! a = None).
Proof.
  induction l as [|[k0 a0] l IH]; intros w Hget Hnd; cbn zeta.
  - cbn. repeat split; try done.
  - cbn [foldl]. cbn in Hnd. apply NoDup_cons in Hnd as [Ha0 Hnd].
    assert (Hget0 : map_get k0 (internal w) = Some a0) by (apply Hget; by left).
    assert (Hrest : ∀ k a, (k, a) ∈ l → map_get k (internal w) = Some a)
      by (intros k a Hin; apply Hget; by right).
    assert (Hb : ∀ a, a ≠ a0 →
              bool_decide (a ∈ (((k0, a0) :: l).*2)) = bool_decide (a ∈ l.*2)).
    { intros a Hne. apply bool_decide_ext. cbn. rewrite elem_of_cons.
      tauto. }
    assert (Hskip :
      (let w1 := foldl (send_one m) w l in
       (∀ c0, conns w !! a0 = Some c0 → isConnected c0 = false) →
       maps w1 = maps w ∧ next w1 = next w ∧ connections w1 = connections w ∧
       isInitialized w1 = isInitialized w ∧ audio w1 = audio w ∧
       emitted w1 = emitted w ∧
       (∀ a c, conns w !! a = Some c →
          conns w1 !! a =
          Some (if bool_decide (a ∈ ((k0, a0) :: l).*2) && isConnected c
                then with_peer (send m) c else c)) ∧
       (∀ a, conns w !! a = None → conns w1 !! a = None))).
    { intros w1 Hoff. subst w1.
      destruct (IH w Hrest Hnd) as (?&?&?&?&?&?&Hc&Hno).
      repeat split; try done. intros a c Hca. rewrite (Hc a c Hca).
      destruct (decide (a = a0)) as [->|Hne].
      - rewrite (Hoff c Hca), !andb_false_r. done.
      - by rewrite Hb. }
    destruct (conns w !! a0) as [c0|] eqn:Hc0.
    2:{ assert (Hs : send_one m w (k0, a0) = w)
          by (unfold send_one; cbn; by rewrite Hc0).
        rewrite Hs. apply Hskip. congruence. }
    destruct (isConnected c0) eqn:Hon.
    2:{ assert (Hs : send_one m w (k0, a0) = w)
          by (unfold send_one; cbn; by rewrite Hc0, Hon).
        rewrite Hs. apply Hskip. congruence. }
    clear Hskip.
    assert (Hsend : send_one m w (k0, a0) =
                    update_conn a0 (with_peer (send m)) w).
    { unfold send_one, sendDataChannelMessage. cbn.
      by rewrite Hc0, Hon, Hget0, Hc0, Hon. }
    rewrite Hsend. set (w' := update_conn a0 (with_peer (send m)) w).
    destruct (IH w' Hrest Hnd) as (-> & -> & -> & -> & -> & -> & Hc & Hno).
    repeat split; try done.
    + intros a c Hca. destruct (decide (a = a0)) as [->|Hne].
      * assert (c = c0) as -> by congruence.
        rewrite (Hc a0 (with_peer (send m) c0)).
        -- rewrite (bool_decide_eq_false_2 (a0 ∈ l.*2)) by done.
           rewrite (bool_decide_eq_true_2 (a0 ∈ ((k0, a0) :: l).*2)) by by left.
           cbn. by rewrite Hon.
        -- subst w'. cbn. by rewrite lookup_alter_eq, Hc0.
      * rewrite (Hc a c); [by rewrite Hb|].
        subst w'. cbn. by rewrite lookup_alter_ne.
    + intros a Hca. apply Hno. subst w'. cbn.
      destruct (decide (a = a0)) as [->|Hne]; [congruence|].
      by rewrite lookup_alter_ne.
Qed.

(** X14.  A broadcast reaches each connected peer exactly once: in a state
    that satisfies the record invariant, [broadcast] (the loop of
    [broadcastMuteStatus] and [broadcastAudioLevel]) calls [send] once on
    the peer of every record that is in the private map and connected, so a
    live peer's outbox grows by exactly the one message; records that are
    not connected or not in the map are untouched, and nothing else
    changes. *)
Theorem broadcast_reaches_connected_once m w :
  conn_inv w →
  let w' := broadcast m w in
  (∀ a c, conns w !! a = Some c →
     conns w' !! a =
     Some (if bool_decide (a ∈ (internal w).*2) && isConnected c
           then with_peer (send m) c else c)) ∧
  (∀ k a c, getConnection k w = Some a → conns w !! a = Some c →
     isConnected c = true → destroyed (peer c) = false →
     ∃ c', conns w' !! a = Some c' ∧
           data_sent (peer c') = data_sent (peer c) ++ [m]) ∧
  maps w' = maps w ∧ audio w' = audio w ∧ emitted w' = emitted w ∧
  next w' = next w.
Proof.
  intros (Hk & Hnk & Hnv & Hreg & Hal) w'. subst w'.
  rewrite broadcast_as_loop.
  destruct (broadcast_fold m (internal w) w) as (Hm & Hn & _ & _ & Ha & He & Hc & _).
  - intros k a Hin. by apply map_get_NoDup.
  - done.
  - split; [exact Hc|]. split; [|done].
    intros k a c Hget Hca Hon Hlive. rewrite (Hc a c Hca), Hon.
    rewrite bool_decide_eq_true_2.
    + eexists. split; [done|]. cbn. unfold send. by rewrite Hlive.
    + apply list_elem_of_fmap. exists (k, a). split; [done|].
      by apply map_get_elem.
Qed.

Lemma broadcast_reaches_connected_once_witness :
  let msg := JObj [("type", JStr "mute-status"); ("isMuted", JBool true);
                   ("timestamp", JNum 1800)] in
  let w' := broadcastMuteStatus true 1800 three_peers in
  conn_inv three_peers ∧
  (data_sent ∘ peer <$> conns w' !! 1) = Some [msg] ∧
  (data_sent ∘ peer <$> conns w' !! 2) = Some [msg] ∧
  (data_sent ∘ peer <$> conns w' !! 3) = Some [].
Proof.
  intros msg w'.
  split; [apply conn_inv_three_peers|].
  destruct (broadcast_reaches_connected_once msg three_peers conn_inv_three_peers)
    as (Hc & _).
  change w' with (broadcast msg three_peers).
  split; [|split]; (erewrite Hc by reflexivity); reflexivity.
Defined.

Lemma on_peer_event_keeps a e w :
  maps (on_peer_event a e w) = maps w ∧
  connections (on_peer_event a e w) = connections w ∧
  ∀ a' c, conns w !! a' = Some c →
    ∃ c', conns (on_peer_event a e w) !! a' = Some c' ∧ peer c' = peer c.
Proof.
  unfold on_peer_event. destruct (conns w !! a) as [c0|] eqn:Hc0; [|eauto].
  assert (Halt : ∀ f, (∀ c, peer (f c) = peer c) →
            ∀ a' c, conns w !! a' = Some c →
              ∃ c', alter f a (conns w) !! a' = Some c' ∧ peer c' = peer c).
  { intros f Hf a' c Hc. rewrite lookup_alter. case_decide as Ha.
    - subst a'. rewrite Hc. cbn. eauto.
    - eauto. }
  destruct e; cbn zeta; cbn; repeat split; eauto.
Qed.

Lemma peer_events_keep evs : ∀ w,
  internal (peer_events evs w) = internal w ∧
  ∀ a c, conns w !! a = Some c →
    ∃ c', conns (peer_events evs w) !! a = Some c' ∧ peer c' = peer c.
Proof.
  induction evs as [|[a0 e] evs IH]; intros w; [by eauto|].
  change (peer_events ((a0, e) :: evs) w)
    with (peer_events evs (on_peer_event a0 e w)).
  destruct (on_peer_event_keeps a0 e w) as (Hm & Hk & Hc).
  destruct (IH (on_peer_event a0 e w)) as (Hint & Hcs). split.
  - rewrite Hint. unfold internal. by rewrite Hm, Hk.
  - intros a c Hca. destruct (Hc a c Hca) as (c1 & Hc1 & Hp1).
    destruct (Hcs a c1 Hc1) as (c2 & Hc2 & Hp2). exists c2.
    split; [done|congruence].
Qed.

(** X15.  A closed peer stays closed: after [closeConnection(p)], signals
    for [p] and data-channel messages to [p] are ignored, and whatever peer
    events still arrive, for the closed record or any other, [p] does not
    come back into the private map and the peer of the closed record stays
    destroyed. *)
Theorem closed_peer_stays_closed p w :
  let w' := closeConnection p w in
  (∀ sg, handleSignal p sg w' = w') ∧
  (∀ m, sendDataChannelMessage p m w' = w') ∧
  (∀ evs, getConnection p (peer_events evs w') = None) ∧
  (∀ evs a c, getConnection p w = Some a → conns w !! a = Some c →
     ∃ c', conns (peer_events evs w') !! a = Some c' ∧
           destroyed (peer c') = true).
Proof.
  intros w'.
  assert (Hgone : map_get p (internal w') = None).
  { subst w'. destruct (map_get p (internal w)) as [a|] eqn:Ha.
    - rewrite (closeConnection_internal p a w Ha). apply map_get_delete.
    - unfold closeConnection. by rewrite Ha. }
  split; [|split; [|split]].
  - intros sg. unfold handleSignal. by rewrite Hgone.
  - intros m. unfold sendDataChannelMessage. by rewrite Hgone.
  - intros evs. unfold getConnection.
    destruct (peer_events_keep evs w') as [-> _]. done.
  - intros evs a c Ha Hc.
    assert (Hc' : conns w' !! a = Some (with_peer destroy c)).
    { subst w'. unfold closeConnection. unfold getConnection in Ha.
      rewrite Ha. cbn. by rewrite lookup_alter_eq, Hc. }
    destruct (peer_events_keep evs w') as [_ Hk].
    destruct (Hk a _ Hc') as (c' & Hc1 & Hp). exists c'. split; [done|].
    by rewrite Hp.
Qed.

Lemma closed_peer_stays_closed_witness :
  let w' := closeConnection "B" three_peers in
  getConnection "B" three_peers = Some 1 ∧
  getConnection "B" (peer_events [(1, PeConnect); (1, PeStream 8)] w') = None ∧
  (destroyed ∘ peer <$>
     conns (peer_events [(1, PeConnect); (1, PeStream 8)] w') !! 1) = Some true.
Proof.
  intros w'. split; [reflexivity|].
  destruct (closed_peer_stays_closed "B" three_peers) as (_ & _ & Hget & Hd).
  split; [apply Hget|].
  destruct (Hd [(1, PeConnect); (1, PeStream 8)] 1 _ eq_refl eq_refl)
    as (c' & Hc' & Hdes).
  fold w' in Hc'. rewrite Hc'. cbn. by rewrite Hdes.
Defined.

(** X16.  Remote streams in the audio manager: after
    [addRemoteStream(p, s)], [getRemoteStream(p)] is [s] and the streams of
    other peers are as before; [removeRemoteStream(p)] then stops [s],
    forgets it, leaves the other peers' streams alone, and doing it again
    changes nothing. *)
Theorem remote_stream_round_trip p s a :
  let a1 := addRemoteStream p s a in
  let a2 := removeRemoteStream p a1 in
  getRemoteStream p a1 = Some s ∧
  (∀ q, q ≠ p → getRemoteStream q a1 = getRemoteStream q a) ∧
  getRemoteStream p a2 = None ∧
  stopped a2 = stopped a ++ [s] ∧
  (∀ q, q ≠ p → getRemoteStream q a2 = getRemoteStream q a) ∧
  localStream a2 = localStream a ∧
  removeRemoteStream p a2 = a2.
Proof.
  intros a1 a2. unfold getRemoteStream.
  assert (H1 : map_get p (remoteStreams a1) = Some s) by apply map_get_set.
  assert (Ha2 : a2 = {| audio_isInitialized := audio_isInitialized a;
                        localStream := localStream a;
                        remoteStreams := map_delete p (remoteStreams a1);
                        stopped := stopped a ++ [s] |}).
  { subst a2. unfold removeRemoteStream. by rewrite H1. }
  assert (Hgone : map_get p (remoteStreams a2) = None)
    by (rewrite Ha2; apply map_get_delete).
  split; [done|]. split; [|split; [done|split; [by rewrite Ha2|split; [|split]]]].
  - intros q Hq. by apply map_get_set_ne.
  - intros q Hq. rewrite Ha2. cbn [remoteStreams].
    rewrite map_get_delete_ne by done. by apply map_get_set_ne.
  - by rewrite Ha2.
  - unfold removeRemoteStream. by rewrite Hgone.
Qed.

(** X17.  [AudioManager.cleanup()] stops every stream the audio manager
    held, the local one and all remote ones, and forgets them.  A manager
    that was initialized stays so: its [initialize()] returns without
    initializing the audio manager again, and every [createConnection]
    throws for want of a local stream, changing nothing. *)
Theorem audio_cleanup_outcome w :
  let w' := set_audio (audio_cleanup (audio w)) w in
  localStream (audio w') = None ∧
  (∀ k, getRemoteStream k (audio w') = None) ∧
  (∀ s, localStream (audio w) = Some s → s ∈ stopped (audio w')) ∧
  (∀ k s, (k, s) ∈ remoteStreams (audio w) → s ∈ stopped (audio w')) ∧
  (isInitialized w = true →
     (∀ fails, initialize fails w' = (w', RVoid)) ∧
     (∀ p i cid now,
        createConnection p i cid now w' =
        (w', RThrow "No local audio stream available"))).
Proof.
  intros w'. subst w'. cbn. split; [done|]. split; [done|].
  split; [|split].
  - intros s Hs. rewrite Hs. cbn. rewrite elem_of_app, elem_of_cons. auto.
  - intros k s Hin. rewrite !elem_of_app. right. right.
    apply list_elem_of_fmap. by exists (k, s).
  - intros Hi. split.
    + intros fails. unfold initialize. cbn. by rewrite Hi.
    + intros p i cid now. unfold createConnection. cbn. by rewrite Hi.
Qed.

Lemma audio_cleanup_outcome_witness :
  let w' := set_audio (audio_cleanup (audio three_peers)) three_peers in
  isInitialized three_peers = true ∧
  stopped (audio w') = [3; 7] ∧
  (createConnection "E" true "call-1" 1900%Z w').2 =
    RThrow "No local audio stream available".
Proof.
  intros w'. split; [reflexivity|]. split; [reflexivity|].
  destruct (audio_cleanup_outcome three_peers) as (_ & _ & _ & _ & H).
  destruct (H eq_refl) as [_ Hc]. fold w' in Hc.
  by rewrite (Hc "E" true "call-1" 1900%Z).
Defined.

End OrchestratorProofs.

(* ===================================================================== *)
(** * Properties of [LocalAudio] and [Room] *)
(* ===================================================================== *)

Module RoomProofs.
Import Room.

(** ** Muting *)

Lemma toggleMute_isMuted ls :
  LocalAudio.isMuted (LocalAudio.toggleMute ls).1 = LocalAudio.isMuted ls.
Proof.
  destruct ls as [[|b tr]|]; [done| |done].
  cbn. by destruct b.
Qed.

(** X18.  [AudioManager.toggleMute()] does not toggle: it computes the
    new state as the negation of the first track's [enabled] flag and then
    sets every track to the negation of that, so the first track keeps its
    flag, the other tracks take it over, and [isMuted()] answers as before.
    With a local stream the value returned is what [isMuted()] answers;
    without one [toggleMute()] returns [false] although [isMuted()] is
    [true]. *)
Theorem toggleMute_keeps_mute_state ls :
  let ls' := (LocalAudio.toggleMute ls).1 in
  LocalAudio.isMuted ls' = LocalAudio.isMuted ls ∧
  (∀ audioTracks, ls = Some audioTracks →
     (LocalAudio.toggleMute ls).2 = LocalAudio.isMuted ls ∧
     ∃ audioTracks', ls' = Some audioTracks' ∧
       length audioTracks' = length audioTracks ∧
       head audioTracks' = head audioTracks ∧
       ∀ b, b ∈ audioTracks' → b = LocalAudio.first_enabled audioTracks) ∧
  (ls = None →
     ls' = None ∧ (LocalAudio.toggleMute ls).2 = false ∧
     LocalAudio.isMuted ls = true).
Proof.
  cbn zeta. split; [apply toggleMute_isMuted|]. split.
  - intros tr ->. split.
    + destruct tr as [|b tr]; [done|]. cbn. by destruct b.
    + eexists. split; [reflexivity|]. split; [by rewrite length_map|]. split.
      * destruct tr as [|b tr]; [done|]. cbn. by rewrite negb_involutive.
      * intros b Hb. apply list_elem_of_In, in_map_iff in Hb as (x & <- & _).
        apply negb_involutive.
  - by intros ->.
Qed.

Lemma set_self_muted_ids b prev :
  p_id <$> set_self_muted b prev = p_id <$> prev.
Proof.
  unfold set_self_muted. induction prev as [|p prev IH]; [done|].
  cbn. rewrite <- IH. f_equal. by destruct (decide (p_id p = "self")).
Qed.

Lemma set_connection_state_ids x st prev :
  p_id <$> set_connection_state x st prev = p_id <$> prev.
Proof.
  unfold set_connection_state. induction prev as [|p prev IH]; [done|].
  cbn. rewrite <- IH. f_equal. by destruct (decide (p_id p = x)).
Qed.

Lemma toggleMute_fields now r :
  isMuted (toggleMute now r) = negb (isMuted r) ∧
  tracks (toggleMute now r) = (LocalAudio.toggleMute (tracks r)).1 ∧
  participants (toggleMute now r) =
    set_self_muted (negb (isMuted r)) (participants r) ∧
  webrtcManagerRef (toggleMute now r) = webrtcManagerRef r ∧
  manager (toggleMute now r) =
    if webrtcManagerRef r
    then Orchestrator.broadcastMuteStatus (negb (isMuted r)) now (manager r)
    else manager r.
Proof.
  destruct r as [? ? ? ? ? [] ? ? ? ?]; done.
Qed.

(** X19.  The mute button and the microphone: a click flips the mute flag
    of the page and of the roster entry "self", but never changes what
    [AudioManager.isMuted()] answers, however often the button is clicked.
    So when the page and the microphone agree before a click, they disagree
    after it. *)
Theorem mute_button_leaves_microphone now r :
  let r' := toggleMute now r in
  isMuted r' = negb (isMuted r) ∧
  (∀ p, p ∈ participants r' → p_id p = "self" →
        p_isMuted p = negb (isMuted r)) ∧
  (∀ n, LocalAudio.isMuted (tracks (Nat.iter n (toggleMute now) r)) =
        LocalAudio.isMuted (tracks r)) ∧
  (isMuted r = LocalAudio.isMuted (tracks r) →
   isMuted r' = negb (LocalAudio.isMuted (tracks r'))).
Proof.
  cbn zeta. destruct (toggleMute_fields now r) as (Hm & Ht & Hp & _).
  split; [done|]. split; [|split].
  - intros p Hin Hself. rewrite Hp in Hin. unfold set_self_muted in Hin.
    apply list_elem_of_In, in_map_iff in Hin as (q & <- & _).
    destruct (decide (p_id q = "self")) as [|Hq]; [done|].
    by destruct Hq.
  - induction n as [|n IH]; [done|].
    change (Nat.iter (S n) (toggleMute now) r)
      with (toggleMute now (Nat.iter n (toggleMute now) r)).
    destruct (toggleMute_fields now (Nat.iter n (toggleMute now) r))
      as (_ & -> & _).
    by rewrite toggleMute_isMuted.
  - intros Hagree. rewrite Hm, Ht, toggleMute_isMuted. by rewrite Hagree.
Qed.

Lemma mute_button_leaves_microphone_witness :
  isMuted ready_room = LocalAudio.isMuted (tracks ready_room) ∧
  isMuted (toggleMute 1800 ready_room) = true ∧
  LocalAudio.isMuted (tracks (toggleMute 1800 ready_room)) = false.
Proof.
  split; [reflexivity|].
  destruct (mute_button_leaves_microphone 1800 ready_room)
    as (Hm & _ & _ & Hd).
  split; [exact Hm|].
  apply negb_true_iff. rewrite <- (Hd eq_refl). exact Hm.
Defined.

(** ** The roster and the manager *)

Lemma has_id_true x prev : has_id x prev = true ↔ x ∈ p_id <$> prev.
Proof. unfold has_id. apply bool_decide_eq_true. Qed.

Lemma add_participant_spec pid nick prev :
  NoDup (p_id <$> prev) →
  NoDup (p_id <$> add_participant pid nick prev) ∧
  pid ∈ p_id <$> add_participant pid nick prev ∧
  ∀ k, k ∈ p_id <$> prev → k ∈ p_id <$> add_participant pid nick prev.
Proof.
  intros Hnd. unfold add_participant.
  destruct (has_id pid prev) eqn:Hh.
  - apply has_id_true in Hh. done.
  - assert (Hnin : pid ∉ p_id <$> prev).
    { intros Hin%has_id_true. congruence. }
    rewrite fmap_app. cbn. split; [|split].
    + apply NoDup_app. split; [done|]. split; [|apply NoDup_singleton].
      intros x Hx ->%list_elem_of_singleton. done.
    + rewrite elem_of_app. right. by left.
    + intros k Hk. rewrite elem_of_app. by left.
Qed.

Lemma add_self_spec nick prev :
  NoDup (p_id <$> prev) →
  NoDup (p_id <$> add_self nick prev) ∧
  ∀ k, k ∈ p_id <$> prev → k ∈ p_id <$> add_self nick prev.
Proof.
  intros Hnd. unfold add_self.
  destruct (has_id "self" prev) eqn:Hh; [done|].
  assert (Hnin : "self" ∉ p_id <$> prev).
  { intros Hin%has_id_true. congruence. }
  rewrite fmap_app. cbn. split.
  - apply NoDup_app. split; [done|]. split; [|apply NoDup_singleton].
    intros x Hx ->%list_elem_of_singleton. done.
  - intros k Hk. rewrite elem_of_app. by left.
Qed.

Lemma remove_participant_spec pid prev :
  NoDup (p_id <$> prev) →
  NoDup (p_id <$> remove_participant pid prev) ∧
  ∀ k, k ∈ p_id <$> remove_participant pid prev ↔
       k ∈ p_id <$> prev ∧ k ≠ pid.
Proof.
  intros Hnd. unfold remove_participant. split.
  - eapply sublist_NoDup; [exact Hnd|]. apply fmap_sublist, sublist_filter.
  - intros k. rewrite !list_elem_of_fmap. split.
    + intros (p & -> & [Hp Hin]%list_elem_of_filter). eauto.
    + intros [(p & -> & Hin) Hne]. exists p. split; [done|].
      by apply list_elem_of_filter.
Qed.

Lemma internal_createConnection p init cid now w k a :
  (k, a) ∈ Orchestrator.internal
             (Orchestrator.createConnection p init cid now w).1 →
  k = p ∨ (k, a) ∈ Orchestrator.internal w.
Proof.
  unfold Orchestrator.createConnection.
  destruct (negb (Orchestrator.isInitialized w)); [by right|].
  destruct (Orchestrator.localStream (Orchestrator.audio w)); [|by right].
  cbn [fst]. rewrite OrchestratorProofs.internal_set_internal.
  intros [[-> _]|Hin]%OrchestratorProofs.map_set_elem; [by left|by right].
Qed.

Lemma internal_closeConnection p w k a :
  (k, a) ∈ Orchestrator.internal (Orchestrator.closeConnection p w) →
  (k, a) ∈ Orchestrator.internal w ∧ k ≠ p.
Proof.
  destruct (map_get p (Orchestrator.internal w)) as [a0|] eqn:Hg.
  - rewrite (OrchestratorProofs.closeConnection_internal p a0 w Hg).
    by intros ?%OrchestratorProofs.map_delete_elem.
  - unfold Orchestrator.closeConnection. rewrite Hg. intros Hin.
    split; [done|]. intros ->.
    apply OrchestratorProofs.map_get_None in Hg. apply Hg.
    apply list_elem_of_fmap. by exists (p, a).
Qed.

Lemma internal_handleSignal from sg w :
  Orchestrator.internal (Orchestrator.handleSignal from sg w) =
  Orchestrator.internal w.
Proof.
  unfold Orchestrator.handleSignal.
  by destruct (map_get from (Orchestrator.internal w)).
Qed.

Lemma internal_sendDataChannelMessage p m w :
  Orchestrator.internal (Orchestrator.sendDataChannelMessage p m w) =
  Orchestrator.internal w.
Proof.
  unfold Orchestrator.sendDataChannelMessage.
  destruct (map_get p (Orchestrator.internal w)) as [a|]; [|done].
  destruct (Orchestrator.conns w !! a) as [c|]; [|done].
  by destruct (Orchestrator.isConnected c).
Qed.

Lemma internal_broadcast m w :
  Orchestrator.internal (Orchestrator.broadcast m w) = Orchestrator.internal w.
Proof.
  unfold Orchestrator.broadcast.
  generalize (Orchestrator.internal w) at 1 as l.
  intros l. revert w. induction l as [|e l IH]; intros w; [done|].
  cbn [foldl]. rewrite IH.
  destruct (Orchestrator.conns w !! e.2) as [c|]; [|done].
  destruct (Orchestrator.isConnected c); [|done].
  apply internal_sendDataChannelMessage.
Qed.

Lemma internal_on_peer_event a e w :
  Orchestrator.internal (Orchestrator.on_peer_event a e w) =
  Orchestrator.internal w.
Proof.
  destruct (OrchestratorProofs.on_peer_event_keeps a e w) as (Hm & Hc & _).
  unfold Orchestrator.internal. by rewrite Hm, Hc.
Qed.

Ltac room_simpl :=
  cbn [roomId nickname myParticipantId isMuted participants webrtcManagerRef
       signalingClientRef manager tracks signals setParticipants set_manager
       setMyParticipantId setIsMuted set_tracks call_sendSignal] in *.

Lemma join_step_inv pid nick init at_ r :
  roster_inv r →
  roster_inv (create pid init at_ (setParticipants (add_participant pid nick) r)).
Proof.
  intros (Hnd & Hkeys & Href).
  destruct (add_participant_spec pid nick (participants r) Hnd)
    as (Hnd' & Hpid & Hold).
  unfold create. room_simpl.
  destruct (webrtcManagerRef r) eqn:Hr; unfold roster_inv; room_simpl.
  - split; [done|]. split; [|by rewrite Hr].
    intros k a [->|Hin]%internal_createConnection; [done|].
    apply Hold. by eapply Hkeys.
  - split; [done|]. split; [|by intros _; apply Href].
    rewrite (Href eq_refl). by intros k a ?%not_elem_of_nil.
Qed.

Lemma add_existing_inv now ps : ∀ k r,
  roster_inv r → roster_inv (add_existing now k ps r).
Proof.
  induction ps as [|[pid nick] ps IH]; intros k r I; [done|].
  cbn [add_existing]. by apply IH, join_step_inv.
Qed.

Lemma on_signaling_inv now cb r :
  roster_inv r → roster_inv (on_signaling now cb r).
Proof.
  intros I. destruct cb as [| |rid pid| |pid nick|pid|ps|from sg|]; try done.
  - destruct I as (Hnd & Hkeys & Href).
    destruct (add_self_spec (nickname r) (participants r) Hnd) as [Hnd' Hold].
    unfold roster_inv. cbn [on_signaling]. room_simpl.
    split; [done|]. split; [|done].
    intros k a Hin. apply Hold. by eapply Hkeys.
  - by apply join_step_inv.
  - destruct I as (Hnd & Hkeys & Href).
    destruct (remove_participant_spec pid (participants r) Hnd)
      as [Hnd' Hiff].
    cbn [on_signaling]. cbn zeta. room_simpl.
    destruct (webrtcManagerRef r) eqn:Hr; unfold roster_inv; room_simpl.
    + split; [done|]. split; [|by rewrite Hr].
      intros k a [Hin Hne]%internal_closeConnection.
      apply Hiff. split; [by eapply Hkeys|done].
    + split; [done|]. split; [|by intros _; apply Href].
      rewrite (Href eq_refl). by intros k a ?%not_elem_of_nil.
  - by apply add_existing_inv.
  - pose proof I as (Hnd & Hkeys & Href). cbn [on_signaling].
    destruct (webrtcManagerRef r) eqn:Hr; [|exact I].
    destruct sg as [[]|]; try exact I;
      unfold roster_inv; room_simpl;
      (split; [done|]; split; [|by rewrite Hr]);
      rewrite internal_handleSignal; exact Hkeys.
Qed.

Lemma on_manager_event_inv r e :
  roster_inv r → roster_inv (on_manager_event r e).
Proof.
  intros (Hnd & Hkeys & Href). destruct e as [to sg cid|p s|p st].
  - cbn [on_manager_event].
    by destruct (signalingClientRef r && truthy (Some to)).
  - done.
  - unfold roster_inv. cbn [on_manager_event]. room_simpl.
    by rewrite set_connection_state_ids.
Qed.

Lemma on_peer_inv a e r : roster_inv r → roster_inv (on_peer a e r).
Proof.
  intros (Hnd & Hkeys & Href). unfold on_peer.
  set (w' := Orchestrator.on_peer_event a e (manager r)).
  assert (I : roster_inv (set_manager w' r)).
  { unfold roster_inv. room_simpl. unfold w'.
    by rewrite internal_on_peer_event. }
  revert I. generalize (set_manager w' r).
  induction (drop _ _) as [|x l IH]; intros r0 I; [done|].
  cbn [foldl]. by apply IH, on_manager_event_inv.
Qed.

Lemma toggleMute_inv now r : roster_inv r → roster_inv (toggleMute now r).
Proof.
  intros (Hnd & Hkeys & Href).
  destruct (toggleMute_fields now r) as (_ & _ & Hp & Hr & Hm).
  unfold roster_inv. rewrite Hp, Hr, Hm, set_self_muted_ids.
  split; [done|].
  destruct (webrtcManagerRef r); [|done].
  unfold Orchestrator.broadcastMuteStatus. rewrite internal_broadcast. done.
Qed.

Lemma step_roster_inv r e : roster_inv r → roster_inv (step r e).
Proof.
  destruct e; cbn [step];
    [apply on_signaling_inv|apply on_peer_inv|apply toggleMute_inv].
Qed.


(** ** From the directory to the pages *)

Lemma receive_fires now t m c r :
  Session.state_of t c = Some OPEN →
  receive now t m c r =
  (Session.handleMessage (Some m) c,
   match m with
   | Directory.Connected _ => r
   | Directory.RoomJoined a b => on_signaling now (Session.CbRoomJoined a b) r
   | Directory.RoomLeft a => on_signaling now (Session.CbRoomLeft a) r
   | Directory.ParticipantJoined a b =>
     on_signaling now (Session.CbParticipantJoined a b) r
   | Directory.ParticipantLeft a =>
     on_signaling now (Session.CbParticipantLeft a) r
   | Directory.ExistingParticipants ps =>
     on_signaling now (Session.CbExistingParticipants ps) r
   | Directory.Signal a b => on_signaling now (Session.CbSignalReceived a b) r
   | Directory.ErrorMsg a => on_signaling now (Session.CbError a) r
   end).
Proof.
  intros Ho. unfold receive. cbn [Session.step]. rewrite Ho.
  destruct m; cbn [Session.handleMessage Session.invoke Session.callbacks];
    rewrite ?drop_app_length, ?drop_all; done.
Qed.

Lemma handleMessage_state_of m c t :
  Session.state_of t (Session.handleMessage m c) = Session.state_of t c.
Proof. by destruct m as [[]|]. Qed.

Lemma createConnection_success p init cid now ls w :
  Orchestrator.isInitialized w = true →
  Orchestrator.localStream (Orchestrator.audio w) = Some ls →
  let w' := (Orchestrator.createConnection p init cid now w).1 in
  Orchestrator.getConnection p w' = Some (Orchestrator.next w) ∧
  (∃ c, Orchestrator.conns w' !! Orchestrator.next w = Some c ∧
        Orchestrator.isInitiator c = init) ∧
  Orchestrator.next w' = S (Orchestrator.next w) ∧
  (∀ q, q ≠ p →
     Orchestrator.getConnection q w' = Orchestrator.getConnection q w) ∧
  (∀ a, a ≠ Orchestrator.next w →
     Orchestrator.conns w' !! a = Orchestrator.conns w !! a) ∧
  Orchestrator.isInitialized w' = true ∧
  Orchestrator.audio w' = Orchestrator.audio w.
Proof.
  intros Hi Hls.
  destruct (OrchestratorProofs.createConnection_stores p init cid now ls w
              Hi Hls) as (_ & Hint & Hcs & Ha & _).
  cbn zeta. unfold Orchestrator.getConnection. rewrite Hint, Hcs.
  split; [apply OrchestratorProofs.map_get_set|].
  split; [eexists; split; [apply lookup_insert_eq|done]|].
  split; [|split; [|split; [|split; [|done]]]].
  - unfold Orchestrator.createConnection. by rewrite Hi, Hls.
  - intros q Hq. by apply OrchestratorProofs.map_get_set_ne.
  - intros a Ha'. by rewrite lookup_insert_ne.
  - unfold Orchestrator.createConnection. by rewrite Hi, Hls.
Qed.

(** What one [createConnection] from a handler leaves behind. *)
Lemma create_spec p init at_ r :
  webrtcManagerRef r = true →
  Orchestrator.isInitialized (manager r) = true →
  is_Some (Orchestrator.localStream (Orchestrator.audio (manager r))) →
  let r' := create p init at_ r in
  let a := Orchestrator.next (manager r) in
  webrtcManagerRef r' = true ∧
  Orchestrator.isInitialized (manager r') = true ∧
  Orchestrator.audio (manager r') = Orchestrator.audio (manager r) ∧
  Orchestrator.next (manager r') = S a ∧
  Orchestrator.getConnection p (manager r') = Some a ∧
  (∃ c, Orchestrator.conns (manager r') !! a = Some c ∧
        Orchestrator.isInitiator c = init) ∧
  (∀ q, q ≠ p → Orchestrator.getConnection q (manager r') =
                Orchestrator.getConnection q (manager r)) ∧
  (∀ b, b ≠ a → Orchestrator.conns (manager r') !! b =
                Orchestrator.conns (manager r) !! b).
Proof.
  intros Href Hi [ls Hls]. cbn zeta. unfold create. rewrite Href. room_simpl.
  destruct (createConnection_success p init (or_default (roomId r) "") at_ ls
              (manager r) Hi Hls) as (Hg & Hc & Hn & Hoth & Hcs & Hi' & Ha).
  done.
Qed.

Lemma role_create p init at_ r :
  webrtcManagerRef r = true →
  Orchestrator.isInitialized (manager r) = true →
  is_Some (Orchestrator.localStream (Orchestrator.audio (manager r))) →
  role p (create p init at_ r) = Some init.
Proof.
  intros Href Hi Hls.
  destruct (create_spec p init at_ r Href Hi Hls)
    as (_ & _ & _ & _ & Hg & (c & Hc & Hrole) & _).
  unfold role. rewrite Hg. cbn. rewrite Hc. cbn. by rewrite Hrole.
Qed.

(** The records of the peers listed in [existing-participants]. *)
Lemma add_existing_roles now ps : ∀ k r,
  webrtcManagerRef r = true →
  Orchestrator.isInitialized (manager r) = true →
  is_Some (Orchestrator.localStream (Orchestrator.audio (manager r))) →
  let r' := add_existing now k ps r in
  Orchestrator.next (manager r) ≤ Orchestrator.next (manager r') ∧
  (∀ q a, q ∉ ps.*1 → a < Orchestrator.next (manager r) →
     Orchestrator.getConnection q (manager r) = Some a →
     Orchestrator.getConnection q (manager r') = Some a ∧
     Orchestrator.conns (manager r') !! a =
     Orchestrator.conns (manager r) !! a) ∧
  (∀ q, q ∈ ps.*1 → role q r' = Some false).
Proof.
  induction ps as [|[pid nick] ps IH]; intros k r Href Hi Hls; cbn zeta.
  - split; [done|]. split; [done|]. by intros q ?%not_elem_of_nil.
  - cbn [add_existing].
    set (r0 := setParticipants (add_participant pid nick) r).
    set (r1 := create pid false (now k) r0).
    destruct (create_spec pid false (now k) r0 Href Hi Hls)
      as (Href1 & Hi1 & Ha1 & Hn1 & Hg1 & (c1 & Hc1 & Hrole1) & Hoth1 & Hcs1).
    fold r1 in Href1, Hi1, Ha1, Hn1, Hg1, Hc1, Hoth1, Hcs1.
    change (manager r0) with (manager r) in *.
    assert (Hls1 : is_Some (Orchestrator.localStream
                              (Orchestrator.audio (manager r1))))
      by by rewrite Ha1.
    destruct (IH (S k) r1 Href1 Hi1 Hls1) as (Hle & Hkeep & Hnew).
    split; [lia|]. split.
    + intros q a Hq Ha Hg. cbn in Hq. apply not_elem_of_cons in Hq as [Hne Hq].
      destruct (Hkeep q a Hq) as [Hg' Hc']; [lia|by rewrite Hoth1|].
      split; [done|]. rewrite Hc'. apply Hcs1. lia.
    + intros q Hq. cbn in Hq.
      destruct (decide (q ∈ ps.*1)) as [Hin|Hnin]; [by apply Hnew|].
      apply elem_of_cons in Hq as [->|Hq]; [|done].
      destruct (Hkeep pid (Orchestrator.next (manager r)) Hnin)
        as [Hg' Hc']; [lia|done|].
      unfold role. rewrite Hg'. cbn. rewrite Hc', Hc1. cbn. by rewrite Hrole1.
Qed.

Lemma delivered_app w l1 l2 :
  delivered w (l1 ++ l2) = delivered w l1 ++ delivered w l2.
Proof. unfold delivered. by rewrite filter_app, fmap_app. Qed.

Lemma delivered_notices w m (l : list string) :
  NoDup l →
  delivered w (map (λ q, (q, m)) l) = if bool_decide (w ∈ l) then [m] else [].
Proof.
  unfold delivered. induction l as [|x l IH]; intros Hnd; [done|].
  apply NoDup_cons in Hnd as [Hx Hnd]. cbn [map].
  destruct (decide (x = w)) as [->|Hne].
  - rewrite filter_cons_True by done. cbn.
    rewrite IH by done. rewrite bool_decide_eq_false_2 by done.
    rewrite bool_decide_eq_true_2; [done|by left].
  - rewrite filter_cons_False by done. rewrite IH by done.
    apply (f_equal (λ b : bool, if b then [m] else [])).
    apply bool_decide_ext. rewrite elem_of_cons.
    split; [by right|]. by intros [?|?].
Qed.

(** X21.  Who calls whom: a participant in no room joins a room in which
    [q] is a member, both with open sockets.  The directory then writes one
    [participant-joined] to [q] and [room-joined] followed by
    [existing-participants] to the joiner; the page of [q] handles its
    message by creating its connection to the joiner as initiator, and the
    page of the joiner handles its messages by creating its connection to
    [q] as responder.  So of every such pair exactly one side starts the
    negotiation. *)
Theorem join_assigns_roles pid p0 msg rid room q s
    nowq tq cq rq nowp tp cp rp :
  Directory.dir_inv s →
  Directory.participants s !! pid = Some p0 → Directory.roomId p0 = None →
  Directory.m_roomId msg = Some rid → rid ≠ "" →
  Directory.rooms s !! rid = Some room → q ∈ room →
  is_open (Directory.sockets s !! pid) = true →
  is_open (Directory.sockets s !! q) = true →
  page_ready tq cq rq → page_ready tp cp rp →
  let out := drop (length (Directory.sent s))
                  (Directory.sent (Directory.handleJoinRoom pid msg s)) in
  q ≠ pid ∧
  (∃ nick, delivered q out = [Directory.ParticipantJoined pid nick]) ∧
  (∃ roster, delivered pid out =
             [Directory.RoomJoined rid pid;
              Directory.ExistingParticipants roster]) ∧
  role pid (receive_all nowq 0 tq (delivered q out) cq rq).2 = Some true ∧
  role q (receive_all nowp 0 tp (delivered pid out) cp rp).2 = Some false.
Proof.
  intros I Hp Hnone Hr Hne Hroom Hq Hlp Hlq
    (Hoq & Hrefq & Hiq & Hlsq) (Hop & Hrefp & Hip & Hlsp) out.
  destruct (DirectoryProofs.handleJoinRoom_sent pid p0 msg rid s I Hp Hr Hne)
    as ((Hnin & Hnd) & Hsent).
  rewrite Hnone in Hnin, Hnd, Hsent. cbn [truthy] in Hnin, Hnd, Hsent.
  rewrite Hroom in Hnin, Hnd, Hsent. cbn [default id] in Hnin, Hnd, Hsent.
  rewrite Hlp in Hsent. cbn [andb] in Hsent.
  assert (Hqp : q ≠ pid) by (intros ->; done).
  assert (Hnonempty : bool_decide (room = []) = false).
  { apply bool_decide_eq_false_2. intros ->. by apply not_elem_of_nil in Hq. }
  rewrite Hnonempty in Hsent. cbn [negb] in Hsent.
  set (nick := or_default (Directory.m_nickname msg) "Anonymous") in *.
  set (roster := map (Directory.roster_entry s) room) in *.
  assert (Hout : out =
            [(pid, Directory.RoomJoined rid pid)] ++
            map (λ q0, (q0, Directory.ParticipantJoined pid nick))
              (filter (λ q0, is_open (Directory.sockets s !! q0) = true) room) ++
            [(pid, Directory.ExistingParticipants roster)]).
  { subst out. rewrite Hsent. by rewrite drop_app_length. }
  assert (Hdq : delivered q out = [Directory.ParticipantJoined pid nick]).
  { rewrite Hout, !delivered_app, delivered_notices by by apply NoDup_filter.
    rewrite bool_decide_eq_true_2 by by apply list_elem_of_filter.
    unfold delivered. rewrite !filter_cons_False by (cbn; congruence). done. }
  assert (Hdp : delivered pid out =
                [Directory.RoomJoined rid pid;
                 Directory.ExistingParticipants roster]).
  { rewrite Hout, !delivered_app, delivered_notices by by apply NoDup_filter.
    rewrite bool_decide_eq_false_2
      by (intros [_ ?]%list_elem_of_filter; done).
    unfold delivered. rewrite !filter_cons_True by done. done. }
  split; [done|]. split; [by exists nick|]. split; [by exists roster|].
  rewrite Hdq, Hdp. split.
  - cbn [receive_all]. rewrite receive_fires by done. cbn [snd on_signaling].
    by apply role_create.
  - cbn [receive_all]. rewrite receive_fires by done.
    rewrite receive_fires by by rewrite handleMessage_state_of.
    cbn [snd on_signaling].
    apply (add_existing_roles (nowp 1) roster 0); try done.
    subst roster. apply list_elem_of_fmap. exists (Directory.roster_entry s q).
    split; [done|]. apply list_elem_of_In, in_map, list_elem_of_In, Hq.
Qed.

Lemma join_assigns_roles_witness :
  let s := Directory.run Directory.new_server Directory.two_connected in
  let out := drop (length (Directory.sent s))
               (Directory.sent
                  (Directory.handleJoinRoom "P2"
                     (Directory.join_room (Some "r1") None) s)) in
  Directory.dir_inv s ∧ page_ready 0 open_client ready_room ∧
  role "P2" (receive_all (λ _ _, 0%Z) 0 0 (delivered "P1" out)
               open_client ready_room).2 = Some true ∧
  role "P1" (receive_all (λ _ _, 0%Z) 0 0 (delivered "P2" out)
               open_client ready_room).2 = Some false.
Proof.
  intros s out.
  assert (I : Directory.dir_inv s).
  { apply DirectoryProofs.run_inv; [apply DirectoryProofs.new_server_inv|].
    cbn. repeat split; reflexivity. }
  assert (R : page_ready 0 open_client ready_room).
  { repeat split; try reflexivity. by eexists. }
  split; [exact I|]. split; [exact R|].
  assert (Hp : Directory.participants s !! "P2" =
               Some {| Directory.ws := "P2"; Directory.roomId := None;
                       Directory.nickname := "Anonymous" |})
    by reflexivity.
  assert (Hroom : Directory.rooms s !! "r1" = Some ["P1"]) by reflexivity.
  destruct (join_assigns_roles "P2" _ (Directory.join_room (Some "r1") None)
              "r1" ["P1"] "P1" s (λ _ _, 0%Z) 0 open_client ready_room
              (λ _ _, 0%Z) 0 open_client ready_room I Hp eq_refl eq_refl)
    as (_ & _ & _ & H1 & H2);
    [done|exact Hroom|by left|reflexivity|reflexivity|exact R|exact R|].
  split; [exact H1|exact H2].
Defined.



End RoomProofs.
